(** * The CephFS journal tools: JournalScanner (mds/JournalTool.cc) and
    Dumper (tools/cephfs/Dumper.cc)

    A shallow embedding of the two translation units and the properties
    their specification states about them, followed by further
    properties of the code: of the scanner, of the dump file and of the
    entry points of the tool.

    Conventions.
    - A [uint64_t] is a [Z] in [0, 2^64); every C++ addition on one is
      followed by [wrap64].
    - A [bufferlist] is a [list byte]; [splice(0, n)] is [skipn n] and
      appending is [++].
    - Code that lives outside the two files (the RADOS client, the header
      and event codecs, format constants) is a field of [Format], of
      [Config] or of [Cluster]: the development is parametric in it.
    - Abnormal termination (a failed [assert], a NULL header
      dereferenced, a division by zero) is an explicit [outcome]; so is,
      for the entry points of the tool, a read past the end of [argv]
      ([tool_result]).
    - [size_t] is 64 bits wide, so the length arithmetic of
      [scan_events] does not wrap; buffer lengths are taken as they are.
    - Loops run on fuel.  The entry loop and the chunk loop get enough
      of it from their callers ([parse_entries_total],
      [undump_chunks_total]); the loop over objects takes its fuel from
      the caller of [scan], since with a last index of [UINT64_MAX] it
      has no end ([scan_objects_enough_fuel], [scan_objects_last_max]). *)

From Stdlib Require Import ZArith List Lia Bool String Ascii Sorted.
From Stdlib.Strings Require Import Byte.
Import ListNotations.
Open Scope Z_scope.

(* ================================================================== *)
(** ** Machine integers and little-endian decoding *)

Definition two64 : Z := 2 ^ 64.

Definition wrap64 (x : Z) : Z := x mod two64.

(** [(uint64_t)-1] *)
Definition UINT64_MAX : Z := two64 - 1.

Definition byte_val (b : byte) : Z := Z.of_N (Byte.to_N b).

(** Value of a little-endian byte sequence: what [::decode] yields for
    the fixed-width unsigned types. *)
Fixpoint le_value (bs : list byte) : Z :=
  match bs with
  | [] => 0
  | b :: rest => byte_val b + 256 * le_value rest
  end.

Definition decode_u64 (bl : list byte) : Z := le_value (firstn 8 bl).
Definition decode_u32 (bl : list byte) : Z := le_value (firstn 4 bl).

(** [bufferlist::length()] *)
Definition blen (bl : list byte) : Z := Z.of_nat (List.length bl).

(* ================================================================== *)
(** ** printf and scanf conversions (object names, the dump preamble) *)

(** The character of a digit value, [0-9a-f]. *)
Definition digit_char (d : Z) : byte :=
  nth (Z.to_nat d)
    [x30; x31; x32; x33; x34; x35; x36; x37;
     x38; x39; x61; x62; x63; x64; x65; x66] x30.

(** The [n] low digits of [v] in [base], most significant first. *)
Fixpoint digits (base : Z) (n : nat) (v : Z) : list byte :=
  match n with
  | O => []
  | S n' => digits base n' (v / base) ++ [digit_char (v mod base)]
  end.

(** Drops leading zeros as long as more than [width] digits remain. *)
Fixpoint strip_zeros (width : nat) (ds : list byte) : list byte :=
  match ds with
  | d :: rest =>
      if (Nat.ltb width (List.length ds) && Byte.eqb d x30)%bool
      then strip_zeros width rest
      else ds
  | [] => []
  end.

(** [%0<width>llx] of an [unsigned long long]; [%llx] is width 1. *)
Definition fmt_llx (width : nat) (v : Z) : list byte :=
  strip_zeros width (digits 16 16 v).

(** [%llu] of an [unsigned long long]. *)
Definition fmt_llu (v : Z) : list byte :=
  strip_zeros 1 (digits 10 20 v).

(** [%d] of an [int]. *)
Definition fmt_d (v : Z) : list byte :=
  if v <? 0 then x2d :: strip_zeros 1 (digits 10 10 (- v))
  else strip_zeros 1 (digits 10 10 v).

(** [isspace] in the C locale. *)
Definition isspace (c : byte) : bool :=
  let v := byte_val c in ((9 <=? v) && (v <=? 13) || (v =? 32))%bool.

Definition isdigit (c : byte) : bool :=
  let v := byte_val c in ((48 <=? v) && (v <=? 57))%bool.

Fixpoint skip_space (s : list byte) : list byte :=
  match s with
  | c :: rest => if isspace c then skip_space rest else s
  | [] => []
  end.

(** Accumulates the longest run of decimal digits. *)
Fixpoint scan_digits (acc : Z) (s : list byte) : Z :=
  match s with
  | c :: rest =>
      if isdigit c then scan_digits (10 * acc + (byte_val c - 48)) rest
      else acc
  | [] => acc
  end.

(** The [%llu] directive on input [s]: white space is skipped, then an
    optionally signed run of digits is converted as [strtoull] does
    (saturating at [ULLONG_MAX], a minus sign negating modulo 2^64).
    [None] is a matching failure: nothing is assigned. *)
Definition scan_llu (s : list byte) : option Z :=
  let s := skip_space s in
  let '(neg, s) :=
    match s with
    | c :: rest =>
        if Byte.eqb c x2d then (true, rest)
        else if Byte.eqb c x2b then (false, rest)
        else (false, s)
    | [] => (false, s)
    end in
  match s with
  | c :: _ =>
      if isdigit c then
        let v := Z.min (scan_digits 0 s) UINT64_MAX in
        Some (if neg then wrap64 (- v) else v)
      else None
  | [] => None
  end.

Fixpoint is_prefix (needle s : list byte) : bool :=
  match needle, s with
  | [], _ => true
  | n :: needle', c :: s' => (Byte.eqb n c && is_prefix needle' s')%bool
  | _ :: _, [] => false
  end.

(** [strstr] on a string given by its bytes before the terminating NUL:
    the suffix starting at the first occurrence, [None] for NULL. *)
Fixpoint strstr (s needle : list byte) : option (list byte) :=
  if is_prefix needle s then Some s
  else
    match s with
    | [] => None
    | _ :: s' => strstr s' needle
    end.

(** The bytes of a [char] array before its first NUL; [None] when the
    array holds no NUL (reading it as a string runs off its end). *)
Fixpoint c_str (buf : list byte) : option (list byte) :=
  match buf with
  | [] => None
  | c :: rest =>
      if Byte.eqb c x00 then Some []
      else option_map (cons c) (c_str rest)
  end.

(* ================================================================== *)
(** ** Data model *)

(** [ceph_file_layout], reduced to the fields the tools touch. *)
Record file_layout := {
  fl_object_size : Z;
  fl_pg_pool : Z
}.

(** [Journaler::Header], reduced to the fields the tools touch. *)
Record Header := {
  magic : string;
  trimmed_pos : Z;
  expire_pos : Z;
  write_pos : Z;
  layout : file_layout
}.

(** Outcome of [Journaler::Header::decode]: the header filled in, or a
    [buffer::error] thrown part-way, the header object left as far as it
    was filled. *)
Inductive decode_result :=
| Decoded (h : Header)
| BufferError (partial : Header).

(** What the two files take from the rest of the tree.  [LogEvent] is the
    type of decoded events; [LogEvent_decode] returns [None] where
    [LogEvent::decode] returns NULL. *)
Record Format (LogEvent : Type) := {
  MDS_INO_LOG_OFFSET : Z;
  CEPH_FS_ONDISK_MAGIC : string;
  sentinel : Z;                                   (* Journaler::sentinel *)
  g_default_file_layout : file_layout;
  Header_decode : list byte -> decode_result;
  Header_encode : Header -> list byte;
  LogEvent_decode : list byte -> option LogEvent
}.

Arguments MDS_INO_LOG_OFFSET {LogEvent} _.
Arguments CEPH_FS_ONDISK_MAGIC {LogEvent} _.
Arguments sentinel {LogEvent} _.
Arguments g_default_file_layout {LogEvent} _.
Arguments Header_decode {LogEvent} _ _.
Arguments Header_encode {LogEvent} _ _.
Arguments LogEvent_decode {LogEvent} _ _.

(** Constructor arguments of the scanner and the configuration it reads. *)
Record Config := {
  rank : Z;
  pool_id : Z;
  mds_log_segment_size : Z        (* g_conf->mds_log_segment_size *)
}.

(** Result of [IoCtx::read(name, bl, INT_MAX, 0)]: the return code
    (bytes read, or a negative errno) and the bytes left in [bl]. *)
Record read_result := {
  rc : Z;
  data : list byte
}.

Definition IoCtx := string -> read_result.

(** The cluster as [scan] meets it. *)
Record Cluster := {
  rados_init : Z;                 (* rados.init_with_context *)
  pool_reverse_lookup : Z;        (* rados.pool_reverse_lookup *)
  ioctx_create : Z;               (* rados.ioctx_create *)
  io : IoCtx
}.

(** [std::map<uint64_t, LogEvent*>]: an association list kept in
    ascending key order; iteration from [begin()] is list order. *)
Definition EventMap (LogEvent : Type) := list (Z * LogEvent).

(** [m[k] = v] *)
Fixpoint map_assign {E : Type} (k : Z) (v : E) (m : EventMap E) : EventMap E :=
  match m with
  | [] => [(k, v)]
  | (k', v') :: m' =>
      if k <? k' then (k, v) :: m
      else if k =? k' then (k, v) :: m'
      else (k', v') :: map_assign k v m'
  end.

(** The members of [JournalScanner] that [scan] reads and writes. *)
Record JournalScanner (LogEvent : Type) := {
  header : option Header;         (* Journaler::Header *header; None is NULL *)
  header_present : bool;
  header_valid : bool;
  objects_valid : list string;
  objects_missing : list Z;
  ranges_invalid : list (Z * Z);
  events_valid : list Z;
  events : EventMap LogEvent
}.

Arguments header {LogEvent} _.
Arguments header_present {LogEvent} _.
Arguments header_valid {LogEvent} _.
Arguments objects_valid {LogEvent} _.
Arguments objects_missing {LogEvent} _.
Arguments ranges_invalid {LogEvent} _.
Arguments events_valid {LogEvent} _.
Arguments events {LogEvent} _.

(** A scanner as constructed: no header, nothing recorded. *)
Definition new_scanner (LogEvent : Type) : JournalScanner LogEvent :=
  {| header := None; header_present := false; header_valid := false;
     objects_valid := []; objects_missing := []; ranges_invalid := [];
     events_valid := []; events := [] |}.

(** The locals of [scan_events] that live across loop iterations. *)
Record Locals := {
  read_offset : Z;
  read_buf : list byte;
  gap : bool;
  gap_start : Z
}.

Inductive crash :=
| NullHeader        (* header-> with header == NULL *)
| DivideByZero      (* x / object_size with object_size == 0 *)
| AssertIoctx       (* assert(r == 0) after ioctx_create *)
| AssertZero.       (* assert(0) *)

Inductive outcome (A : Type) :=
| Returned (r : Z) (s : A)
| Crashed (c : crash)
| OutOfFuel.

Arguments Returned {A} _ _.
Arguments Crashed {A} _.
Arguments OutOfFuel {A}.

(* ================================================================== *)
(** ** JournalScanner *)

Section Scanner.

Context {LogEvent : Type}.
Variable fmt : Format LogEvent.
Variable cfg : Config.

Let JS := JournalScanner LogEvent.

(** [JournalScanner::obj_name]: [snprintf("%llx.%08llx", ...)]; at most
    33 characters, so the 60-byte buffer never truncates. *)
Definition obj_name (offset : Z) : string :=
  string_of_list_byte
    (fmt_llx 1 (wrap64 (MDS_INO_LOG_OFFSET fmt + rank cfg))
     ++ [x2e] ++ fmt_llx 8 offset).

Definition header_name : string := obj_name 0.

Definition set_header_present (js : JS) : JS :=
  {| header := header js; header_present := true;
     header_valid := header_valid js;
     objects_valid := objects_valid js;
     objects_missing := objects_missing js;
     ranges_invalid := ranges_invalid js;
     events_valid := events_valid js; events := events js |}.

Definition set_header (h : Header) (js : JS) : JS :=
  {| header := Some h; header_present := header_present js;
     header_valid := header_valid js;
     objects_valid := objects_valid js;
     objects_missing := objects_missing js;
     ranges_invalid := ranges_invalid js;
     events_valid := events_valid js; events := events js |}.

Definition set_header_valid (js : JS) : JS :=
  {| header := header js; header_present := header_present js;
     header_valid := true;
     objects_valid := objects_valid js;
     objects_missing := objects_missing js;
     ranges_invalid := ranges_invalid js;
     events_valid := events_valid js; events := events js |}.

Definition push_missing (i : Z) (js : JS) : JS :=
  {| header := header js; header_present := header_present js;
     header_valid := header_valid js;
     objects_valid := objects_valid js;
     objects_missing := objects_missing js ++ [i];
     ranges_invalid := ranges_invalid js;
     events_valid := events_valid js; events := events js |}.

Definition push_valid (name : string) (js : JS) : JS :=
  {| header := header js; header_present := header_present js;
     header_valid := header_valid js;
     objects_valid := objects_valid js ++ [name];
     objects_missing := objects_missing js;
     ranges_invalid := ranges_invalid js;
     events_valid := events_valid js; events := events js |}.

Definition push_range (r : Z * Z) (js : JS) : JS :=
  {| header := header js; header_present := header_present js;
     header_valid := header_valid js;
     objects_valid := objects_valid js;
     objects_missing := objects_missing js;
     ranges_invalid := ranges_invalid js ++ [r];
     events_valid := events_valid js; events := events js |}.

(** [events[off] = le; events_valid.push_back(off);] *)
Definition record_event (off : Z) (le : LogEvent) (js : JS) : JS :=
  {| header := header js; header_present := header_present js;
     header_valid := header_valid js;
     objects_valid := objects_valid js;
     objects_missing := objects_missing js;
     ranges_invalid := ranges_invalid js;
     events_valid := events_valid js ++ [off];
     events := map_assign off le (events js) |}.

(** [JournalScanner::scan_header].  Every path returns 0. *)
Definition scan_header (io : IoCtx) (js : JS) : Z * JS :=
  let rd := io header_name in
  if rc rd <? 0 then (0, js)
  else
    let js := set_header_present js in
    match Header_decode fmt (data rd) with
    | BufferError partial => (0, set_header partial js)
    | Decoded h =>
        let js := set_header h js in
        if negb (String.eqb (magic h) (CEPH_FS_ONDISK_MAGIC fmt)) then (0, js)
        else if negb ((trimmed_pos h <=? expire_pos h)
                      && (expire_pos h <=? write_pos h))%bool then (0, js)
        else (0, set_header_valid js)
    end.

(** The [while(true)] loop of [scan_events].  An iteration that does not
    leave the loop splices a whole entry (at least 20 bytes) off
    [read_buf], so [fuel] above the buffer length is never used up. *)
Fixpoint parse_entries (fuel : nat) (js : JS) (lc : Locals)
  : option (JS * Locals) :=
  match fuel with
  | O => None
  | S fuel' =>
      if 8 + 4 <=? blen (read_buf lc) then
        let entry_sentinel := decode_u64 (read_buf lc) in
        let entry_size := decode_u32 (skipn 8 (read_buf lc)) in
        if negb (entry_sentinel =? sentinel fmt) then
          Some (js, {| read_offset := read_offset lc;
                       read_buf := read_buf lc;
                       gap := true;
                       gap_start := read_offset lc |})
        else if 8 + 4 + entry_size + 8 <=? blen (read_buf lc) then
          let le_bl := firstn (Z.to_nat entry_size) (skipn 12 (read_buf lc)) in
          let rest := skipn (Z.to_nat (8 + 4 + entry_size + 8)) (read_buf lc) in
          match LogEvent_decode fmt le_bl with
          | Some le =>
              parse_entries fuel'
                (record_event (read_offset lc) le js)
                {| read_offset :=
                     wrap64 (read_offset lc + (8 + 4 + entry_size + 8));
                   read_buf := rest;
                   gap := gap lc;
                   gap_start := gap_start lc |}
          | None =>
              let off := wrap64 (read_offset lc + 1) in
              parse_entries fuel' js
                {| read_offset := off;
                   read_buf := rest;
                   gap := true;
                   gap_start := off |}
          end
        else Some (js, lc)
      else Some (js, lc)
  end.

(** One pass through the body of the [for] loop over object indices. *)
Inductive step_result :=
| Next (js : JS) (lc : Locals)
| Stop (o : outcome JS).

Definition scan_object (io : IoCtx) (obj_offset : Z) (js : JS) (lc : Locals)
  : step_result :=
  let rd := io (obj_name obj_offset) in
  let buf := read_buf lc ++ data rd in
  if rc rd <? 0 then
    Next (push_missing obj_offset js)
         {| read_offset := read_offset lc; read_buf := buf;
            gap := true; gap_start := read_offset lc |}
  else
    let js := push_valid (obj_name obj_offset) js in
    if gap lc then Stop (Crashed AssertZero)
    else
      match parse_entries (S (List.length buf)) js
              {| read_offset := read_offset lc; read_buf := buf;
                 gap := gap lc; gap_start := gap_start lc |} with
      | Some (js', lc') => Next js' lc'
      | None => Stop OutOfFuel
      end.

(** What follows the [for] loop. *)
Definition finish_scan (js : JS) (lc : Locals) : outcome JS :=
  Returned 0
    (if gap lc then push_range (gap_start lc, UINT64_MAX) js else js).

(** The [for] loop, [obj_offset <= last; obj_offset++], one unit of
    [fuel] per iteration. *)
Fixpoint scan_objects (fuel : nat) (io : IoCtx) (obj_offset last : Z)
  (js : JS) (lc : Locals) : outcome JS :=
  if obj_offset <=? last then
    match fuel with
    | O => OutOfFuel
    | S fuel' =>
        match scan_object io obj_offset js lc with
        | Next js' lc' =>
            scan_objects fuel' io (wrap64 (obj_offset + 1)) last js' lc'
        | Stop o => o
        end
    end
  else finish_scan js lc.

(** [object_size] as [scan_events] computes it. *)
Definition object_size : Z :=
  if mds_log_segment_size cfg =? 0
  then fl_object_size (g_default_file_layout fmt)
  else mds_log_segment_size cfg.

(** [JournalScanner::scan_events] *)
Definition scan_events (fuel : nat) (io : IoCtx) (js : JS) : outcome JS :=
  match header js with
  | None => Crashed NullHeader
  | Some h =>
      if object_size =? 0 then Crashed DivideByZero
      else
        scan_objects fuel io
          (expire_pos h / object_size) (write_pos h / object_size) js
          {| read_offset := expire_pos h; read_buf := [];
             gap := false; gap_start := UINT64_MAX |}
  end.

(** [JournalScanner::scan] *)
Definition scan (fuel : nat) (cl : Cluster) (js : JS) : outcome JS :=
  if rados_init cl <? 0 then Returned (rados_init cl) js
  else if pool_reverse_lookup cl <? 0 then Returned (pool_reverse_lookup cl) js
  else if negb (ioctx_create cl =? 0) then Crashed AssertIoctx
  else
    let '(r, js) := scan_header (io cl) js in
    if r <? 0 then Returned r js
    else
      match scan_events fuel (io cl) js with
      | Returned r js => if r <? 0 then Returned r js else Returned 0 js
      | o => o
      end.

(** [JournalScanner::is_healthy] *)
Definition is_healthy (js : JS) : bool :=
  (header_present js && header_valid js
   && match ranges_invalid js with [] => true | _ => false end
   && match objects_missing js with [] => true | _ => false end)%bool.

End Scanner.

(* ================================================================== *)
(** ** JournalTool *)

Definition EINVAL : Z := 22.

(** What the entry points of [JournalTool] use from outside the file. *)
Record ToolEnv (LogEvent : Type) := {
  (** [ceph_argparse_witharg(argv, i, &rank_str, "--rank")] with [i] at
      [argv.begin()]: [None] where it returns false; otherwise the value
      of the option and [argv] with the option erased, [i] at its
      start. *)
  ceph_argparse_witharg : list string -> option (string * list string);
  (** [strict_strtol(s, 10, &err)]: the value and [err]. *)
  strict_strtol : string -> Z * string;
  get_metadata_pool : Z;               (* mdsmap->get_metadata_pool() *)
  conf_mds_log_segment_size : Z;       (* g_conf->mds_log_segment_size *)
  LogEvent_encode : LogEvent -> list byte;
  get_type_str : LogEvent -> string;
  get_type : LogEvent -> Z;
  EVENT_UPDATE : Z;
  get_path : LogEvent -> string        (* EUpdate::metablob.get_path() *)
}.

Arguments ceph_argparse_witharg {LogEvent} _ _.
Arguments strict_strtol {LogEvent} _ _.
Arguments get_metadata_pool {LogEvent} _.
Arguments conf_mds_log_segment_size {LogEvent} _.
Arguments LogEvent_encode {LogEvent} _ _.
Arguments get_type_str {LogEvent} _ _.
Arguments get_type {LogEvent} _ _.
Arguments EVENT_UPDATE {LogEvent} _.
Arguments get_path {LogEvent} _ _.

(** How a run of the tool ends: with a return code, the files written
    under [dump/] and the lines logged at level 1, in order; in a failed
    assertion or a crash of the scanner; or in undefined behaviour (an
    element of an empty vector, or its end iterator, is read). *)
Inductive tool_result :=
| Exit (r : Z) (files : list (string * list byte)) (lines : list string)
| ToolCrashed (c : crash)
| ToolUndefined
| ToolOutOfFuel.

Section Tool.

Context {LogEvent : Type}.
Variable fmt : Format LogEvent.
Variable env : ToolEnv LogEvent.
Variable fuel : nat.
Variable cl : Cluster.

(** [JournalScanner js(rank, mdsmap->get_metadata_pool())] *)
Definition scanner_config (rank_ : Z) : Config :=
  {| rank := rank_;
     pool_id := get_metadata_pool env;
     mds_log_segment_size := conf_mds_log_segment_size env |}.

(** ["0x" << std::hex << off] *)
Definition hex_key (off : Z) : string :=
  String.append "0x" (string_of_list_byte (fmt_llx 1 off)).

(** The path of the file of one event in binary output. *)
Definition bin_path (off : Z) (le : LogEvent) : string :=
  String.append "dump/"
    (String.append (hex_key off)
       (String.append "_" (String.append (get_type_str env le) ".bin"))).

Definition bin_file (ev : Z * LogEvent) : string * list byte :=
  (bin_path (fst ev) (snd ev), LogEvent_encode env (snd ev)).

(** The line of one event in summary output. *)
Definition summary_line (ev : Z * LogEvent) : string :=
  let path :=
    if get_type env (snd ev) =? EVENT_UPDATE env
    then get_path env (snd ev) else EmptyString in
  String.append (hex_key (fst ev))
    (String.append " "
       (String.append (get_type_str env (snd ev)) (String.append ": " path))).

(** [JournalTool::journal_inspect] *)
Definition journal_inspect (rank_ : Z) : tool_result :=
  match scan fmt (scanner_config rank_) fuel cl (new_scanner LogEvent) with
  | Returned r js =>
      if negb (r =? 0) then Exit r [] []
      else
        Exit 0 []
          [String.append "Journal scanned, healthy="
             (if is_healthy js then "1" else "0")]
  | Crashed c => ToolCrashed c
  | OutOfFuel => ToolOutOfFuel
  end.

(** [JournalTool::main_journal] *)
Definition main_journal (rank_ : Z) (argv : list string) : tool_result :=
  match argv with
  | [] => ToolUndefined                   (* argv[0] of an empty vector *)
  | command :: _ =>
      if String.eqb command "inspect" then journal_inspect rank_
      else Exit (- EINVAL) [] []
  end.

(** [JournalTool::main_event].  A missing output verb is reported and
    then read all the same. *)
Definition main_event (rank_ : Z) (argv : list string) : tool_result :=
  match argv with
  | [] => ToolUndefined                   (* *(arg++) at argv.end() *)
  | command :: [] => ToolUndefined        (* *arg at argv.end() *)
  | command :: output_verb :: _ =>
      if String.eqb command "get" then
        match scan fmt (scanner_config rank_) fuel cl (new_scanner LogEvent) with
        | Returned r js =>
            if negb (r =? 0) then Exit r [] []
            else if String.eqb output_verb "binary" then
              Exit 0 (map bin_file (events js)) []
            else if String.eqb output_verb "summary" then
              Exit 0 [] (map summary_line (events js))
            else Exit (- EINVAL) [] []
        | Crashed c => ToolCrashed c
        | OutOfFuel => ToolOutOfFuel
        end
      else Exit (- EINVAL) [] []
  end.

(** The common arguments of [main]: the rank in force and the arguments
    left.  A rank that [strict_strtol] rejects is reported and the value
    it returned is used. *)
Definition parse_rank (rank0 : Z) (argv : list string) : Z * list string :=
  match ceph_argparse_witharg env argv with
  | Some (rank_str, argv') => (fst (strict_strtol env rank_str), argv')
  | None => (rank0, argv)
  end.

(** [JournalTool::main]; [rank0] is the rank the object holds when it is
    called. *)
Definition main (rank0 : Z) (argv : list string) : tool_result :=
  if (List.length argv <? 3)%nat then Exit (- EINVAL) [] []
  else
    let '(rank_, argv) := parse_rank rank0 argv in
    match argv with
    | [] => Exit (- EINVAL) [] []
    | mode :: rest =>
        if String.eqb mode "journal" then main_journal rank_ rest
        else if String.eqb mode "event" then main_event rank_ rest
        else Exit (- EINVAL) [] []
    end.

End Tool.

(* ================================================================== *)
(** ** Dumper *)

(** A local file by its contents; a hole reads as zero bytes. *)
Definition File := list byte.

(** [write] of [d] at file position [off]: bytes between the old end of
    file and [off] become a hole; an empty write leaves the file alone. *)
Definition file_write (f : File) (off : nat) (d : list byte) : File :=
  match d with
  | [] => f
  | _ =>
      firstn off (f ++ repeat x00 (off - List.length f))
      ++ d ++ skipn (off + List.length d) f
  end.

(** [read] of up to [n] bytes at file position [off]. *)
Definition file_read (f : File) (off n : nat) : list byte :=
  firstn n (skipn off f).

(** [lseek64(fd, off, SEEK_SET)] with its result ignored, as both callers
    do: an offset that is negative as [off64_t] fails and leaves the file
    position [cur] where it was.  A file system refuses offsets beyond
    its largest file too; that bound is not part of the model, so a
    statement may rest on a seek below 2^63 only where the offset lies
    inside an existing file, or where the statement holds for a failed
    seek as well. *)
Definition lseek64 (cur off : Z) : Z :=
  if off <? 2 ^ 63 then off else cur.

(** The objects of the journal inode, by object index. *)
Definition Pool := Z -> option (list byte).

Definition empty_pool : Pool := fun _ => None.

(** [objecter->write_full(oid, ...)] on object [i]. *)
Definition write_full (p : Pool) (i : Z) (bl : list byte) : Pool :=
  fun j => if j =? i then Some bl else p j.

(** Modelled from the spec: [Filer::write] and [Filer::read] are not part
    of the two files.  The spec places the journal's bytes
    [[i*S, (i+1)*S)] in object index [i] (section 3, ObjectIndex) and has
    undump write each chunk at its original stream offset (section 4.G). *)
Definition write_byte (S : Z) (p : Pool) (pos : Z) (b : byte) : Pool :=
  fun j =>
    if j =? pos / S then
      Some (file_write (match p j with Some c => c | None => [] end)
              (Z.to_nat (pos mod S)) [b])
    else p j.

Fixpoint filer_write (S : Z) (p : Pool) (pos : Z) (bl : list byte) : Pool :=
  match bl with
  | [] => p
  | b :: bl' => filer_write S (write_byte S p pos b) (pos + 1) bl'
  end.

Definition read_byte (S : Z) (p : Pool) (pos : Z) : byte :=
  match p (pos / S) with
  | Some c => nth (Z.to_nat (pos mod S)) c x00
  | None => x00
  end.

Definition filer_read (S : Z) (p : Pool) (pos : Z) (n : nat) : list byte :=
  map (fun k => read_byte S p (pos + Z.of_nat k)) (seq 0 n).

(** The journal as [Dumper::dump] sees it through [Journaler] and
    [Filer]: the result of recovery, the two positions, and the bytes
    [filer.read] hands back for a range. *)
Record Journal := {
  recover_result : Z;
  get_read_pos : Z;
  get_write_pos : Z;
  journal_read : Z -> Z -> list byte
}.

(** The file named on the command line, as [undump] finds it. *)
Inductive dump_file :=
| OpenFails
| ReadFails
| Opened (f : File).

(** Indeterminate contents of [undump]'s uninitialised locals. *)
Record Stack := {
  buf_uninit : list byte;         (* char buf[200] *)
  start_uninit : Z;               (* long long unsigned start *)
  len_uninit : Z                  (* long long unsigned len *)
}.

Inductive undump_result :=
| Undumped (p : Pool)             (* ran to the end *)
| GaveUp (p : Pool)               (* returned early *)
| Undefined                       (* NULL or an unterminated array given
                                     to a string function *)
| LoopOutOfFuel.

Definition str (s : string) : list byte := list_byte_of_string s.

Section Dumper.

Context {LogEvent : Type}.
Variable fmt : Format LogEvent.
Variable metadata_pool : Z.       (* mdsmap->get_metadata_pool() *)

(** The text [sprintf] writes into [buf], terminating NUL excluded. *)
Definition preamble_text (rank start len : Z) : list byte :=
  str "Ceph mds" ++ fmt_d rank
  ++ str " journal dump" ++ [x0a]
  ++ str " start offset " ++ fmt_llu start
  ++ str " (0x" ++ fmt_llx 1 start ++ str ")" ++ [x0a]
  ++ str "       length " ++ fmt_llu len
  ++ str " (0x" ++ fmt_llx 1 len ++ str ")" ++ [x0a]
  ++ [x04].

(** [buf] after [memset] and [sprintf]: 200 bytes. *)
Definition preamble (rank start len : Z) : list byte :=
  firstn 200 (preamble_text rank start len ++ repeat x00 200).

(** [Dumper::dump]: the file written, [None] where none is (recovery
    failed, or [open] did).  [open_ok] is whether [::open] succeeds. *)
Definition dump (rank : Z) (j : Journal) (open_ok : bool) : option File :=
  if negb (recover_result j =? 0) then None
  else
    let start := get_read_pos j in
    let end_ := get_write_pos j in
    let len := wrap64 (end_ - start) in
    let bl := journal_read j start len in
    if open_ok then
      let f := preamble rank start (blen bl) in
      let pos := lseek64 200 start in
      Some (file_write f (Z.to_nat pos) bl)
    else None.

(** The header [undump] builds. *)
Definition undump_header (start len : Z) : Header :=
  {| magic := CEPH_FS_ONDISK_MAGIC fmt;
     trimmed_pos := start;
     expire_pos := start;
     write_pos := wrap64 (start + len);
     layout := {| fl_object_size := fl_object_size (g_default_file_layout fmt);
                  fl_pg_pool := metadata_pool |} |}.

(** The [while (left > 0)] loop of [undump]; [fpos] is the position of
    [fd].  Each iteration takes at least one byte off [left].  The
    length [l] that the source hands to [filer.write] beside [j] is not
    represented: what [Filer] does with fewer than [l] bytes is outside
    the two files, so a statement about the bytes written may rest on
    chunks that are read whole only. *)
Fixpoint undump_chunks (fuel : nat) (f : File) (S : Z) (p : Pool)
  (fpos pos left : Z) : option Pool :=
  if 0 <? left then
    match fuel with
    | O => None
    | S fuel' =>
        let fpos := lseek64 fpos pos in
        let l := Z.min left (1024 * 1024) in
        let j := file_read f (Z.to_nat fpos) (Z.to_nat l) in
        undump_chunks fuel' f S (filer_write S p pos j)
          (fpos + blen j) (wrap64 (pos + l)) (left - l)
    end
  else Some p.

(** [sscanf(p, "<name> %llu", &v)] with [p] the result of [strstr] for
    [name]: [None] is the NULL argument; otherwise the literal matches,
    and [v] keeps its old value on a matching failure. *)
Definition scan_field (p : option (list byte)) (name : list byte) (old : Z)
  : option Z :=
  match p with
  | None => None
  | Some s =>
      match scan_llu (skipn (List.length name) s) with
      | Some v => Some v
      | None => Some old
      end
  end.

(** [Dumper::undump] *)
Definition undump (df : dump_file) (stk : Stack) (p : Pool) : undump_result :=
  match df with
  | OpenFails => GaveUp p
  | ReadFails => GaveUp p
  | Opened f =>
      let got := firstn 200 f in
      let buf := got ++ skipn (List.length got) (firstn 200 (buf_uninit stk)) in
      match c_str buf with
      | None => Undefined
      | Some s =>
          match scan_field (strstr s (str "start offset")) (str "start offset")
                  (start_uninit stk) with
          | None => Undefined
          | Some start =>
              match scan_field (strstr s (str "length")) (str "length")
                      (len_uninit stk) with
              | None => Undefined
              | Some len =>
                  let h := undump_header start len in
                  let p := write_full p 0 (Header_encode fmt h) in
                  match undump_chunks
                          (S (Z.to_nat (len / (1024 * 1024)))) f
                          (fl_object_size (layout h)) p
                          (blen got) start len with
                  | Some p => Undumped p
                  | None => LoopOutOfFuel
                  end
              end
          end
      end
  end.

End Dumper.

(* ================================================================== *)
(** ** Notions used in the statements *)

(** The range of a [uint64_t]. *)
Definition uint64 (x : Z) : Prop := 0 <= x < two64.

(** The header's offsets are [uint64_t]s. *)
Definition header_wf (h : Header) : Prop :=
  uint64 (trimmed_pos h) /\ uint64 (expire_pos h) /\ uint64 (write_pos h).

(** The keys of the event map, in iteration order. *)
Definition keys {E : Type} (m : EventMap E) : list Z := map fst m.

(** The value of a hexadecimal digit character. *)
Definition digit_of_char (c : byte) : Z :=
  if byte_val c <? 58 then byte_val c - 48 else byte_val c - 87.

(** The number a digit string denotes, by Horner's rule from [acc]. *)
Fixpoint digits_value (base : Z) (val : byte -> Z) (acc : Z) (ds : list byte)
  : Z :=
  match ds with
  | [] => acc
  | d :: rest => digits_value base val (base * acc + val d) rest
  end.

(** A character [%llx] can print. *)
Definition is_hex_char (c : byte) : bool :=
  existsb (Byte.eqb c)
    [x30; x31; x32; x33; x34; x35; x36; x37;
     x38; x39; x61; x62; x63; x64; x65; x66].

(** A character [%d] can print. *)
Definition is_int_char (c : byte) : bool :=
  (Byte.eqb c x2d || isdigit c)%bool.

(** The fields [parse_entries] leaves alone. *)
Definition same_objects {E : Type} (a b : JournalScanner E) : Prop :=
  header b = header a /\ header_present b = header_present a
  /\ header_valid b = header_valid a
  /\ objects_valid b = objects_valid a
  /\ objects_missing b = objects_missing a
  /\ ranges_invalid b = ranges_invalid a.

(** The header and its two flags agree. *)
Definition same_header {E : Type} (a b : JournalScanner E) : Prop :=
  header b = header a /\ header_present b = header_present a
  /\ header_valid b = header_valid a.

(** The header cannot be used: the object is unreadable, or its bytes do
    not decode, or the magic is wrong, or the three offsets are out of
    order. *)
Definition header_failure {E : Type} (fmt : Format E) (cfg : Config)
  (io : IoCtx) : Prop :=
  rc (io (header_name fmt cfg)) < 0
  \/ match Header_decode fmt (data (io (header_name fmt cfg))) with
     | BufferError _ => True
     | Decoded h =>
         magic h <> CEPH_FS_ONDISK_MAGIC fmt
         \/ ~ (trimmed_pos h <= expire_pos h <= write_pos h)
     end.

(** The bytes the object loop appends to [read_buf], counted the way the
    loop runs. *)
Fixpoint bytes_read {E : Type} (fmt : Format E) (cfg : Config) (io : IoCtx)
  (fuel : nat) (i last : Z) : Z :=
  if i <=? last then
    match fuel with
    | O => 0
    | S fuel' =>
        blen (data (io (obj_name fmt cfg i)))
        + bytes_read fmt cfg io fuel' (wrap64 (i + 1)) last
    end
  else 0.

(** The cursor invariant: the cursor has moved from [e] by no more than
    the bytes taken off the buffer, whose end lies at or below [L]; the
    keys of the map are [events_valid], in ascending order, each at or
    above [e] and below the cursor. *)
Definition cursor_inv {E : Type} (e L : Z) (js : JournalScanner E)
  (lc : Locals) : Prop :=
  e <= read_offset lc
  /\ read_offset lc + blen (read_buf lc) <= L
  /\ keys (events js) = events_valid js
  /\ StronglySorted Z.lt (events_valid js)
  /\ Forall (fun k => e <= k < read_offset lc) (events_valid js).

(** A complete entry at the head of a buffer: a good sentinel, exactly
    the bytes its size field announces, and a payload that decodes to
    [le]. *)
Definition good_entry {E : Type} (fmt : Format E) (e : list byte) (le : E)
  : Prop :=
  decode_u64 e = sentinel fmt
  /\ blen e = 8 + 4 + decode_u32 (skipn 8 e) + 8
  /\ LogEvent_decode fmt
       (firstn (Z.to_nat (decode_u32 (skipn 8 e))) (skipn 12 e)) = Some le.

(** The events of a run of entries that starts at offset [off], recorded
    one after the other. *)
Fixpoint record_entries {E : Type} (off : Z) (es : list (list byte * E))
  (js : JournalScanner E) : JournalScanner E :=
  match es with
  | [] => js
  | (e, le) :: es' =>
      record_entries (wrap64 (off + blen e)) es' (record_event off le js)
  end.

(** The offset at which a run of entries that starts at [off] ends. *)
Fixpoint end_offset (off : Z) (es : list (list byte)) : Z :=
  match es with
  | [] => off
  | e :: es' => end_offset (wrap64 (off + blen e)) es'
  end.

(** The offsets at which the entries of a run that starts at [off]
    begin. *)
Fixpoint entry_offsets (off : Z) (es : list (list byte)) : list Z :=
  match es with
  | [] => []
  | e :: es' => off :: entry_offsets (wrap64 (off + blen e)) es'
  end.

(** [lc] with [bl] appended to its buffer, as the object loop does with
    the bytes of the next object. *)
Definition append_buf (lc : Locals) (bl : list byte) : Locals :=
  {| read_offset := read_offset lc; read_buf := read_buf lc ++ bl;
     gap := gap lc; gap_start := gap_start lc |}.

(** What the parsing loop makes of a buffer [d] met at offset [off]
    outside the gap state, by what stands at the head of [d]: too few
    bytes or an entry not yet complete, nothing; a wrong sentinel, a gap
    from [off] with the bytes left in the buffer; a complete entry whose
    payload decodes, an event at [off] before any other; one whose
    payload does not, the gap state. *)
Definition first_entry_effect {E : Type} (fmt : Format E) (off : Z)
  (d : list byte) (js js' : JournalScanner E) (lc' : Locals) : Prop :=
  (blen d < 8 + 4
   \/ (decode_u64 d = sentinel fmt
       /\ blen d < 8 + 4 + decode_u32 (skipn 8 d) + 8) ->
   js' = js
   /\ lc' = {| read_offset := off; read_buf := d;
               gap := false; gap_start := UINT64_MAX |})
  /\ (8 + 4 <= blen d -> decode_u64 d <> sentinel fmt ->
      js' = js
      /\ lc' = {| read_offset := off; read_buf := d;
                  gap := true; gap_start := off |})
  /\ (forall le,
        decode_u64 d = sentinel fmt ->
        8 + 4 + decode_u32 (skipn 8 d) + 8 <= blen d ->
        LogEvent_decode fmt
          (firstn (Z.to_nat (decode_u32 (skipn 8 d))) (skipn 12 d)) = Some le ->
        exists more, events_valid js' = events_valid js ++ off :: more)
  /\ (decode_u64 d = sentinel fmt ->
      8 + 4 + decode_u32 (skipn 8 d) + 8 <= blen d ->
      LogEvent_decode fmt
        (firstn (Z.to_nat (decode_u32 (skipn 8 d))) (skipn 12 d)) = None ->
      gap lc' = true).

(* ================================================================== *)
(** ** Example instances

    A concrete format and a few small pools and files, used to run the
    definitions above.  The header codec here is a stand-in for
    [Journaler::Header]'s: Ceph's primitive encodings (a [u32]
    length-prefixed string, little-endian [u64]s) of the fields of
    [Header], in the order the record lists them. *)

Definition byte_of (v : Z) : byte :=
  match Byte.of_N (Z.to_N (v mod 256)) with
  | Some b => b
  | None => x00
  end.

(** [v] in [n] little-endian bytes. *)
Fixpoint le_bytes (n : nat) (v : Z) : list byte :=
  match n with
  | O => []
  | S n' => byte_of v :: le_bytes n' (v / 256)
  end.

Definition ex_layout : file_layout :=
  {| fl_object_size := 64; fl_pg_pool := 1 |}.

(** A default-constructed [Journaler::Header]. *)
Definition ex_blank_header : Header :=
  {| magic := EmptyString; trimmed_pos := 0; expire_pos := 0;
     write_pos := 0; layout := ex_layout |}.

Definition ex_Header_encode (h : Header) : list byte :=
  le_bytes 4 (blen (str (magic h))) ++ str (magic h)
  ++ le_bytes 8 (trimmed_pos h) ++ le_bytes 8 (expire_pos h)
  ++ le_bytes 8 (write_pos h)
  ++ le_bytes 8 (fl_object_size (layout h))
  ++ le_bytes 8 (fl_pg_pool (layout h)).

Definition ex_Header_decode (bl : list byte) : decode_result :=
  if blen bl <? 4 then BufferError ex_blank_header
  else
    let n := decode_u32 bl in
    let body := skipn (4 + Z.to_nat n) bl in
    if blen bl <? 4 + n + 40 then BufferError ex_blank_header
    else
      Decoded
        {| magic := string_of_list_byte (firstn (Z.to_nat n) (skipn 4 bl));
           trimmed_pos := decode_u64 body;
           expire_pos := decode_u64 (skipn 8 body);
           write_pos := decode_u64 (skipn 16 body);
           layout := {| fl_object_size := decode_u64 (skipn 24 body);
                        fl_pg_pool := decode_u64 (skipn 32 body) |} |}.

(** Example events are their payload; a payload decodes when its first
    byte is 1. *)
Definition ex_LogEvent_decode (bl : list byte) : option (list byte) :=
  match bl with
  | x01 :: _ => Some bl
  | _ => None
  end.

Definition ex_fmt : Format (list byte) :=
  {| MDS_INO_LOG_OFFSET := 512;
     CEPH_FS_ONDISK_MAGIC := "ceph fs volume v011";
     sentinel := 3549216002486605715;      (* 0x3141592653589793 *)
     g_default_file_layout := ex_layout;
     Header_decode := ex_Header_decode;
     Header_encode := ex_Header_encode;
     LogEvent_decode := ex_LogEvent_decode |}.

(** Rank 0, object size taken from the default layout (64 bytes). *)
Definition ex_cfg : Config :=
  {| rank := 0; pool_id := 1; mds_log_segment_size := 0 |}.

(** An entry as the journal holds it: sentinel, size, payload, and the
    trailing [start_ptr]. *)
Definition ex_entry (payload : list byte) (start_ptr : Z) : list byte :=
  le_bytes 8 (sentinel ex_fmt) ++ le_bytes 4 (blen payload)
  ++ payload ++ le_bytes 8 start_ptr.

Definition ex_header (m : string) (t e w : Z) : Header :=
  {| magic := m; trimmed_pos := t; expire_pos := e; write_pos := w;
     layout := ex_layout |}.

(** A pool given by its objects; any other name gets [err] (a negative
    errno) and no bytes. *)
Fixpoint ex_io (objs : list (string * list byte)) (err : Z) : IoCtx :=
  fun name =>
    match objs with
    | [] => {| rc := err; data := [] |}
    | (n, d) :: objs' =>
        if String.eqb n name then {| rc := blen d; data := d |}
        else ex_io objs' err name
    end.

Definition ex_cluster (objs : list (string * list byte)) (err : Z) : Cluster :=
  {| rados_init := 0; pool_reverse_lookup := 0; ioctx_create := 0;
     io := ex_io objs err |}.

Definition ENOENT : Z := 2.
Definition EIO : Z := 5.

Definition ex_good_header_bytes (e w : Z) : list byte :=
  ex_Header_encode (ex_header "ceph fs volume v011" e e w).

(** A valid header whose [expire_pos] is 0: the header object is the
    only object of the range, and it is parsed as entries. *)
Definition ex_cluster_c10 : Cluster :=
  ex_cluster [(obj_name ex_fmt ex_cfg 0, ex_good_header_bytes 0 10)] (- ENOENT).

(** Object 0 holds a header with a wrong magic, range 64..84; object 1
    holds one good entry. *)
Definition ex_cluster_bad_magic : Cluster :=
  ex_cluster
    [(obj_name ex_fmt ex_cfg 0,
      ex_Header_encode (ex_header "bogus" 64 64 84));
     (obj_name ex_fmt ex_cfg 1, ex_entry [x01; x02] 64)]
    (- ENOENT).

(** The header is good and names the range 64..100, that is object 1;
    every read but the header's fails with [-EIO]. *)
Definition ex_cluster_eio : Cluster :=
  ex_cluster [(obj_name ex_fmt ex_cfg 0, ex_good_header_bytes 64 100)] (- EIO).

(** The header is good and names the range 64..191, objects 1 and 2;
    object 1 is absent and object 2 holds one good entry written at
    offset 128. *)
Definition ex_cluster_hole : Cluster :=
  ex_cluster
    [(obj_name ex_fmt ex_cfg 0, ex_good_header_bytes 64 191);
     (obj_name ex_fmt ex_cfg 2, ex_entry [x01; x02] 128)]
    (- ENOENT).

(** The header is good and names the range 64..86; object 1 holds one
    entry at offset 64 whose trailing [start_ptr] is 12345. *)
Definition ex_cluster_bad_ptr : Cluster :=
  ex_cluster
    [(obj_name ex_fmt ex_cfg 0, ex_good_header_bytes 64 86);
     (obj_name ex_fmt ex_cfg 1, ex_entry [x01; x02] 12345)]
    (- ENOENT).

(** The header is good and names the range 64..200, objects 1 to 3;
    object 1 holds one entry, objects 2 and 3 are absent. *)
Definition ex_cluster_tail_missing : Cluster :=
  ex_cluster
    [(obj_name ex_fmt ex_cfg 0, ex_good_header_bytes 64 200);
     (obj_name ex_fmt ex_cfg 1, ex_entry [x01; x02] 64)]
    (- ENOENT).

Definition ex_report_tail_missing : JournalScanner (list byte) :=
  {| header := Some (ex_header "ceph fs volume v011" 64 64 200);
     header_present := true; header_valid := true;
     objects_valid := [obj_name ex_fmt ex_cfg 1];
     objects_missing := [2; 3];
     ranges_invalid := [(86, UINT64_MAX)];
     events_valid := [64];
     events := [(64, [x01; x02])] |}.

(** The header is good and names the range 64..86, one entry long;
    object 1 holds that entry at offset 64 and a second one at 86: the
    journal has been written past the [write_pos] the header records. *)
Definition ex_cluster_lagging_header : Cluster :=
  ex_cluster
    [(obj_name ex_fmt ex_cfg 0, ex_good_header_bytes 64 86);
     (obj_name ex_fmt ex_cfg 1,
      ex_entry [x01; x02] 64 ++ ex_entry [x01; x03] 86)]
    (- ENOENT).

Definition ex_report_lagging_header : JournalScanner (list byte) :=
  {| header := Some (ex_header "ceph fs volume v011" 64 64 86);
     header_present := true; header_valid := true;
     objects_valid := [obj_name ex_fmt ex_cfg 1];
     objects_missing := [];
     ranges_invalid := [];
     events_valid := [64; 86];
     events := [(64, [x01; x02]); (86, [x01; x03])] |}.

Definition ex_stack : Stack :=
  {| buf_uninit := repeat x55 200; start_uninit := 4096; len_uninit := 7 |}.

(** A recovered journal with read position [s], write position [e] and
    the given bytes in between. *)
Definition ex_journal (s e : Z) (bytes : list byte) : Journal :=
  {| recover_result := 0; get_read_pos := s; get_write_pos := e;
     journal_read := fun _ _ => bytes |}.

(** A preamble whose [start offset] line carries no number. *)
Definition ex_file_no_value : File :=
  firstn 200
    (str "Ceph mds0 journal dump" ++ [x0a]
     ++ str " start offset" ++ [x0a]
     ++ str "       length 4 (0x4)" ++ [x0a; x04] ++ repeat x00 200).

(** A preamble without a [start offset] line. *)
Definition ex_file_no_field : File :=
  firstn 200
    (str "Ceph mds0 journal dump" ++ [x0a]
     ++ str "       length 4 (0x4)" ++ [x0a; x04] ++ repeat x00 200).

(** Two good entries, written at offsets 64 and 86. *)
Definition ex_two_entries : list (list byte * list byte) :=
  [(ex_entry [x01; x02] 64, [x01; x02]);
   (ex_entry [x01; x03] 86, [x01; x03])].

(** A well-framed entry whose payload the example decoder rejects. *)
Definition ex_bad_payload_entry : list byte := ex_entry [x02; x02] 64.

(** One-byte objects, so that object indices are stream offsets. *)
Definition ex_cfg_bytewise : Config :=
  {| rank := 0; pool_id := 1; mds_log_segment_size := 1 |}.

(** A scanner that has read a valid header with the given [expire_pos]
    and [write_pos], and nothing else yet. *)
Definition ex_scanner_with (e w : Z) : JournalScanner (list byte) :=
  {| header := Some (ex_header "ceph fs volume v011" e e w);
     header_present := true; header_valid := true;
     objects_valid := []; objects_missing := []; ranges_invalid := [];
     events_valid := []; events := [] |}.

(** A journal whose range starts beyond the largest [off64_t]. *)
Definition ex_journal_far : Journal :=
  ex_journal (2 ^ 63) (2 ^ 63 + 2) [x01; x02].

(** A file that starts with a preamble for four bytes at 256 and holds
    them, and one byte more. *)
Definition ex_file_with_preamble : File :=
  preamble 0 256 4 ++ repeat x00 56 ++ [x01; x02; x03; x04; x05].

(** An object store that holds, as its header object, the header
    [undump] writes for [start] and [len]. *)
Definition ex_io_undumped (start len : Z) : IoCtx :=
  ex_io [(header_name ex_fmt ex_cfg,
          Header_encode ex_fmt (undump_header ex_fmt 1 start len))]
        (- ENOENT).

(** An environment for the examples: [--rank <n>] in two words, every
    event of type [UPDATE] with path [/]. *)
Definition ex_env : ToolEnv (list byte) :=
  {| ceph_argparse_witharg := fun argv =>
       match argv with
       | opt :: v :: rest =>
           if String.eqb opt "--rank" then Some (v, rest) else None
       | _ => None
       end;
     strict_strtol := fun s =>
       if String.eqb s "0" then (0, EmptyString) else (0, "bad"%string);
     get_metadata_pool := 1;
     conf_mds_log_segment_size := 0;
     LogEvent_encode := fun le => le;
     get_type_str := fun _ => "UPDATE"%string;
     get_type := fun _ => 20;
     EVENT_UPDATE := 20;
     get_path := fun _ => "/"%string |}.

(* ================================================================== *)
(** * Properties *)

(** ** Integers and byte strings *)

Lemma two64_pos : 0 < two64.
Proof. reflexivity. Qed.

Lemma wrap64_range : forall x, 0 <= wrap64 x < two64.
Proof. intros x. unfold wrap64. apply Z.mod_pos_bound. exact two64_pos. Qed.

Lemma wrap64_small : forall x, 0 <= x < two64 -> wrap64 x = x.
Proof. intros x H. unfold wrap64. apply Z.mod_small. exact H. Qed.

Lemma byte_val_range : forall b, 0 <= byte_val b < 256.
Proof.
  intros b. unfold byte_val.
  pose proof (Byte.to_N_bounded b) as H. lia.
Qed.

Lemma le_value_nonneg : forall bs, 0 <= le_value bs.
Proof.
  induction bs as [|b bs IH]; cbn [le_value]; [lia|].
  pose proof (byte_val_range b). lia.
Qed.

Lemma decode_u32_nonneg : forall bl, 0 <= decode_u32 bl.
Proof. intros. apply le_value_nonneg. Qed.

Lemma blen_app : forall a b, blen (a ++ b) = blen a + blen b.
Proof. intros. unfold blen. rewrite length_app. lia. Qed.

Lemma blen_nonneg : forall a, 0 <= blen a.
Proof. intros. unfold blen. lia. Qed.

(** Case analysis on the first conditional of a hypothesis or of the
    goal, outermost first. *)
Ltac split_if_in H :=
  match type of H with
  | context [if ?c then _ else _] => destruct c eqn:?
  end.

Ltac split_if :=
  match goal with
  | |- context [if ?c then _ else _] => destruct c eqn:?
  end.

(* ------------------------------------------------------------------ *)
(** ** The parsing loop *)

Section ScannerFacts.

Context {LogEvent : Type}.
Variable fmt : Format LogEvent.
Variable cfg : Config.

Let JS := JournalScanner LogEvent.

Lemma same_objects_refl : forall a : JS, same_objects a a.
Proof. intros a. unfold same_objects. repeat split. Qed.

Lemma same_objects_trans :
  forall a b c : JS,
    same_objects a b -> same_objects b c -> same_objects a c.
Proof.
  unfold same_objects. intros a b c H1 H2.
  destruct H1 as (?&?&?&?&?&?), H2 as (?&?&?&?&?&?).
  repeat split; congruence.
Qed.

(** One turn of the loop, as an equation. *)
Lemma parse_entries_S :
  forall fuel js lc,
    parse_entries fmt (S fuel) js lc =
    if 8 + 4 <=? blen (read_buf lc) then
      if negb (decode_u64 (read_buf lc) =? sentinel fmt) then
        Some (js, {| read_offset := read_offset lc; read_buf := read_buf lc;
                     gap := true; gap_start := read_offset lc |})
      else if 8 + 4 + decode_u32 (skipn 8 (read_buf lc)) + 8
              <=? blen (read_buf lc) then
        match LogEvent_decode fmt
                (firstn (Z.to_nat (decode_u32 (skipn 8 (read_buf lc))))
                   (skipn 12 (read_buf lc))) with
        | Some le =>
            parse_entries fmt fuel (record_event (read_offset lc) le js)
              {| read_offset :=
                   wrap64 (read_offset lc
                           + (8 + 4 + decode_u32 (skipn 8 (read_buf lc)) + 8));
                 read_buf :=
                   skipn (Z.to_nat (8 + 4 + decode_u32 (skipn 8 (read_buf lc)) + 8))
                     (read_buf lc);
                 gap := gap lc; gap_start := gap_start lc |}
        | None =>
            parse_entries fmt fuel js
              {| read_offset := wrap64 (read_offset lc + 1);
                 read_buf :=
                   skipn (Z.to_nat (8 + 4 + decode_u32 (skipn 8 (read_buf lc)) + 8))
                     (read_buf lc);
                 gap := true; gap_start := wrap64 (read_offset lc + 1) |}
        end
      else Some (js, lc)
    else Some (js, lc).
Proof. reflexivity. Qed.

Lemma parse_entries_same_objects :
  forall fuel js lc js' lc',
    parse_entries fmt fuel js lc = Some (js', lc') -> same_objects js js'.
Proof.
  induction fuel as [|fuel IH]; intros js lc js' lc' H.
  - discriminate.
  - rewrite parse_entries_S in H.
    repeat split_if_in H;
      try (inversion H; subst; apply same_objects_refl).
    destruct (LogEvent_decode fmt _) as [le|].
    + apply IH in H. eapply same_objects_trans; [|exact H].
      unfold same_objects. simpl. repeat split.
    + apply IH in H. exact H.
Qed.

(** The loop ends: fuel above the buffer length is enough. *)
Lemma parse_entries_total :
  forall fuel js lc,
    (List.length (read_buf lc) < fuel)%nat ->
    exists js' lc', parse_entries fmt fuel js lc = Some (js', lc').
Proof.
  induction fuel as [|fuel IH]; intros js lc Hlen; [lia|].
  rewrite parse_entries_S.
  repeat split_if; eauto.
  match goal with H : (_ + _ + decode_u32 _ + _ <=? _) = true |- _ =>
    apply Z.leb_le in H; rename H into Hfit end.
  pose proof (decode_u32_nonneg (skipn 8 (read_buf lc))) as Hsz.
  assert (Hrest :
    (List.length (skipn (Z.to_nat (8 + 4 + decode_u32 (skipn 8 (read_buf lc)) + 8))
                   (read_buf lc)) < fuel)%nat).
  { rewrite length_skipn. unfold blen in Hfit. lia. }
  destruct (LogEvent_decode fmt _) as [le|]; apply IH; simpl; exact Hrest.
Qed.

(* ------------------------------------------------------------------ *)
(** ** [scan_object], [scan_objects] and [scan_events] *)

(** A failed read, whatever its errno: the index goes to
    [objects_missing], the cursor and the buffer stay, and the loop goes
    on in the gap state. *)
Lemma scan_object_read_failed :
  forall io i js lc,
    rc (io (obj_name fmt cfg i)) < 0 ->
    scan_object fmt cfg io i js lc =
    Next (push_missing i js)
      {| read_offset := read_offset lc;
         read_buf := read_buf lc ++ data (io (obj_name fmt cfg i));
         gap := true; gap_start := read_offset lc |}.
Proof.
  intros io i js lc H. unfold scan_object.
  apply Z.ltb_lt in H. rewrite H. reflexivity.
Qed.

(** An object read in the gap state hits [assert(0)]. *)
Lemma scan_object_in_gap :
  forall io i js lc,
    0 <= rc (io (obj_name fmt cfg i)) -> gap lc = true ->
    scan_object fmt cfg io i js lc = Stop (Crashed AssertZero).
Proof.
  intros io i js lc H Hg. unfold scan_object.
  apply Z.ltb_ge in H. rewrite H, Hg. reflexivity.
Qed.

(** An object read outside a gap is parsed, and parsing ends. *)
Lemma scan_object_parsed :
  forall io i js lc,
    0 <= rc (io (obj_name fmt cfg i)) -> gap lc = false ->
    exists js' lc',
      parse_entries fmt
        (S (List.length (read_buf lc ++ data (io (obj_name fmt cfg i)))))
        (push_valid (obj_name fmt cfg i) js)
        {| read_offset := read_offset lc;
           read_buf := read_buf lc ++ data (io (obj_name fmt cfg i));
           gap := false; gap_start := gap_start lc |} = Some (js', lc')
      /\ scan_object fmt cfg io i js lc = Next js' lc'.
Proof.
  intros io i js lc H Hg. unfold scan_object.
  apply Z.ltb_ge in H. rewrite H, Hg.
  destruct (parse_entries_total
              (S (List.length (read_buf lc ++ data (io (obj_name fmt cfg i)))))
              (push_valid (obj_name fmt cfg i) js)
              {| read_offset := read_offset lc;
                 read_buf := read_buf lc ++ data (io (obj_name fmt cfg i));
                 gap := false; gap_start := gap_start lc |}) as (js' & lc' & Hp).
  { simpl. lia. }
  exists js', lc'. rewrite Hp. split; reflexivity.
Qed.

(** Whatever [scan_objects] returns, it returns 0. *)
Lemma scan_objects_returns_0 :
  forall fuel io i last js lc r js',
    scan_objects fmt cfg fuel io i last js lc = Returned r js' -> r = 0.
Proof.
  induction fuel as [|fuel IH]; intros io i last js lc r js' H; simpl in H.
  - destruct (i <=? last); [discriminate|].
    unfold finish_scan in H. congruence.
  - destruct (i <=? last).
    + destruct (scan_object fmt cfg io i js lc) as [js1 lc1|o] eqn:Hs.
      * eapply IH; exact H.
      * unfold scan_object in Hs.
        destruct (rc (io (obj_name fmt cfg i)) <? 0); [discriminate|].
        destruct (gap lc); [inversion Hs; subst; discriminate|].
        destruct (parse_entries fmt _ _ _) as [[? ?]|];
          inversion Hs; subst; discriminate.
    + unfold finish_scan in H. congruence.
Qed.

Lemma scan_events_returns_0 :
  forall fuel io js r js',
    scan_events fmt cfg fuel io js = Returned r js' -> r = 0.
Proof.
  intros fuel io js r js' H. unfold scan_events in H.
  destruct (header js) as [h|]; [|discriminate].
  destruct (object_size fmt cfg =? 0); [discriminate|].
  eapply scan_objects_returns_0; exact H.
Qed.

(** After a successful start-up and header read, [scan] is [scan_events]
    on the scanner [scan_header] leaves. *)
Lemma scan_is_scan_events :
  forall fuel cl js,
    0 <= rados_init cl -> 0 <= pool_reverse_lookup cl ->
    ioctx_create cl = 0 ->
    scan fmt cfg fuel cl js =
    scan_events fmt cfg fuel (io cl) (snd (scan_header fmt cfg (io cl) js)).
Proof.
  intros fuel cl js Hi Hp Hc. unfold scan.
  apply Z.ltb_ge in Hi. apply Z.ltb_ge in Hp. rewrite Hi, Hp, Hc.
  cbn [Z.eqb negb].
  assert (Hr : fst (scan_header fmt cfg (io cl) js) = 0).
  { unfold scan_header.
    destruct (rc (io cl (header_name fmt cfg)) <? 0); [reflexivity|].
    destruct (Header_decode fmt _) as [h|h]; [|reflexivity].
    destruct (negb (String.eqb (magic h) (CEPH_FS_ONDISK_MAGIC fmt)));
      [reflexivity|].
    destruct (negb _); reflexivity. }
  destruct (scan_header fmt cfg (io cl) js) as [r js1]. simpl in *. subst r.
  simpl.
  destruct (scan_events fmt cfg fuel (io cl) js1) as [r js2| |] eqn:He;
    try reflexivity.
  apply scan_events_returns_0 in He. subst r. reflexivity.
Qed.

End ScannerFacts.

(* ------------------------------------------------------------------ *)
(** ** The trailing [start_ptr] is not read *)

Section StartPtr.

Context {LogEvent : Type}.
Variable fmt : Format LogEvent.

Let JS := JournalScanner LogEvent.

(** [parse_entries] never looks at the eight bytes that follow the
    payload of a complete entry with a good sentinel: with any other
    eight bytes in their place it does the same. *)
Lemma parse_entries_ignores_start_ptr :
  forall fuel (js : JS) off g gs head p1 p2 rest,
    decode_u64 head = sentinel fmt ->
    blen head = 8 + 4 + decode_u32 (skipn 8 head) ->
    List.length p1 = 8%nat -> List.length p2 = 8%nat ->
    parse_entries fmt fuel js
      {| read_offset := off; read_buf := head ++ p1 ++ rest;
         gap := g; gap_start := gs |}
    = parse_entries fmt fuel js
        {| read_offset := off; read_buf := head ++ p2 ++ rest;
           gap := g; gap_start := gs |}.
Proof.
  intros fuel js off g gs head p1 p2 rest Hsent Hhead H1 H2.
  destruct fuel as [|fuel]; [reflexivity|].
  rewrite !parse_entries_S. cbn [read_buf read_offset gap gap_start].
  pose proof (decode_u32_nonneg (skipn 8 head)) as Hsz.
  assert (Hlen : (12 <= List.length head)%nat) by (unfold blen in Hhead; lia).
  assert (Hb : forall p, List.length p = 8%nat ->
            blen (head ++ p ++ rest) = blen head + 8 + blen rest).
  { intros p Hp. rewrite !blen_app. unfold blen. rewrite Hp. lia. }
  assert (Hs : forall p, decode_u64 (head ++ p ++ rest) = decode_u64 head).
  { intros p. unfold decode_u64. rewrite firstn_app.
    replace (8 - List.length head)%nat with 0%nat by lia.
    rewrite firstn_0, app_nil_r. reflexivity. }
  assert (Hz : forall p, decode_u32 (skipn 8 (head ++ p ++ rest))
                         = decode_u32 (skipn 8 head)).
  { intros p. unfold decode_u32. rewrite skipn_app.
    replace (8 - List.length head)%nat with 0%nat by lia.
    rewrite skipn_O, firstn_app, length_skipn.
    replace (4 - (List.length head - 8))%nat with 0%nat by lia.
    rewrite firstn_0, app_nil_r. reflexivity. }
  assert (Hp : forall p,
            firstn (Z.to_nat (decode_u32 (skipn 8 head)))
              (skipn 12 (head ++ p ++ rest))
            = skipn 12 head).
  { intros p. rewrite skipn_app.
    replace (12 - List.length head)%nat with 0%nat by lia.
    rewrite skipn_O, firstn_app, length_skipn.
    replace (Z.to_nat (decode_u32 (skipn 8 head)) - (List.length head - 12))%nat
      with 0%nat by (unfold blen in Hhead; lia).
    rewrite firstn_0, app_nil_r. apply firstn_all2.
    rewrite length_skipn. unfold blen in Hhead. lia. }
  assert (Hr : forall p, List.length p = 8%nat ->
            skipn (Z.to_nat (8 + 4 + decode_u32 (skipn 8 head) + 8))
              (head ++ p ++ rest) = rest).
  { intros p Hpl. rewrite app_assoc.
    replace (Z.to_nat (8 + 4 + decode_u32 (skipn 8 head) + 8))
      with (List.length (head ++ p))
      by (rewrite length_app, Hpl; unfold blen in Hhead; lia).
    rewrite skipn_app, skipn_all, Nat.sub_diag. reflexivity. }
  rewrite !Hs, !Hz, !Hp, (Hb p1 H1), (Hb p2 H2), (Hr p1 H1), (Hr p2 H2).
  rewrite Hsent, Z.eqb_refl. cbn [negb].
  pose proof (blen_nonneg rest) as Hrest.
  assert (C1 : (8 + 4 <=? blen head + 8 + blen rest) = true)
    by (apply Z.leb_le; lia).
  assert (C2 : (8 + 4 + decode_u32 (skipn 8 head) + 8
                <=? blen head + 8 + blen rest) = true)
    by (apply Z.leb_le; lia).
  rewrite C1, C2. reflexivity.
Qed.

End StartPtr.

(* ------------------------------------------------------------------ *)
(** ** Health *)

(** C9.  [is_healthy()] is true exactly when [header_present] and
    [header_valid] are both true, [ranges_invalid] is empty and
    [objects_missing] is empty, in every state of the scanner. *)
Theorem is_healthy_iff :
  forall (E : Type) (js : JournalScanner E),
    is_healthy js = true <->
    header_present js = true /\ header_valid js = true
    /\ ranges_invalid js = [] /\ objects_missing js = [].
Proof.
  intros E js. unfold is_healthy.
  rewrite !andb_true_iff.
  destruct (ranges_invalid js) as [|r rs], (objects_missing js) as [|m ms];
    intuition congruence.
Qed.

(* ------------------------------------------------------------------ *)
(** ** The header object is the first journal object *)

Section FirstEntry.

Context {LogEvent : Type}.
Variable fmt : Format LogEvent.

Let JS := JournalScanner LogEvent.

(** The loop never leaves the gap state. *)
Lemma parse_entries_keeps_gap :
  forall fuel (js : JS) lc js' lc',
    parse_entries fmt fuel js lc = Some (js', lc') ->
    gap lc = true -> gap lc' = true.
Proof.
  induction fuel as [|fuel IH]; intros js lc js' lc' H Hg; [discriminate|].
  rewrite parse_entries_S in H.
  repeat split_if_in H; try (inversion H; subst; auto; fail).
  destruct (LogEvent_decode fmt _) as [le|]; eapply IH; try exact H; auto.
Qed.

(** The parsing loop only appends to [events_valid]. *)
Lemma parse_entries_events_valid_prefix :
  forall fuel (js : JS) lc js' lc',
    parse_entries fmt fuel js lc = Some (js', lc') ->
    exists more, events_valid js' = events_valid js ++ more.
Proof.
  induction fuel as [|fuel IH]; intros js lc js' lc' H; [discriminate|].
  rewrite parse_entries_S in H.
  repeat split_if_in H;
    try (inversion H; subst; exists []; rewrite app_nil_r; reflexivity).
  destruct (LogEvent_decode fmt _) as [le|].
  - apply IH in H. destruct H as (more & H).
    cbn [record_event events_valid] in H. rewrite <- app_assoc in H.
    eexists. exact H.
  - apply IH in H. exact H.
Qed.

(** The first turn of the loop on a buffer met outside the gap state. *)
Lemma parse_entries_first_entry :
  forall fuel (js : JS) off d js' lc',
    parse_entries fmt (S fuel) js
      {| read_offset := off; read_buf := d;
         gap := false; gap_start := UINT64_MAX |} = Some (js', lc') ->
    first_entry_effect fmt off d js js' lc'.
Proof.
  intros fuel js off d js' lc' H.
  rewrite parse_entries_S in H. cbn [read_buf read_offset gap gap_start] in H.
  unfold first_entry_effect.
  destruct (8 + 4 <=? blen d) eqn:C1.
  2:{ apply Z.leb_gt in C1. inversion H; subst.
      split; [auto|]. split; [intros; lia|].
      split; [intros le _ Hfit _; pose proof (decode_u32_nonneg (skipn 8 d)); lia|].
      intros _ Hfit _. pose proof (decode_u32_nonneg (skipn 8 d)). lia. }
  apply Z.leb_le in C1.
  destruct (decode_u64 d =? sentinel fmt) eqn:C2; cbn [negb] in H.
  2:{ apply Z.eqb_neq in C2. inversion H; subst.
      split; [intros [Hs|[Hs _]]; [lia|congruence]|].
      split; [auto|].
      split; [intros le Hs; congruence|]. intros Hs; congruence. }
  apply Z.eqb_eq in C2.
  destruct (8 + 4 + decode_u32 (skipn 8 d) + 8 <=? blen d) eqn:C3.
  2:{ apply Z.leb_gt in C3. inversion H; subst.
      split; [auto|]. split; [intros _ Hne; congruence|].
      split; [intros le _ Hfit; lia|]. intros _ Hfit; lia. }
  apply Z.leb_le in C3.
  split; [intros [Hs|[_ Hs]]; lia|].
  split; [intros _ Hne; congruence|].
  destruct (LogEvent_decode fmt _) as [le0|] eqn:Hd.
  - split.
    + intros le _ _ Hle.
      apply parse_entries_events_valid_prefix in H.
      destruct H as (more & H). cbn [record_event events_valid] in H.
      rewrite <- app_assoc in H. exists more. exact H.
    + intros _ _ Hn. discriminate.
  - split; [intros le _ _ Hle; discriminate|].
    intros _ _ _.
    exact (parse_entries_keeps_gap _ _ _ _ _ H eq_refl).
Qed.

End FirstEntry.

(** C10.  The header is read under the name [obj_name(0)], the name
    [scan_events] reads for object index 0.  So when the range starts in
    object 0 ([expire_pos < object_size]) and the header object was read,
    the first pass of the loop reads the header object again, appends its
    bytes to the empty [read_buf] and runs the entry parser over them
    from offset [expire_pos]; the scan then goes on from object 1.  What
    the parser makes of the header's bytes shows in the state it hands
    on ([first_entry_effect]): with twelve bytes or more that do not
    begin with the sentinel the gap is opened at [expire_pos] and the
    bytes stay in the buffer, ahead of those of object 1; where they
    begin with a complete entry whose payload decodes, an event is
    recorded at [expire_pos]. *)
Theorem header_object_parsed_as_events :
  forall (E : Type) (fmt : Format E) (cfg : Config) (fuel : nat)
         (cl : Cluster) (js : JournalScanner E) (h : Header),
    0 <= rados_init cl -> 0 <= pool_reverse_lookup cl ->
    ioctx_create cl = 0 ->
    0 <= rc (io cl (header_name fmt cfg)) ->
    header (snd (scan_header fmt cfg (io cl) js)) = Some h ->
    0 <= expire_pos h < object_size fmt cfg ->
    0 <= write_pos h ->
    obj_name fmt cfg (expire_pos h / object_size fmt cfg) = header_name fmt cfg
    /\ exists js' lc',
         parse_entries fmt
           (S (List.length (data (io cl (header_name fmt cfg)))))
           (push_valid (header_name fmt cfg)
              (snd (scan_header fmt cfg (io cl) js)))
           {| read_offset := expire_pos h;
              read_buf := data (io cl (header_name fmt cfg));
              gap := false; gap_start := UINT64_MAX |} = Some (js', lc')
         /\ scan fmt cfg (S fuel) cl js =
            scan_objects fmt cfg fuel (io cl) 1
              (write_pos h / object_size fmt cfg) js' lc'
         /\ first_entry_effect fmt (expire_pos h)
              (data (io cl (header_name fmt cfg)))
              (push_valid (header_name fmt cfg)
                 (snd (scan_header fmt cfg (io cl) js)))
              js' lc'.
Proof.
  intros E fmt cfg fuel cl js h Hi Hp Hc Hrc Hh He Hw.
  assert (Hidx : expire_pos h / object_size fmt cfg = 0)
    by (apply Z.div_small; exact He).
  split.
  { rewrite Hidx. reflexivity. }
  rewrite scan_is_scan_events by assumption.
  set (js1 := snd (scan_header fmt cfg (io cl) js)) in *.
  unfold scan_events. rewrite Hh.
  assert (Hs : (object_size fmt cfg =? 0) = false) by (apply Z.eqb_neq; lia).
  rewrite Hs, Hidx.
  assert (Hlast : 0 <= write_pos h / object_size fmt cfg)
    by (apply Z.div_pos; lia).
  cbn [scan_objects].
  apply Z.leb_le in Hlast. rewrite Hlast.
  destruct (scan_object_parsed fmt cfg (io cl) 0 js1
              {| read_offset := expire_pos h; read_buf := [];
                 gap := false; gap_start := UINT64_MAX |})
    as (js' & lc' & Hparse & Hstep); [exact Hrc | reflexivity |].
  cbn [read_buf read_offset gap_start app] in Hparse.
  exists js', lc'. split; [exact Hparse|].
  split; [rewrite Hstep; reflexivity|].
  eapply parse_entries_first_entry. exact Hparse.
Qed.

(** C10 at [ex_cluster_c10]: a valid header with [expire_pos = 0],
    object size 64. *)
Lemma header_object_parsed_as_events_witness :
  obj_name ex_fmt ex_cfg
    (expire_pos (ex_header "ceph fs volume v011" 0 0 10)
     / object_size ex_fmt ex_cfg) = header_name ex_fmt ex_cfg
  /\ exists js' lc',
       parse_entries ex_fmt
         (S (List.length (data (io ex_cluster_c10 (header_name ex_fmt ex_cfg)))))
         (push_valid (header_name ex_fmt ex_cfg)
            (snd (scan_header ex_fmt ex_cfg (io ex_cluster_c10)
                    (new_scanner (list byte)))))
         {| read_offset := expire_pos (ex_header "ceph fs volume v011" 0 0 10);
            read_buf := data (io ex_cluster_c10 (header_name ex_fmt ex_cfg));
            gap := false; gap_start := UINT64_MAX |} = Some (js', lc')
       /\ scan ex_fmt ex_cfg 1 ex_cluster_c10 (new_scanner (list byte)) =
          scan_objects ex_fmt ex_cfg 0 (io ex_cluster_c10) 1
            (write_pos (ex_header "ceph fs volume v011" 0 0 10)
             / object_size ex_fmt ex_cfg) js' lc'
       /\ first_entry_effect ex_fmt
            (expire_pos (ex_header "ceph fs volume v011" 0 0 10))
            (data (io ex_cluster_c10 (header_name ex_fmt ex_cfg)))
            (push_valid (header_name ex_fmt ex_cfg)
               (snd (scan_header ex_fmt ex_cfg (io ex_cluster_c10)
                       (new_scanner (list byte)))))
            js' lc'.
Proof.
  apply (header_object_parsed_as_events (list byte) ex_fmt ex_cfg 0
           ex_cluster_c10 (new_scanner (list byte))
           (ex_header "ceph fs volume v011" 0 0 10)).
  - vm_compute. discriminate.
  - vm_compute. discriminate.
  - reflexivity.
  - vm_compute. discriminate.
  - vm_compute. reflexivity.
  - vm_compute. split; [discriminate | reflexivity].
  - vm_compute. discriminate.
Defined.

(** The header object of [ex_cluster_c10] does not begin with the
    sentinel: the scan opens a gap at [expire_pos = 0] and reports a
    journal with a valid header as unhealthy. *)
Lemma header_object_opens_gap :
  exists js',
    scan ex_fmt ex_cfg 1 ex_cluster_c10 (new_scanner (list byte))
    = Returned 0 js'
    /\ header_valid js' = true
    /\ objects_valid js' = [header_name ex_fmt ex_cfg]
    /\ ranges_invalid js' = [(0, UINT64_MAX)]
    /\ events_valid js' = []
    /\ is_healthy js' = false.
Proof.
  eexists. split; [vm_compute; reflexivity|].
  repeat split.
Qed.

(* ------------------------------------------------------------------ *)
(** ** The header flags survive the object loop *)

Section HeaderFlags.

Context {LogEvent : Type}.
Variable fmt : Format LogEvent.
Variable cfg : Config.

Let JS := JournalScanner LogEvent.

Lemma scan_object_same_header :
  forall io i js lc js' lc',
    scan_object fmt cfg io i js lc = Next js' lc' -> same_header js js'.
Proof.
  intros io i js lc js' lc' H. unfold scan_object in H.
  repeat split_if_in H; try discriminate.
  - inversion H; subst. unfold same_header. simpl. repeat split.
  - destruct (parse_entries fmt _ _ _) as [[js2 lc2]|] eqn:Hp; [|discriminate].
    inversion H; subst.
    apply parse_entries_same_objects in Hp.
    destruct Hp as (H1 & H2 & H3 & _). unfold same_header.
    simpl in *. repeat split; assumption.
Qed.

Lemma scan_objects_same_header :
  forall fuel io i last js lc r js',
    scan_objects fmt cfg fuel io i last js lc = Returned r js' ->
    same_header js js'.
Proof.
  induction fuel as [|fuel IH]; intros io i last js lc r js' H;
    cbn [scan_objects] in H.
  - destruct (i <=? last); [discriminate|].
    unfold finish_scan in H. inversion H; subst.
    destruct (gap lc); unfold same_header; simpl; repeat split.
  - destruct (i <=? last).
    + destruct (scan_object fmt cfg io i js lc) as [js1 lc1|o] eqn:Hs.
      * apply scan_object_same_header in Hs. apply IH in H.
        unfold same_header in *. intuition congruence.
      * unfold scan_object in Hs.
        repeat split_if_in Hs; try discriminate.
        -- inversion Hs; subst. discriminate.
        -- destruct (parse_entries fmt _ _ _) as [[? ?]|];
             inversion Hs; subst; discriminate.
    + unfold finish_scan in H. inversion H; subst.
      destruct (gap lc); unfold same_header; simpl; repeat split.
Qed.

Lemma scan_events_same_header :
  forall fuel io js r js',
    scan_events fmt cfg fuel io js = Returned r js' -> same_header js js'.
Proof.
  intros fuel io js r js' H. unfold scan_events in H.
  destruct (header js); [|discriminate].
  destruct (object_size fmt cfg =? 0); [discriminate|].
  eapply scan_objects_same_header; exact H.
Qed.

End HeaderFlags.

(* ------------------------------------------------------------------ *)
(** ** A failed header *)

(** C1, as stated, fails: with a header whose magic is wrong the scan
    still reads the object range and returns a report that lists a
    present object and an event. *)
Lemma bad_magic_scan_not_empty :
  header_failure ex_fmt ex_cfg (io ex_cluster_bad_magic)
  /\ exists js,
       scan ex_fmt ex_cfg 2 ex_cluster_bad_magic (new_scanner (list byte))
       = Returned 0 js
       /\ header_present js = true /\ header_valid js = false
       /\ objects_valid js = [obj_name ex_fmt ex_cfg 1]
       /\ events_valid js = [64]
       /\ events js = [(64, [x01; x02])].
Proof.
  split.
  - right. vm_compute. left. discriminate.
  - eexists. split; [vm_compute; reflexivity|].
    repeat split.
Qed.

(** C1, amended.  In each of the four failure cases [scan_header]
    returns 0 and records the failure in the flags only: [header_valid]
    stays false, [header_present] is true exactly when the object was
    read, and no object, range or event is recorded.  The failure never
    becomes an error of [scan]: when the header object was read, [scan]
    goes on to [scan_events] over the range of the header as decoded, and
    whatever it then returns is 0 with [header_valid] still false. *)
Theorem header_failure_is_recorded :
  forall (E : Type) (fmt : Format E) (cfg : Config) (fuel : nat)
         (cl : Cluster),
    0 <= rados_init cl -> 0 <= pool_reverse_lookup cl ->
    ioctx_create cl = 0 ->
    header_failure fmt cfg (io cl) ->
    exists js1,
      scan_header fmt cfg (io cl) (new_scanner E) = (0, js1)
      /\ header_valid js1 = false
      /\ header_present js1 = (0 <=? rc (io cl (header_name fmt cfg)))
      /\ objects_valid js1 = [] /\ objects_missing js1 = []
      /\ ranges_invalid js1 = [] /\ events_valid js1 = []
      /\ events js1 = []
      /\ (0 <= rc (io cl (header_name fmt cfg)) ->
          scan fmt cfg fuel cl (new_scanner E)
          = scan_events fmt cfg fuel (io cl) js1)
      /\ (forall r js',
            scan fmt cfg fuel cl (new_scanner E) = Returned r js' ->
            r = 0 /\ header_valid js' = false
            /\ header_present js' = true).
Proof.
  intros E fmt cfg fuel cl Hi Hp Hc Hf.
  pose proof (scan_is_scan_events fmt cfg fuel cl (new_scanner E) Hi Hp Hc)
    as Hscan.
  assert (Hhdr :
    exists js1,
      scan_header fmt cfg (io cl) (new_scanner E) = (0, js1)
      /\ header_valid js1 = false
      /\ header_present js1 = (0 <=? rc (io cl (header_name fmt cfg)))
      /\ (header_present js1 = false -> header js1 = None)
      /\ objects_valid js1 = [] /\ objects_missing js1 = []
      /\ ranges_invalid js1 = [] /\ events_valid js1 = []
      /\ events js1 = []).
  { unfold scan_header, header_failure in *.
    destruct (rc (io cl (header_name fmt cfg)) <? 0) eqn:Hrc.
    - apply Z.ltb_lt in Hrc.
      assert (H0 : (0 <=? rc (io cl (header_name fmt cfg))) = false)
        by (apply Z.leb_gt; exact Hrc).
      rewrite H0. eexists. split; [reflexivity|]. simpl. repeat split.
    - apply Z.ltb_ge in Hrc.
      assert (H0 : (0 <=? rc (io cl (header_name fmt cfg))) = true)
        by (apply Z.leb_le; exact Hrc).
      rewrite H0.
      destruct Hf as [Hf|Hf]; [lia|].
      destruct (Header_decode fmt _) as [h|h].
      + destruct (String.eqb (magic h) (CEPH_FS_ONDISK_MAGIC fmt)) eqn:Hm;
          cbn [negb].
        * apply String.eqb_eq in Hm.
          destruct Hf as [Hf|Hf]; [contradiction|].
          destruct ((trimmed_pos h <=? expire_pos h)
                    && (expire_pos h <=? write_pos h))%bool eqn:Ho; cbn [negb].
          -- apply andb_true_iff in Ho. destruct Ho as [Ho1 Ho2].
             apply Z.leb_le in Ho1. apply Z.leb_le in Ho2. lia.
          -- eexists. split; [reflexivity|]. simpl.
             repeat split; discriminate.
        * eexists. split; [reflexivity|]. simpl. repeat split; discriminate.
      + eexists. split; [reflexivity|]. simpl. repeat split; discriminate. }
  destruct Hhdr as (js1 & Hsh & Hv & Hpres & Hnull & Ho & Hm & Hr & He & Hev).
  exists js1. rewrite Hsh in Hscan. simpl in Hscan.
  repeat (split; [assumption|]).
  split; [intros _; exact Hscan|].
  intros r js' Hret. rewrite Hscan in Hret.
  pose proof (scan_events_returns_0 fmt cfg _ _ _ _ _ Hret) as Hr0.
  pose proof (scan_events_same_header fmt cfg _ _ _ _ _ Hret) as (Hh1 & Hh2 & Hh3).
  split; [exact Hr0|]. split; [congruence|].
  rewrite Hh2.
  destruct (header_present js1) eqn:Hpr; [reflexivity|].
  specialize (Hnull eq_refl). unfold scan_events in Hret.
  rewrite Hnull in Hret. discriminate.
Qed.

(** C1, amended, at [ex_cluster_bad_magic]. *)
Lemma header_failure_is_recorded_witness :
  exists js1,
    scan_header ex_fmt ex_cfg (io ex_cluster_bad_magic)
      (new_scanner (list byte)) = (0, js1)
    /\ header_valid js1 = false
    /\ header_present js1
       = (0 <=? rc (io ex_cluster_bad_magic (header_name ex_fmt ex_cfg)))
    /\ objects_valid js1 = [] /\ objects_missing js1 = []
    /\ ranges_invalid js1 = [] /\ events_valid js1 = []
    /\ events js1 = []
    /\ (0 <= rc (io ex_cluster_bad_magic (header_name ex_fmt ex_cfg)) ->
        scan ex_fmt ex_cfg 2 ex_cluster_bad_magic (new_scanner (list byte))
        = scan_events ex_fmt ex_cfg 2 (io ex_cluster_bad_magic) js1)
    /\ (forall r js',
          scan ex_fmt ex_cfg 2 ex_cluster_bad_magic (new_scanner (list byte))
          = Returned r js' ->
          r = 0 /\ header_valid js' = false /\ header_present js' = true).
Proof.
  apply (header_failure_is_recorded (list byte) ex_fmt ex_cfg 2
           ex_cluster_bad_magic).
  - vm_compute. discriminate.
  - vm_compute. discriminate.
  - reflexivity.
  - right. vm_compute. left. discriminate.
Defined.

(* ------------------------------------------------------------------ *)
(** ** Read failures *)

(** [scan] returns a negative code only from its start-up calls, with
    the scanner untouched. *)
Lemma scan_error_only_from_startup :
  forall (E : Type) (fmt : Format E) (cfg : Config) (fuel : nat)
         (cl : Cluster) (js : JournalScanner E) r js',
    scan fmt cfg fuel cl js = Returned r js' -> r < 0 ->
    js' = js /\ (r = rados_init cl \/ r = pool_reverse_lookup cl).
Proof.
  intros E fmt cfg fuel cl js r js' H Hr. unfold scan in H.
  destruct (rados_init cl <? 0) eqn:Hi.
  { inversion H; subst. auto. }
  destruct (pool_reverse_lookup cl <? 0) eqn:Hp.
  { inversion H; subst. auto. }
  destruct (ioctx_create cl =? 0) eqn:Hc; [|discriminate].
  apply Z.ltb_ge in Hi. apply Z.ltb_ge in Hp. apply Z.eqb_eq in Hc.
  pose proof (scan_is_scan_events fmt cfg fuel cl js Hi Hp Hc) as Hs.
  unfold scan in Hs.
  apply Z.ltb_ge in Hi. apply Z.ltb_ge in Hp. rewrite Hi, Hp, Hc in Hs.
  cbn [Z.eqb negb] in *.
  rewrite Hs in H. apply scan_events_returns_0 in H. lia.
Qed.

(** C4, as stated, fails: a read that fails with an I/O error does not
    abort the scan; the object is listed as missing and [scan] returns
    0. *)
Lemma io_error_scan_returns_ok :
  rc (io ex_cluster_eio (obj_name ex_fmt ex_cfg 1)) = - EIO
  /\ exists js,
       scan ex_fmt ex_cfg 1 ex_cluster_eio (new_scanner (list byte))
       = Returned 0 js
       /\ objects_missing js = [1]
       /\ ranges_invalid js = [(64, UINT64_MAX)].
Proof.
  split; [vm_compute; reflexivity|].
  eexists. split; [vm_compute; reflexivity|].
  split; reflexivity.
Qed.

(** C4, amended.  The scanner does not tell read failures apart: a read
    of an object of the range that returns any negative code, not-found
    or not, puts the index in [objects_missing], leaves the cursor and
    the buffer as they are, and the loop goes on with the next index in
    the gap state.  No read result is propagated: [scan_events] only
    ever returns 0, and [scan] returns a negative code only when its
    RADOS start-up calls do. *)
Theorem read_failure_is_recorded_as_missing :
  forall (E : Type) (fmt : Format E) (cfg : Config) (fuel : nat)
         (cl : Cluster) (i last : Z) (js : JournalScanner E) (lc : Locals),
    rc (io cl (obj_name fmt cfg i)) < 0 ->
    i <= last ->
    scan_objects fmt cfg (S fuel) (io cl) i last js lc
    = scan_objects fmt cfg fuel (io cl) (wrap64 (i + 1)) last
        (push_missing i js)
        {| read_offset := read_offset lc;
           read_buf := read_buf lc ++ data (io cl (obj_name fmt cfg i));
           gap := true; gap_start := read_offset lc |}
    /\ (forall n js0 r js',
          scan_events fmt cfg n (io cl) js0 = Returned r js' -> r = 0)
    /\ (forall n js0 r js',
          scan fmt cfg n cl js0 = Returned r js' -> r < 0 ->
          js' = js0 /\ (r = rados_init cl \/ r = pool_reverse_lookup cl)).
Proof.
  intros E fmt cfg fuel cl i last js lc Hrc Hle.
  split; [|split].
  - cbn [scan_objects]. apply Z.leb_le in Hle. rewrite Hle.
    rewrite scan_object_read_failed by exact Hrc. reflexivity.
  - intros n js0 r js'. apply scan_events_returns_0.
  - intros n js0 r js'. apply scan_error_only_from_startup.
Qed.

(** C4, amended, at [ex_cluster_eio]: the read of object 1 returns
    [-EIO]. *)
Lemma read_failure_is_recorded_as_missing_witness :
  scan_objects ex_fmt ex_cfg 1 (io ex_cluster_eio) 1 1
    (new_scanner (list byte))
    {| read_offset := 64; read_buf := []; gap := false;
       gap_start := UINT64_MAX |}
  = scan_objects ex_fmt ex_cfg 0 (io ex_cluster_eio) (wrap64 (1 + 1)) 1
      (push_missing 1 (new_scanner (list byte)))
      {| read_offset := 64;
         read_buf := [] ++ data (io ex_cluster_eio (obj_name ex_fmt ex_cfg 1));
         gap := true; gap_start := 64 |}
  /\ (forall n js0 r js',
        scan_events ex_fmt ex_cfg n (io ex_cluster_eio) js0 = Returned r js' ->
        r = 0)
  /\ (forall n js0 r js',
        scan ex_fmt ex_cfg n ex_cluster_eio js0 = Returned r js' -> r < 0 ->
        js' = js0
        /\ (r = rados_init ex_cluster_eio
            \/ r = pool_reverse_lookup ex_cluster_eio)).
Proof.
  apply (read_failure_is_recorded_as_missing (list byte) ex_fmt ex_cfg 0
           ex_cluster_eio 1 1 (new_scanner (list byte))
           {| read_offset := 64; read_buf := []; gap := false;
              gap_start := UINT64_MAX |}).
  - vm_compute. reflexivity.
  - lia.
Defined.

(* ------------------------------------------------------------------ *)
(** ** Gaps and the trailing [start_ptr] *)

(** C2: where the claim has the scanner resynchronise after a missing
    object, the code stops at [assert(0)] on the first object it can
    read after the hole.  No report comes back. *)
Theorem scan_asserts_after_missing_object :
  rc (io ex_cluster_hole (obj_name ex_fmt ex_cfg 1)) = - ENOENT
  /\ rc (io ex_cluster_hole (obj_name ex_fmt ex_cfg 2)) = 22
  /\ scan ex_fmt ex_cfg 2 ex_cluster_hole (new_scanner (list byte))
     = Crashed AssertZero.
Proof. repeat split; vm_compute; reflexivity. Qed.

(** C3: the code splices the trailing [start_ptr] off without reading
    it, so an entry whose [start_ptr] differs from its offset is recorded
    as an event all the same, and no gap is reported. *)
Theorem event_recorded_with_wrong_start_ptr :
  decode_u64 (skipn 14 (data (io ex_cluster_bad_ptr (obj_name ex_fmt ex_cfg 1))))
  = 12345
  /\ exists js,
       scan ex_fmt ex_cfg 1 ex_cluster_bad_ptr (new_scanner (list byte))
       = Returned 0 js
       /\ events js = [(64, [x01; x02])]
       /\ events_valid js = [64]
       /\ ranges_invalid js = [].
Proof.
  split; [vm_compute; reflexivity|].
  eexists. split; [vm_compute; reflexivity|].
  repeat split.
Qed.

(* ------------------------------------------------------------------ *)
(** ** Printed numbers can be read back *)

Lemma digit_cases : forall d, 0 <= d < 16 ->
  d = 0 \/ d = 1 \/ d = 2 \/ d = 3 \/ d = 4 \/ d = 5 \/ d = 6 \/ d = 7 \/
  d = 8 \/ d = 9 \/ d = 10 \/ d = 11 \/ d = 12 \/ d = 13 \/ d = 14 \/ d = 15.
Proof. intros d H. lia. Qed.

Lemma digit_of_digit_char : forall d, 0 <= d < 16 ->
  digit_of_char (digit_char d) = d.
Proof.
  intros d H. apply digit_cases in H.
  repeat (destruct H as [H|H]; [subst d; reflexivity|]).
  subst d; reflexivity.
Qed.

Lemma decimal_of_digit_char : forall d, 0 <= d < 10 ->
  byte_val (digit_char d) - 48 = d.
Proof.
  intros d H. assert (H16 : 0 <= d < 16) by lia. apply digit_cases in H16.
  repeat (destruct H16 as [H16|H16]; [subst d; try reflexivity; lia|]).
  lia.
Qed.

Lemma isdigit_digit_char : forall d, 0 <= d < 10 ->
  isdigit (digit_char d) = true.
Proof.
  intros d H. assert (H16 : 0 <= d < 16) by lia. apply digit_cases in H16.
  repeat (destruct H16 as [H16|H16]; [subst d; try reflexivity; lia|]).
  lia.
Qed.

Lemma digits_value_app : forall base val a b acc,
  digits_value base val acc (a ++ b)
  = digits_value base val (digits_value base val acc a) b.
Proof.
  intros base val a. induction a as [|d a IH]; intros b acc; simpl.
  - reflexivity.
  - apply IH.
Qed.

Section DigitValue.

Variable base : Z.
Variable val : byte -> Z.
Hypothesis base_pos : 1 < base.
Hypothesis val_digit : forall d, 0 <= d < base -> val (digit_char d) = d.

Lemma digits_value_digits : forall n v acc,
  0 <= v ->
  digits_value base val acc (digits base n v)
  = acc * base ^ Z.of_nat n + v mod base ^ Z.of_nat n.
Proof.
  induction n as [|n IH]; intros v acc Hv.
  - simpl. rewrite Z.mod_1_r. lia.
  - cbn [digits]. rewrite digits_value_app. cbn [digits_value].
    rewrite IH by (apply Z.div_pos; lia).
    rewrite val_digit by (apply Z.mod_pos_bound; lia).
    rewrite Nat2Z.inj_succ, Z.pow_succ_r by lia.
    rewrite (Z.rem_mul_r v base (base ^ Z.of_nat n)) by
      (try apply Z.pow_pos_nonneg; lia).
    ring.
Qed.

Hypothesis val_zero : val x30 = 0.

Lemma digits_value_strip_zeros : forall w ds,
  digits_value base val 0 (strip_zeros w ds) = digits_value base val 0 ds.
Proof.
  intros w ds. induction ds as [|d ds IH]; [reflexivity|].
  cbn [strip_zeros].
  destruct (Nat.ltb w (List.length (d :: ds)) && Byte.eqb d x30)%bool eqn:Hc.
  - apply andb_true_iff in Hc. destruct Hc as [_ Hd].
    apply Byte.byte_dec_bl in Hd. subst d.
    rewrite IH. cbn [digits_value]. rewrite val_zero.
    replace (base * 0 + 0) with 0 by ring. reflexivity.
  - reflexivity.
Qed.

End DigitValue.

Lemma fmt_llx_value : forall w v, uint64 v ->
  digits_value 16 digit_of_char 0 (fmt_llx w v) = v.
Proof.
  intros w v Hv. unfold fmt_llx.
  rewrite (digits_value_strip_zeros 16 digit_of_char) by reflexivity.
  rewrite (digits_value_digits 16 digit_of_char) by
    (try apply digit_of_digit_char; unfold uint64 in Hv; lia).
  change (16 ^ Z.of_nat 16) with two64.
  rewrite Z.mod_small by exact Hv. ring.
Qed.

Lemma fmt_llx_inj : forall w a b, uint64 a -> uint64 b ->
  fmt_llx w a = fmt_llx w b -> a = b.
Proof.
  intros w a b Ha Hb H.
  rewrite <- (fmt_llx_value w a Ha), <- (fmt_llx_value w b Hb), H.
  reflexivity.
Qed.

(** [obj_name] tells object indices apart. *)
Lemma obj_name_inj :
  forall (E : Type) (fmt : Format E) (cfg : Config) a b,
    uint64 a -> uint64 b ->
    obj_name fmt cfg a = obj_name fmt cfg b -> a = b.
Proof.
  intros E fmt cfg a b Ha Hb H. unfold obj_name in H.
  apply (f_equal list_byte_of_string) in H.
  rewrite !list_byte_of_string_of_list_byte in H.
  apply app_inv_head in H. apply app_inv_head in H.
  eapply fmt_llx_inj; eassumption.
Qed.

(* ------------------------------------------------------------------ *)
(** ** Present and missing objects *)

Section ObjectLists.

Context {LogEvent : Type}.
Variable fmt : Format LogEvent.
Variable cfg : Config.
Variable io : IoCtx.

Let JS := JournalScanner LogEvent.

(** What one pass of the loop adds to the two object lists. *)
Lemma scan_object_lists :
  forall i (js : JS) lc js' lc',
    scan_object fmt cfg io i js lc = Next js' lc' ->
    (rc (io (obj_name fmt cfg i)) < 0
     /\ objects_valid js' = objects_valid js
     /\ objects_missing js' = objects_missing js ++ [i])
    \/ (0 <= rc (io (obj_name fmt cfg i))
        /\ objects_valid js' = objects_valid js ++ [obj_name fmt cfg i]
        /\ objects_missing js' = objects_missing js).
Proof.
  intros i js lc js' lc' H. unfold scan_object in H.
  destruct (rc (io (obj_name fmt cfg i)) <? 0) eqn:Hrc.
  - apply Z.ltb_lt in Hrc. inversion H; subst. left. simpl. auto.
  - apply Z.ltb_ge in Hrc. right.
    destruct (gap lc); [discriminate|].
    destruct (parse_entries fmt _ _ _) as [[js2 lc2]|] eqn:Hp; [|discriminate].
    inversion H; subst.
    apply parse_entries_same_objects in Hp.
    destruct Hp as (_ & _ & _ & Hv & Hm & _). simpl in *. auto.
Qed.

Lemma scan_object_stop :
  forall i (js : JS) lc o r js',
    scan_object fmt cfg io i js lc = Stop o -> o <> Returned r js'.
Proof.
  intros i js lc o r js' H. unfold scan_object in H.
  repeat split_if_in H; try discriminate.
  - inversion H; subst. discriminate.
  - destruct (parse_entries fmt _ _ _) as [[? ?]|];
      inversion H; subst; discriminate.
Qed.

(** With the last index at [UINT64_MAX] the loop condition never fails:
    the loop does not return. *)
Lemma scan_objects_last_max :
  forall fuel i (js : JS) lc r js',
    uint64 i ->
    scan_objects fmt cfg fuel io i UINT64_MAX js lc <> Returned r js'.
Proof.
  induction fuel as [|fuel IH]; intros i js lc r js' Hi;
    cbn [scan_objects];
    assert (Hle : (i <=? UINT64_MAX) = true)
      by (apply Z.leb_le; unfold uint64, UINT64_MAX in *; lia);
    rewrite Hle.
  - discriminate.
  - destruct (scan_object fmt cfg io i js lc) as [js1 lc1|o] eqn:Hs.
    + apply IH. apply wrap64_range.
    + eapply scan_object_stop; exact Hs.
Qed.

(** The loop from [i] to [last] lists every index in between once: with
    the objects read, or with those whose read failed. *)
Lemma scan_objects_lists :
  forall fuel i last (js : JS) lc r js',
    uint64 i -> last < UINT64_MAX ->
    scan_objects fmt cfg fuel io i last js lc = Returned r js' ->
    exists P M,
      objects_valid js' = objects_valid js ++ map (obj_name fmt cfg) P
      /\ objects_missing js' = objects_missing js ++ M
      /\ (forall k, In k P ->
            i <= k <= last /\ 0 <= rc (io (obj_name fmt cfg k)))
      /\ (forall k, In k M ->
            i <= k <= last /\ rc (io (obj_name fmt cfg k)) < 0)
      /\ (forall k, i <= k <= last -> In k P \/ In k M).
Proof.
  induction fuel as [|fuel IH]; intros i last js lc r js' Hi Hlast H;
    cbn [scan_objects] in H.
  - destruct (i <=? last) eqn:Hle; [discriminate|].
    apply Z.leb_gt in Hle. unfold finish_scan in H. inversion H; subst.
    exists [], []. simpl. rewrite !app_nil_r.
    destruct (gap lc); simpl; repeat split; intros; try contradiction; lia.
  - destruct (i <=? last) eqn:Hle.
    + apply Z.leb_le in Hle.
      destruct (scan_object fmt cfg io i js lc) as [js1 lc1|o] eqn:Hs.
      2:{ exfalso. eapply scan_object_stop; [exact Hs|]. exact H. }
      assert (Hw : wrap64 (i + 1) = i + 1).
      { apply wrap64_small. unfold uint64, UINT64_MAX in *. lia. }
      rewrite Hw in H.
      apply IH in H; [|unfold uint64, UINT64_MAX in *; lia|exact Hlast].
      destruct H as (P & M & Hv & Hm & HP & HM & Hall).
      apply scan_object_lists in Hs.
      destruct Hs as [(Hrc & Hv1 & Hm1)|(Hrc & Hv1 & Hm1)].
      * exists P, (i :: M). rewrite Hv, Hm, Hv1, Hm1, <- app_assoc.
        split; [reflexivity|]. split; [reflexivity|].
        split.
        { intros k Hk. apply HP in Hk. split; [lia|tauto]. }
        split.
        { intros k [Hk|Hk].
          - subst k. split; [lia|exact Hrc].
          - apply HM in Hk. split; [lia|tauto]. }
        intros k Hk. destruct (Z.eq_dec k i) as [->|Hne].
        -- right. left. reflexivity.
        -- destruct (Hall k) as [Hin|Hin]; [lia|auto|right; right; auto].
      * exists (i :: P), M. rewrite Hv, Hm, Hv1, Hm1, <- app_assoc.
        split; [reflexivity|]. split; [reflexivity|].
        split.
        { intros k [Hk|Hk].
          - subst k. split; [lia|exact Hrc].
          - apply HP in Hk. split; [lia|tauto]. }
        split.
        { intros k Hk. apply HM in Hk. split; [lia|tauto]. }
        intros k Hk. destruct (Z.eq_dec k i) as [->|Hne].
        -- left. left. reflexivity.
        -- destruct (Hall k) as [Hin|Hin]; [lia|left; right; auto|auto].
    + apply Z.leb_gt in Hle. unfold finish_scan in H. inversion H; subst.
      exists [], []. simpl. rewrite !app_nil_r.
      destruct (gap lc); simpl; repeat split; intros; try contradiction; lia.
Qed.

End ObjectLists.

(* ------------------------------------------------------------------ *)
(** ** Enough fuel *)

Section Fuel.

Context {LogEvent : Type}.
Variable fmt : Format LogEvent.
Variable cfg : Config.
Variable io : IoCtx.

Let JS := JournalScanner LogEvent.

(** The only way one pass of the loop stops the scan is [assert(0)]. *)
Lemma scan_object_stop_is_assert :
  forall i (js : JS) lc o,
    scan_object fmt cfg io i js lc = Stop o ->
    o = Crashed AssertZero
    /\ 0 <= rc (io (obj_name fmt cfg i)) /\ gap lc = true.
Proof.
  intros i js lc o H.
  destruct (Z.lt_ge_cases (rc (io (obj_name fmt cfg i))) 0) as [Hrc|Hrc].
  { rewrite scan_object_read_failed in H by exact Hrc. discriminate. }
  destruct (gap lc) eqn:Hg.
  - rewrite scan_object_in_gap in H by assumption.
    inversion H; subst. auto.
  - destruct (scan_object_parsed fmt cfg io i js lc Hrc Hg)
      as (js' & lc' & _ & Hs).
    rewrite Hs in H. discriminate.
Qed.

(** When the last index is below [UINT64_MAX], one unit of fuel per
    index of the range is enough: the loop returns or stops at the
    assertion. *)
Lemma scan_objects_enough_fuel :
  forall fuel i last (js : JS) lc,
    uint64 i -> last < UINT64_MAX ->
    last - i < Z.of_nat fuel ->
    scan_objects fmt cfg fuel io i last js lc = Crashed AssertZero
    \/ exists js', scan_objects fmt cfg fuel io i last js lc = Returned 0 js'.
Proof.
  induction fuel as [|fuel IH]; intros i last js lc Hi Hlast Hf;
    cbn [scan_objects].
  - assert (Hle : (i <=? last) = false) by (apply Z.leb_gt; lia).
    rewrite Hle. right. unfold finish_scan. eauto.
  - destruct (i <=? last) eqn:Hle.
    + apply Z.leb_le in Hle.
      destruct (scan_object fmt cfg io i js lc) as [js1 lc1|o] eqn:Hs.
      * apply IH; [apply wrap64_range|exact Hlast|].
        rewrite wrap64_small by (unfold uint64, UINT64_MAX in *; lia). lia.
      * apply scan_object_stop_is_assert in Hs. left. tauto.
    + right. unfold finish_scan. eauto.
Qed.

End Fuel.

Lemma scan_header_keeps_lists :
  forall (E : Type) (fmt : Format E) (cfg : Config) (io : IoCtx)
         (js : JournalScanner E),
    let js1 := snd (scan_header fmt cfg io js) in
    objects_valid js1 = objects_valid js
    /\ objects_missing js1 = objects_missing js
    /\ ranges_invalid js1 = ranges_invalid js
    /\ events_valid js1 = events_valid js
    /\ events js1 = events js.
Proof.
  intros E fmt cfg io js. unfold scan_header.
  destruct (rc (io (header_name fmt cfg)) <? 0); [simpl; auto|].
  destruct (Header_decode fmt _) as [h|h]; [|simpl; auto].
  destruct (negb (String.eqb (magic h) (CEPH_FS_ONDISK_MAGIC fmt)));
    [simpl; auto|].
  destruct (negb _); simpl; auto.
Qed.

(** A [scan] that returns 0 went through [scan_events]. *)
Lemma scan_returned_0 :
  forall (E : Type) (fmt : Format E) (cfg : Config) (fuel : nat)
         (cl : Cluster) (js js' : JournalScanner E),
    scan fmt cfg fuel cl js = Returned 0 js' ->
    scan_events fmt cfg fuel (io cl)
      (snd (scan_header fmt cfg (io cl) js)) = Returned 0 js'.
Proof.
  intros E fmt cfg fuel cl js js' H.
  destruct (rados_init cl <? 0) eqn:Hi.
  { unfold scan in H. rewrite Hi in H. inversion H.
    apply Z.ltb_lt in Hi. lia. }
  destruct (pool_reverse_lookup cl <? 0) eqn:Hp.
  { unfold scan in H. rewrite Hi, Hp in H. inversion H.
    apply Z.ltb_lt in Hp. lia. }
  destruct (ioctx_create cl =? 0) eqn:Hc.
  2:{ unfold scan in H. rewrite Hi, Hp, Hc in H. discriminate. }
  apply Z.ltb_ge in Hi. apply Z.ltb_ge in Hp. apply Z.eqb_eq in Hc.
  rewrite scan_is_scan_events in H by assumption. exact H.
Qed.

(** C8.  After a scan that ran to its end, no object index is recorded
    both as present (by its name, in [objects_valid]) and as missing, and
    the indices recorded one way or the other are exactly those from
    [expire_pos / object_size] to [write_pos / object_size], both
    included. *)
Theorem present_and_missing_partition_range :
  forall (E : Type) (fmt : Format E) (cfg : Config) (fuel : nat)
         (cl : Cluster) (js' : JournalScanner E),
    uint64 (object_size fmt cfg) ->
    (forall h, header js' = Some h -> header_wf h) ->
    scan fmt cfg fuel cl (new_scanner E) = Returned 0 js' ->
    exists h,
      header js' = Some h
      /\ (forall i, uint64 i ->
            ~ (In (obj_name fmt cfg i) (objects_valid js')
               /\ In i (objects_missing js')))
      /\ (forall i, uint64 i ->
            (In (obj_name fmt cfg i) (objects_valid js')
             \/ In i (objects_missing js'))
            <-> expire_pos h / object_size fmt cfg <= i
                <= write_pos h / object_size fmt cfg).
Proof.
  intros E fmt cfg fuel cl js' HS Hwf H.
  apply scan_returned_0 in H.
  destruct (scan_header_keeps_lists E fmt cfg (io cl) (new_scanner E))
    as (Hv0 & Hm0 & _).
  set (js1 := snd (scan_header fmt cfg (io cl) (new_scanner E))) in *.
  simpl in Hv0, Hm0.
  pose proof (scan_events_same_header fmt cfg _ _ _ _ _ H) as (Hh & _).
  unfold scan_events in H.
  destruct (header js1) as [h|] eqn:Hh1; [|discriminate].
  destruct (object_size fmt cfg =? 0) eqn:Hz; [discriminate|].
  apply Z.eqb_neq in Hz.
  exists h. split; [exact Hh|].
  destruct (Hwf h Hh) as (_ & He & Hw).
  set (S := object_size fmt cfg) in *.
  assert (HSpos : 0 < S) by (unfold uint64 in HS; lia).
  assert (Hlo : uint64 (expire_pos h / S)).
  { unfold uint64 in *. split; [apply Z.div_pos; lia|].
    apply Z.div_lt_upper_bound; nia. }
  assert (Hhi : write_pos h / S <= UINT64_MAX).
  { unfold uint64, UINT64_MAX in *.
    assert (write_pos h / S < two64) by (apply Z.div_lt_upper_bound; nia).
    lia. }
  assert (Hhi' : write_pos h / S < UINT64_MAX).
  { destruct (Z.eq_dec (write_pos h / S) UINT64_MAX) as [Heq|Hne]; [|lia].
    rewrite Heq in H. exfalso.
    eapply scan_objects_last_max; [exact Hlo|exact H]. }
  apply scan_objects_lists in H; [|exact Hlo|exact Hhi'].
  destruct H as (P & M & Hv & Hm & HP & HM & Hall).
  rewrite Hv0 in Hv. rewrite Hm0 in Hm. simpl in Hv, Hm.
  assert (Hin : forall i, uint64 i ->
            In (obj_name fmt cfg i) (objects_valid js') -> In i P).
  { intros i Hi Hn. rewrite Hv in Hn. apply in_map_iff in Hn.
    destruct Hn as (k & Hk & HkP).
    assert (k = i); [|subst; exact HkP].
    apply (obj_name_inj E fmt cfg); [|exact Hi|exact Hk].
    apply HP in HkP. unfold uint64, UINT64_MAX in *. lia. }
  split.
  - intros i Hi [Hn Hmi]. apply Hin in Hn; [|exact Hi].
    rewrite Hm in Hmi. apply HP in Hn. apply HM in Hmi. lia.
  - intros i Hi. split.
    + intros [Hn|Hmi].
      * apply Hin in Hn; [|exact Hi]. apply HP in Hn. tauto.
      * rewrite Hm in Hmi. apply HM in Hmi. tauto.
    + intros Hr. destruct (Hall i Hr) as [Hp|Hmi].
      * left. rewrite Hv. apply in_map. exact Hp.
      * right. rewrite Hm. exact Hmi.
Qed.

(** C8 at [ex_cluster_tail_missing]: object 1 present, objects 2 and 3
    missing. *)
Lemma present_and_missing_partition_range_witness :
  exists h,
    header ex_report_tail_missing = Some h
    /\ (forall i, uint64 i ->
          ~ (In (obj_name ex_fmt ex_cfg i) (objects_valid ex_report_tail_missing)
             /\ In i (objects_missing ex_report_tail_missing)))
    /\ (forall i, uint64 i ->
          (In (obj_name ex_fmt ex_cfg i) (objects_valid ex_report_tail_missing)
           \/ In i (objects_missing ex_report_tail_missing))
          <-> expire_pos h / object_size ex_fmt ex_cfg <= i
              <= write_pos h / object_size ex_fmt ex_cfg).
Proof.
  apply (present_and_missing_partition_range (list byte) ex_fmt ex_cfg 3
           ex_cluster_tail_missing ex_report_tail_missing).
  - vm_compute. split; [discriminate | reflexivity].
  - intros h Hh. inversion Hh; subst h.
    vm_compute. repeat split; discriminate.
  - vm_compute. reflexivity.
Defined.

(* ------------------------------------------------------------------ *)
(** ** The keys of the event map *)

Lemma map_assign_keys_Forall :
  forall (E : Type) (P : Z -> Prop) k (v : E) m,
    P k -> Forall P (keys m) -> Forall P (keys (map_assign k v m)).
Proof.
  intros E P k v m Hk. induction m as [|[k' v'] m IH]; intros Hm; simpl.
  - constructor; [exact Hk|constructor].
  - inversion Hm; subst.
    destruct (k <? k'); [constructor; assumption|].
    destruct (k =? k'); constructor; auto.
Qed.

(** [m[k] = v] keeps the map in strictly ascending key order. *)
Lemma map_assign_sorted :
  forall (E : Type) k (v : E) m,
    StronglySorted Z.lt (keys m) ->
    StronglySorted Z.lt (keys (map_assign k v m)).
Proof.
  intros E k v m. induction m as [|[k' v'] m IH]; intros Hs; simpl.
  - constructor; constructor.
  - inversion Hs as [|? ? Hs' Hall]; subst.
    destruct (k <? k') eqn:Hlt.
    + apply Z.ltb_lt in Hlt. constructor; [exact Hs|].
      constructor; [exact Hlt|].
      eapply Forall_impl; [|exact Hall]. intros x Hx. simpl in *. lia.
    + destruct (k =? k') eqn:Heq.
      * apply Z.eqb_eq in Heq. subst k'. exact Hs.
      * apply Z.ltb_ge in Hlt. apply Z.eqb_neq in Heq.
        constructor; [apply IH; exact Hs'|].
        apply map_assign_keys_Forall; [simpl; lia|exact Hall].
Qed.

(** Above every key, [m[k] = v] appends. *)
Lemma map_assign_above :
  forall (E : Type) k (v : E) m,
    Forall (fun x => x < k) (keys m) -> map_assign k v m = m ++ [(k, v)].
Proof.
  intros E k v m. induction m as [|[k' v'] m IH]; intros H; simpl.
  - reflexivity.
  - inversion H; subst. simpl in *.
    assert (Hlt : (k <? k') = false) by (apply Z.ltb_ge; lia).
    assert (Hne : (k =? k') = false) by (apply Z.eqb_neq; lia).
    rewrite Hlt, Hne, IH by assumption. reflexivity.
Qed.

Lemma sorted_snoc :
  forall l k,
    StronglySorted Z.lt l -> Forall (fun x => x < k) l ->
    StronglySorted Z.lt (l ++ [k]).
Proof.
  induction l as [|a l IH]; intros k Hs Hall; simpl.
  - constructor; constructor.
  - inversion Hs; subst. inversion Hall; subst.
    constructor; [apply IH; assumption|].
    apply Forall_app. split; [assumption|].
    constructor; [assumption|constructor].
Qed.

Section EventKeys.

Context {LogEvent : Type}.
Variable fmt : Format LogEvent.
Variable cfg : Config.
Variable io : IoCtx.

Let JS := JournalScanner LogEvent.

(** Any property of the event map that [m[k] = v] keeps is kept by the
    parsing loop and by the object loop. *)
Section Preserved.

Variable Q : EventMap LogEvent -> Prop.
Hypothesis Q_assign : forall k v m, Q m -> Q (map_assign k v m).

Lemma parse_entries_events_preserved :
  forall fuel (js : JS) lc js' lc',
    parse_entries fmt fuel js lc = Some (js', lc') ->
    Q (events js) -> Q (events js').
Proof.
  induction fuel as [|fuel IH]; intros js lc js' lc' H HQ; [discriminate|].
  rewrite parse_entries_S in H.
  repeat split_if_in H; try (inversion H; subst; exact HQ).
  destruct (LogEvent_decode fmt _) as [le|].
  - apply IH in H; [exact H|]. simpl. apply Q_assign. exact HQ.
  - apply IH in H; [exact H|exact HQ].
Qed.

Lemma scan_object_events_preserved :
  forall i (js : JS) lc js' lc',
    scan_object fmt cfg io i js lc = Next js' lc' ->
    Q (events js) -> Q (events js').
Proof.
  intros i js lc js' lc' H HQ. unfold scan_object in H.
  repeat split_if_in H; try discriminate.
  - inversion H; subst. exact HQ.
  - destruct (parse_entries fmt _ _ _) as [[js2 lc2]|] eqn:Hp; [|discriminate].
    inversion H; subst.
    eapply parse_entries_events_preserved; [exact Hp|exact HQ].
Qed.

Lemma scan_objects_events_preserved :
  forall fuel i last (js : JS) lc r js',
    scan_objects fmt cfg fuel io i last js lc = Returned r js' ->
    Q (events js) -> Q (events js').
Proof.
  induction fuel as [|fuel IH]; intros i last js lc r js' H HQ;
    cbn [scan_objects] in H.
  - destruct (i <=? last); [discriminate|].
    unfold finish_scan in H. inversion H; subst. destruct (gap lc); exact HQ.
  - destruct (i <=? last).
    + destruct (scan_object fmt cfg io i js lc) as [js1 lc1|o] eqn:Hs.
      * eapply IH; [exact H|].
        eapply scan_object_events_preserved; [exact Hs|exact HQ].
      * exfalso. eapply scan_object_stop; [exact Hs|exact H].
    + unfold finish_scan in H. inversion H; subst. destruct (gap lc); exact HQ.
Qed.

End Preserved.

Lemma bytes_read_nonneg : forall fuel i last, 0 <= bytes_read fmt cfg io fuel i last.
Proof.
  induction fuel as [|fuel IH]; intros i last; cbn [bytes_read];
    destruct (i <=? last); try lia.
  pose proof (IH (wrap64 (i + 1)) last).
  pose proof (blen_nonneg (data (io (obj_name fmt cfg i)))). lia.
Qed.

Lemma parse_entries_cursor_inv :
  forall e L fuel (js : JS) lc js' lc',
    L < two64 -> 0 <= e ->
    cursor_inv e L js lc ->
    parse_entries fmt fuel js lc = Some (js', lc') ->
    cursor_inv e L js' lc'.
Proof.
  intros e L. induction fuel as [|fuel IH];
    intros js lc js' lc' HL He Hinv H; [discriminate|].
  rewrite parse_entries_S in H.
  destruct Hinv as (H1 & H2 & H3 & H4 & H5).
  repeat split_if_in H;
    try (inversion H; subst; unfold cursor_inv; simpl; auto; fail).
  match goal with Hf : (_ + _ + decode_u32 _ + _ <=? _) = true |- _ =>
    apply Z.leb_le in Hf; rename Hf into Hfit end.
  pose proof (decode_u32_nonneg (skipn 8 (read_buf lc))) as Hsz.
  set (sz := decode_u32 (skipn 8 (read_buf lc))) in *. clearbody sz.
  assert (Hrest : blen (skipn (Z.to_nat (8 + 4 + sz + 8)) (read_buf lc))
                  = blen (read_buf lc) - (8 + 4 + sz + 8)).
  { unfold blen in *. rewrite length_skipn. lia. }
  destruct (LogEvent_decode fmt _) as [le|].
  - apply IH in H; [exact H|exact HL|exact He|].
    assert (Hw : wrap64 (read_offset lc + (8 + 4 + sz + 8))
                 = read_offset lc + (8 + 4 + sz + 8))
      by (apply wrap64_small; lia).
    unfold cursor_inv, record_event.
    cbn [read_offset read_buf events events_valid]. rewrite Hw, Hrest.
    assert (Hbelow : Forall (fun x => x < read_offset lc) (keys (events js))).
    { rewrite H3. eapply Forall_impl; [|exact H5]. cbv beta; intros; lia. }
    split; [lia|]. split; [lia|]. split.
    { rewrite map_assign_above by exact Hbelow.
      unfold keys in *. rewrite map_app, H3. reflexivity. }
    split.
    { apply sorted_snoc; [exact H4|]. rewrite <- H3. exact Hbelow. }
    apply Forall_app. split.
    + eapply Forall_impl; [|exact H5]. cbv beta; intros; lia.
    + constructor; [lia|constructor].
  - apply IH in H; [exact H|exact HL|exact He|].
    assert (Hw : wrap64 (read_offset lc + 1) = read_offset lc + 1)
      by (apply wrap64_small; lia).
    unfold cursor_inv.
    cbn [read_offset read_buf events events_valid]. rewrite Hw, Hrest.
    split; [lia|]. split; [lia|]. split; [exact H3|]. split; [exact H4|].
    eapply Forall_impl; [|exact H5]. cbv beta; intros; lia.
Qed.

Lemma scan_object_cursor_inv :
  forall e L i (js : JS) lc js' lc',
    L + blen (data (io (obj_name fmt cfg i))) < two64 -> 0 <= e ->
    cursor_inv e L js lc ->
    scan_object fmt cfg io i js lc = Next js' lc' ->
    cursor_inv e (L + blen (data (io (obj_name fmt cfg i)))) js' lc'.
Proof.
  intros e L i js lc js' lc' HL He Hinv H.
  destruct Hinv as (H1 & H2 & H3 & H4 & H5).
  unfold scan_object in H.
  repeat split_if_in H; try discriminate.
  - inversion H; subst. unfold cursor_inv. simpl. rewrite blen_app.
    repeat split; try assumption; lia.
  - destruct (parse_entries fmt _ _ _) as [[js2 lc2]|] eqn:Hp; [|discriminate].
    inversion H; subst.
    eapply parse_entries_cursor_inv; [exact HL|exact He| |exact Hp].
    unfold cursor_inv. simpl. rewrite blen_app.
    repeat split; try assumption; lia.
Qed.

Lemma scan_objects_cursor_inv :
  forall e fuel L i last (js : JS) lc r js',
    L + bytes_read fmt cfg io fuel i last < two64 -> 0 <= e ->
    cursor_inv e L js lc ->
    scan_objects fmt cfg fuel io i last js lc = Returned r js' ->
    keys (events js') = events_valid js'
    /\ StronglySorted Z.lt (events_valid js')
    /\ Forall (fun k => e <= k < L + bytes_read fmt cfg io fuel i last) (events_valid js').
Proof.
  intros e. induction fuel as [|fuel IH];
    intros L i last js lc r js' HL He Hinv H;
    cbn [scan_objects bytes_read] in *.
  - destruct (i <=? last); [discriminate|].
    unfold finish_scan in H. inversion H; subst.
    destruct Hinv as (H1 & H2 & H3 & H4 & H5).
    pose proof (blen_nonneg (read_buf lc)).
    destruct (gap lc); simpl; (split; [exact H3|]; split; [exact H4|]);
      (eapply Forall_impl; [|exact H5]); cbv beta; intros; lia.
  - destruct (i <=? last).
    + destruct (scan_object fmt cfg io i js lc) as [js1 lc1|o] eqn:Hs.
      2:{ exfalso. eapply scan_object_stop; [exact Hs|exact H]. }
      pose proof (bytes_read_nonneg fuel (wrap64 (i + 1)) last) as Hnn.
      apply scan_object_cursor_inv with (e := e) (L := L) in Hs;
        [|lia|exact He|exact Hinv].
      eapply IH in H; [|exact (eq_ind _ (fun x => x < two64) HL _
                                  (Z.add_assoc _ _ _))|exact He|exact Hs].
      destruct H as (K1 & K2 & K3).
      split; [exact K1|]. split; [exact K2|].
      eapply Forall_impl; [|exact K3]. cbv beta; intros; lia.
    + unfold finish_scan in H. inversion H; subst.
      destruct Hinv as (H1 & H2 & H3 & H4 & H5).
      pose proof (blen_nonneg (read_buf lc)).
      destruct (gap lc); simpl; (split; [exact H3|]; split; [exact H4|]);
        (eapply Forall_impl; [|exact H5]); cbv beta; intros; lia.
Qed.

End EventKeys.

(** C5, as stated, fails: with a valid header the scan records an event
    under a key that is not below [write_pos]. *)
Lemma event_key_not_below_write_pos :
  scan ex_fmt ex_cfg 1 ex_cluster_lagging_header (new_scanner (list byte))
  = Returned 0 ex_report_lagging_header
  /\ header_valid ex_report_lagging_header = true
  /\ header ex_report_lagging_header
     = Some (ex_header "ceph fs volume v011" 64 64 86)
  /\ In 86 (keys (events ex_report_lagging_header))
  /\ write_pos (ex_header "ceph fs volume v011" 64 64 86) <= 86.
Proof.
  split; [vm_compute; reflexivity|].
  split; [reflexivity|]. split; [reflexivity|].
  split; [simpl; auto|]. simpl. lia.
Qed.

(** C5, amended.  After a scan that ran to its end the keys of [events],
    in iteration order, are strictly ascending.  As long as the stream
    read does not run past 2^64 ([expire_pos] plus the bytes of the
    objects read stays below it), the keys are the offsets of
    [events_valid] in the order recorded, and every key [k] satisfies
    [expire_pos <= k < expire_pos + bytes read].  The scanner never
    compares an offset with [write_pos]. *)
Theorem event_keys_ascending_from_expire_pos :
  forall (E : Type) (fmt : Format E) (cfg : Config) (fuel : nat)
         (cl : Cluster) (js' : JournalScanner E) (h : Header),
    scan fmt cfg fuel cl (new_scanner E) = Returned 0 js' ->
    header js' = Some h ->
    0 <= expire_pos h ->
    StronglySorted Z.lt (keys (events js'))
    /\ (expire_pos h
        + bytes_read fmt cfg (io cl) fuel
            (expire_pos h / object_size fmt cfg)
            (write_pos h / object_size fmt cfg) < two64 ->
        keys (events js') = events_valid js'
        /\ Forall
             (fun k =>
                expire_pos h <= k
                < expire_pos h
                  + bytes_read fmt cfg (io cl) fuel
                      (expire_pos h / object_size fmt cfg)
                      (write_pos h / object_size fmt cfg))
             (keys (events js'))).
Proof.
  intros E fmt cfg fuel cl js' h H Hh He.
  apply scan_returned_0 in H.
  destruct (scan_header_keeps_lists E fmt cfg (io cl) (new_scanner E))
    as (_ & _ & _ & Hev0 & Hm0).
  set (js1 := snd (scan_header fmt cfg (io cl) (new_scanner E))) in *.
  simpl in Hev0, Hm0.
  pose proof (scan_events_same_header fmt cfg _ _ _ _ _ H) as (Hh1 & _).
  unfold scan_events in H. rewrite <- Hh1, Hh in H.
  destruct (object_size fmt cfg =? 0); [discriminate|].
  split.
  - eapply (scan_objects_events_preserved fmt cfg (io cl)
              (fun m => StronglySorted Z.lt (keys m))); [|exact H|].
    + intros k v m. apply map_assign_sorted.
    + rewrite Hm0. constructor.
  - intros Hnowrap.
    eapply scan_objects_cursor_inv with (e := expire_pos h) in H;
      [|exact Hnowrap|exact He|].
    + destruct H as (K1 & K2 & K3). split; [exact K1|].
      rewrite K1. exact K3.
    + unfold cursor_inv. cbn [read_offset read_buf]. rewrite Hm0, Hev0.
      unfold blen. simpl.
      repeat split; try constructor; lia.
Qed.

(** C5, amended, at [ex_cluster_lagging_header]: 44 bytes are read from
    offset 64, the keys are 64 and 86. *)
Lemma event_keys_ascending_from_expire_pos_witness :
  expire_pos (ex_header "ceph fs volume v011" 64 64 86)
  + bytes_read ex_fmt ex_cfg (io ex_cluster_lagging_header) 1
      (expire_pos (ex_header "ceph fs volume v011" 64 64 86)
       / object_size ex_fmt ex_cfg)
      (write_pos (ex_header "ceph fs volume v011" 64 64 86)
       / object_size ex_fmt ex_cfg) < two64
  /\ (StronglySorted Z.lt (keys (events ex_report_lagging_header))
      /\ (expire_pos (ex_header "ceph fs volume v011" 64 64 86)
          + bytes_read ex_fmt ex_cfg (io ex_cluster_lagging_header) 1
              (expire_pos (ex_header "ceph fs volume v011" 64 64 86)
               / object_size ex_fmt ex_cfg)
              (write_pos (ex_header "ceph fs volume v011" 64 64 86)
               / object_size ex_fmt ex_cfg) < two64 ->
          keys (events ex_report_lagging_header)
          = events_valid ex_report_lagging_header
          /\ Forall
               (fun k =>
                  expire_pos (ex_header "ceph fs volume v011" 64 64 86) <= k
                  < expire_pos (ex_header "ceph fs volume v011" 64 64 86)
                    + bytes_read ex_fmt ex_cfg (io ex_cluster_lagging_header) 1
                        (expire_pos (ex_header "ceph fs volume v011" 64 64 86)
                         / object_size ex_fmt ex_cfg)
                        (write_pos (ex_header "ceph fs volume v011" 64 64 86)
                         / object_size ex_fmt ex_cfg))
               (keys (events ex_report_lagging_header)))).
Proof.
  split.
  - vm_compute. reflexivity.
  - apply (event_keys_ascending_from_expire_pos (list byte) ex_fmt ex_cfg 1
             ex_cluster_lagging_header ex_report_lagging_header
             (ex_header "ceph fs volume v011" 64 64 86)).
    + vm_compute. reflexivity.
    + reflexivity.
    + vm_compute. discriminate.
Defined.

(* ------------------------------------------------------------------ *)
(** ** Files and striped writes *)

Lemma file_write_nth_same :
  forall f off b, nth off (file_write f off [b]) x00 = b.
Proof.
  intros f off b. unfold file_write.
  rewrite app_nth2; rewrite length_firstn, length_app, repeat_length.
  - replace (off - Nat.min off (List.length f + (off - List.length f)))%nat
      with 0%nat by lia.
    reflexivity.
  - lia.
Qed.

Lemma file_write_nth_other :
  forall f off b i, i <> off ->
    nth i (file_write f off [b]) x00 = nth i f x00.
Proof.
  intros f off b i Hne. unfold file_write.
  assert (Hlen : List.length
                   (firstn off (f ++ repeat x00 (off - List.length f))) = off).
  { rewrite length_firstn, length_app, repeat_length. lia. }
  destruct (Nat.lt_ge_cases i off) as [Hlt|Hge].
  - rewrite app_nth1 by lia.
    rewrite nth_firstn.
    assert (Hb : (i <? off)%nat = true) by (apply Nat.ltb_lt; exact Hlt).
    rewrite Hb.
    destruct (Nat.lt_ge_cases i (List.length f)) as [Hin|Hout].
    + apply app_nth1. exact Hin.
    + rewrite app_nth2 by lia. rewrite nth_repeat.
      symmetry. apply nth_overflow. lia.
  - rewrite app_nth2 by lia. rewrite Hlen.
    destruct (i - off)%nat as [|k] eqn:Hk; [lia|].
    cbn [app nth]. rewrite nth_skipn. f_equal. simpl. lia.
Qed.

Section Filer.

Variable S : Z.
Hypothesis S_pos : 0 < S.

Lemma read_write_byte_same :
  forall p pos b, 0 <= pos ->
    read_byte S (write_byte S p pos b) pos = b.
Proof.
  intros p pos b Hpos. unfold read_byte, write_byte.
  rewrite Z.eqb_refl. apply file_write_nth_same.
Qed.

Lemma read_write_byte_other :
  forall p pos b q, 0 <= pos -> 0 <= q -> q <> pos ->
    read_byte S (write_byte S p pos b) q = read_byte S p q.
Proof.
  intros p pos b q Hpos Hq Hne. unfold read_byte, write_byte.
  destruct (q / S =? pos / S) eqn:Hobj; [|reflexivity].
  apply Z.eqb_eq in Hobj.
  assert (Hoff : Z.to_nat (q mod S) <> Z.to_nat (pos mod S)).
  { pose proof (Z.mod_pos_bound q S S_pos).
    pose proof (Z.mod_pos_bound pos S S_pos).
    pose proof (Z.div_mod q S). pose proof (Z.div_mod pos S).
    intros Heq. apply Z2Nat.inj in Heq; [|lia|lia].
    apply Hne. rewrite H1, H2, Hobj, Heq by lia. reflexivity. }
  rewrite file_write_nth_other by exact Hoff.
  destruct (p (q / S)) as [c|].
  - reflexivity.
  - destruct (Z.to_nat (q mod S)); reflexivity.
Qed.

Lemma filer_write_app :
  forall a b p pos,
    filer_write S p pos (a ++ b)
    = filer_write S (filer_write S p pos a) (pos + blen a) b.
Proof.
  induction a as [|x a IH]; intros b p pos.
  - simpl. unfold blen. simpl. rewrite Z.add_0_r. reflexivity.
  - cbn [app filer_write]. rewrite IH. f_equal.
    unfold blen. cbn [List.length]. lia.
Qed.

(** Bytes below the written range are left alone. *)
Lemma read_below_filer_write :
  forall bl p pos q, 0 <= q < pos ->
    read_byte S (filer_write S p pos bl) q = read_byte S p q.
Proof.
  induction bl as [|b bl IH]; intros p pos q Hq; cbn [filer_write].
  - reflexivity.
  - rewrite IH by lia. apply read_write_byte_other; lia.
Qed.

(** What was written is read back. *)
Lemma filer_read_write :
  forall bl p pos, 0 <= pos ->
    filer_read S (filer_write S p pos bl) pos (List.length bl) = bl.
Proof.
  induction bl as [|b bl IH]; intros p pos Hpos.
  - reflexivity.
  - unfold filer_read. cbn [List.length seq map filer_write].
    rewrite Z.add_0_r. f_equal.
    + rewrite read_below_filer_write by lia.
      apply read_write_byte_same. exact Hpos.
    + rewrite <- seq_shift, map_map.
      rewrite <- (IH (write_byte S p pos b) (pos + 1)) at 2 by lia.
      unfold filer_read. apply map_ext. intros k.
      f_equal. lia.
Qed.

(** A write at or above [S] leaves object 0 alone. *)
Lemma filer_write_object_0 :
  forall bl p pos, S <= pos -> filer_write S p pos bl 0 = p 0.
Proof.
  induction bl as [|b bl IH]; intros p pos Hpos; cbn [filer_write].
  - reflexivity.
  - rewrite IH by lia. unfold write_byte.
    assert (H : 1 <= pos / S) by (apply Z.div_le_lower_bound; lia).
    destruct (0 =? pos / S) eqn:He; [apply Z.eqb_eq in He; lia|reflexivity].
Qed.

End Filer.

(* ------------------------------------------------------------------ *)
(** ** Characters of printed numbers *)

Lemma digit_char_hex : forall d, is_hex_char (digit_char d) = true.
Proof.
  intros d. unfold digit_char.
  destruct (Z.to_nat d) as [|n]; [reflexivity|].
  do 15 (destruct n as [|n]; [reflexivity|]).
  destruct n; reflexivity.
Qed.

(** Two characters that a class tells apart differ. *)
Lemma class_neq : forall (P : byte -> bool) n c,
  P c = true -> P n = false -> Byte.eqb n c = false.
Proof.
  intros P n c Hc Hn. destruct (Byte.eqb n c) eqn:He; [|reflexivity].
  apply Byte.byte_dec_bl in He. subst. congruence.
Qed.

Lemma class_neq_l : forall (P : byte -> bool) n c,
  P n = true -> P c = false -> Byte.eqb n c = false.
Proof.
  intros P n c Hn Hc. destruct (Byte.eqb n c) eqn:He; [|reflexivity].
  apply Byte.byte_dec_bl in He. subst. congruence.
Qed.

Lemma digits_Forall : forall (P : byte -> Prop) base n v,
  (forall d, P (digit_char d)) -> Forall P (digits base n v).
Proof.
  intros P base n. induction n as [|n IH]; intros v HP; cbn [digits].
  - constructor.
  - apply Forall_app. split; [apply IH; exact HP|].
    constructor; [apply HP|constructor].
Qed.

Lemma digits_decimal : forall n v,
  Forall (fun c => isdigit c = true) (digits 10 n v).
Proof.
  induction n as [|n IH]; intros v; cbn [digits].
  - constructor.
  - apply Forall_app. split; [apply IH|].
    constructor; [|constructor].
    apply isdigit_digit_char. apply Z.mod_pos_bound. lia.
Qed.

Lemma strip_zeros_Forall : forall (P : byte -> Prop) w ds,
  Forall P ds -> Forall P (strip_zeros w ds).
Proof.
  intros P w ds. induction ds as [|d ds IH]; intros H; cbn [strip_zeros].
  - constructor.
  - destruct (Nat.ltb w (List.length (d :: ds)) && Byte.eqb d x30)%bool.
    + inversion H; subst. apply IH. assumption.
    + exact H.
Qed.

Lemma digits_length : forall base n v, List.length (digits base n v) = n.
Proof.
  intros base n. induction n as [|n IH]; intros v; cbn [digits].
  - reflexivity.
  - rewrite length_app, IH. simpl. lia.
Qed.

Lemma strip_zeros_length : forall w ds,
  (Nat.min w (List.length ds) <= List.length (strip_zeros w ds)
   <= List.length ds)%nat.
Proof.
  intros w ds. induction ds as [|d ds IH]; cbn [strip_zeros].
  - simpl. lia.
  - destruct (Nat.ltb w (List.length (d :: ds)) && Byte.eqb d x30)%bool eqn:Hc.
    + apply andb_true_iff in Hc. destruct Hc as [Hc _].
      apply Nat.ltb_lt in Hc. cbn [List.length] in *. lia.
    + lia.
Qed.

Lemma fmt_llu_chars : forall v,
  exists d ds, fmt_llu v = d :: ds
               /\ isdigit d = true /\ Forall (fun c => isdigit c = true) ds.
Proof.
  intros v. unfold fmt_llu.
  pose proof (strip_zeros_length 1 (digits 10 20 v)) as Hl.
  rewrite digits_length in Hl.
  pose proof (strip_zeros_Forall (fun c => isdigit c = true) 1 _
                (digits_decimal 20 v)) as Hf.
  destruct (strip_zeros 1 (digits 10 20 v)) as [|d ds].
  - simpl in Hl. lia.
  - inversion Hf; subst. eauto.
Qed.

Lemma fmt_llu_length : forall v, (List.length (fmt_llu v) <= 20)%nat.
Proof.
  intros v. unfold fmt_llu.
  pose proof (strip_zeros_length 1 (digits 10 20 v)) as Hl.
  rewrite digits_length in Hl. lia.
Qed.

Lemma fmt_llx_chars : forall w v,
  Forall (fun c => is_hex_char c = true) (fmt_llx w v).
Proof.
  intros w v. unfold fmt_llx. apply strip_zeros_Forall.
  apply digits_Forall. exact digit_char_hex.
Qed.

Lemma fmt_llx_length : forall w v, (List.length (fmt_llx w v) <= 16)%nat.
Proof.
  intros w v. unfold fmt_llx.
  pose proof (strip_zeros_length w (digits 16 16 v)) as Hl.
  rewrite digits_length in Hl. lia.
Qed.

Lemma isdigit_int_char : forall c, isdigit c = true -> is_int_char c = true.
Proof.
  intros c H. unfold is_int_char. rewrite H. apply orb_true_r.
Qed.

Lemma fmt_d_chars : forall v,
  exists d ds, fmt_d v = d :: ds
               /\ is_int_char d = true
               /\ Forall (fun c => is_int_char c = true) ds.
Proof.
  intros v. unfold fmt_d.
  pose proof (strip_zeros_length 1 (digits 10 10 (- v))) as Hn.
  pose proof (strip_zeros_length 1 (digits 10 10 v)) as Hp.
  rewrite digits_length in Hn, Hp.
  pose proof (strip_zeros_Forall (fun c => isdigit c = true) 1 _
                (digits_decimal 10 (- v))) as Fn.
  pose proof (strip_zeros_Forall (fun c => isdigit c = true) 1 _
                (digits_decimal 10 v)) as Fp.
  destruct (v <? 0).
  - exists x2d, (strip_zeros 1 (digits 10 10 (- v))).
    split; [reflexivity|]. split; [reflexivity|].
    eapply Forall_impl; [|exact Fn]. apply isdigit_int_char.
  - destruct (strip_zeros 1 (digits 10 10 v)) as [|d ds].
    + simpl in Hp. lia.
    + inversion Fp; subst. exists d, ds.
      split; [reflexivity|]. split; [apply isdigit_int_char; assumption|].
      eapply Forall_impl; [|eassumption]. apply isdigit_int_char.
Qed.

Lemma fmt_d_length : forall v, (List.length (fmt_d v) <= 11)%nat.
Proof.
  intros v. unfold fmt_d.
  pose proof (strip_zeros_length 1 (digits 10 10 (- v))) as Hn.
  pose proof (strip_zeros_length 1 (digits 10 10 v)) as Hp.
  rewrite digits_length in Hn, Hp.
  destruct (v <? 0); cbn [List.length]; lia.
Qed.

(* ------------------------------------------------------------------ *)
(** ** Searching and scanning strings *)

Lemma strstr_cons_neq : forall c s n needle,
  Byte.eqb n c = false ->
  strstr (c :: s) (n :: needle) = strstr s (n :: needle).
Proof. intros c s n needle H. cbn [strstr is_prefix]. rewrite H. reflexivity. Qed.

Lemma strstr_cons_neq2 : forall c c' s n n' needle,
  Byte.eqb n' c' = false ->
  strstr (c :: c' :: s) (n :: n' :: needle)
  = strstr (c' :: s) (n :: n' :: needle).
Proof.
  intros c c' s n n' needle H.
  cbn [strstr is_prefix]. rewrite H, andb_false_r. reflexivity.
Qed.

Lemma strstr_skip : forall pre s n needle,
  Forall (fun c => Byte.eqb n c = false) pre ->
  strstr (pre ++ s) (n :: needle) = strstr s (n :: needle).
Proof.
  induction pre as [|c pre IH]; intros s n needle H.
  - reflexivity.
  - inversion H; subst. cbn [app]. rewrite strstr_cons_neq by assumption.
    apply IH. assumption.
Qed.

Lemma strstr_here : forall s needle,
  is_prefix needle s = true -> strstr s needle = Some s.
Proof. intros s needle H. destruct s; cbn [strstr]; rewrite H; reflexivity. Qed.

Lemma c_str_text : forall text rest,
  Forall (fun c => Byte.eqb c x00 = false) text ->
  c_str (text ++ x00 :: rest) = Some text.
Proof.
  induction text as [|c text IH]; intros rest H.
  - reflexivity.
  - inversion H; subst. cbn [app c_str].
    rewrite H2, IH by assumption. reflexivity.
Qed.

Lemma scan_digits_run : forall ds acc c rest,
  Forall (fun c => isdigit c = true) ds -> isdigit c = false ->
  scan_digits acc (ds ++ c :: rest)
  = digits_value 10 (fun c => byte_val c - 48) acc ds.
Proof.
  induction ds as [|d ds IH]; intros acc c rest Hds Hc.
  - cbn [app scan_digits digits_value]. rewrite Hc. reflexivity.
  - inversion Hds; subst. cbn [app scan_digits digits_value].
    rewrite H1. apply IH; assumption.
Qed.

Lemma fmt_llu_value : forall v, uint64 v ->
  digits_value 10 (fun c => byte_val c - 48) 0 (fmt_llu v) = v.
Proof.
  intros v Hv. unfold fmt_llu.
  rewrite (digits_value_strip_zeros 10 (fun c => byte_val c - 48))
    by reflexivity.
  rewrite (digits_value_digits 10 (fun c => byte_val c - 48)) by
    (try apply decimal_of_digit_char; unfold uint64 in Hv; lia).
  rewrite Z.mod_small; [ring|].
  unfold uint64, two64 in Hv.
  assert (2 ^ 64 < 10 ^ Z.of_nat 20) by reflexivity. lia.
Qed.

Lemma isdigit_not_space : forall c, isdigit c = true -> isspace c = false.
Proof.
  intros c. unfold isdigit, isspace. cbv zeta. intros H.
  apply andb_true_iff in H. destruct H as [H1 H2].
  apply Z.leb_le in H1. apply Z.leb_le in H2.
  apply orb_false_iff. split.
  - apply andb_false_iff. right. apply Z.leb_gt. lia.
  - apply Z.eqb_neq. lia.
Qed.

(** [%llu] reads back what [%llu] printed, up to the next character
    that is not a digit. *)
Lemma scan_llu_fmt_llu : forall v c rest,
  uint64 v -> isdigit c = false ->
  scan_llu (x20 :: fmt_llu v ++ c :: rest) = Some v.
Proof.
  intros v c rest Hv Hc.
  pose proof (fmt_llu_value v Hv) as Hval.
  destruct (fmt_llu_chars v) as (d & ds & Heq & Hd & Hds).
  rewrite Heq in *. unfold scan_llu.
  cbn [skip_space app].
  assert (Hsp : isspace x20 = true) by reflexivity. rewrite Hsp.
  rewrite (isdigit_not_space d Hd).
  assert (Hm : Byte.eqb d x2d = false)
    by (apply (class_neq_l isdigit); [exact Hd|reflexivity]).
  assert (Hp : Byte.eqb d x2b = false)
    by (apply (class_neq_l isdigit); [exact Hd|reflexivity]).
  rewrite Hm, Hp, Hd.
  change (d :: ds ++ c :: rest) with ((d :: ds) ++ c :: rest).
  rewrite scan_digits_run; [|constructor; assumption|exact Hc].
  rewrite Hval. f_equal. unfold uint64, UINT64_MAX in *. lia.
Qed.

(* ------------------------------------------------------------------ *)
(** ** The dump preamble *)

(** Replaces the string constants of the goal by their bytes. *)
Ltac eval_str :=
  repeat match goal with
  | |- context [str ?s] =>
      let t := eval vm_compute in (str s) in change (str s) with t
  end.

Ltac skip_chars := repeat (rewrite strstr_cons_neq by reflexivity).

Lemma nonzero_of_class : forall (P : byte -> bool) l,
  P x00 = false -> Forall (fun c => P c = true) l ->
  Forall (fun c => Byte.eqb c x00 = false) l.
Proof.
  intros P l H0 H. eapply Forall_impl; [|exact H].
  intros c Hc. apply (class_neq_l P); assumption.
Qed.

Lemma Forall_class_neq : forall (P : byte -> bool) n l,
  P n = false -> Forall (fun c => P c = true) l ->
  Forall (fun c => Byte.eqb n c = false) l.
Proof.
  intros P n l Hn H. eapply Forall_impl; [|exact H].
  intros c Hc. apply (class_neq P); assumption.
Qed.

Lemma preamble_text_nonzero : forall rank start len,
  Forall (fun c => Byte.eqb c x00 = false) (preamble_text rank start len).
Proof.
  intros rank start len. unfold preamble_text.
  destruct (fmt_d_chars rank) as (d & ds & Hd & Hd1 & Hd2).
  destruct (fmt_llu_chars start) as (a & az & Ha & Ha1 & Ha2).
  destruct (fmt_llu_chars len) as (b & bz & Hb & Hb1 & Hb2).
  pose proof (fmt_llx_chars 1 start) as Hx.
  pose proof (fmt_llx_chars 1 len) as Hy.
  eval_str.
  repeat (apply Forall_app; split);
    try (repeat constructor; fail).
  - rewrite Hd. apply (nonzero_of_class is_int_char); [reflexivity|].
    constructor; assumption.
  - rewrite Ha. apply (nonzero_of_class isdigit); [reflexivity|].
    constructor; assumption.
  - apply (nonzero_of_class is_hex_char); [reflexivity|exact Hx].
  - rewrite Hb. apply (nonzero_of_class isdigit); [reflexivity|].
    constructor; assumption.
  - apply (nonzero_of_class is_hex_char); [reflexivity|exact Hy].
Qed.

Lemma preamble_text_length : forall rank start len,
  (List.length (preamble_text rank start len) <= 147)%nat.
Proof.
  intros rank start len. unfold preamble_text.
  pose proof (fmt_d_length rank). pose proof (fmt_llu_length start).
  pose proof (fmt_llu_length len). pose proof (fmt_llx_length 1 start).
  pose proof (fmt_llx_length 1 len).
  eval_str. rewrite !length_app. cbn [List.length]. lia.
Qed.

Lemma strstr_start_offset : forall rank start len,
  exists rest,
    strstr (preamble_text rank start len) (str "start offset")
    = Some (str "start offset" ++ x20 :: fmt_llu start ++ x20 :: rest).
Proof.
  intros rank start len. unfold preamble_text.
  destruct (fmt_d_chars rank) as (d & ds & Hd & Hd1 & Hd2).
  rewrite Hd. eval_str. cbn [app].
  skip_chars.
  rewrite strstr_cons_neq2
    by (apply (class_neq is_int_char); [exact Hd1|reflexivity]).
  rewrite strstr_cons_neq
    by (apply (class_neq is_int_char); [exact Hd1|reflexivity]).
  rewrite strstr_skip.
  2:{ apply (Forall_class_neq is_int_char); [reflexivity|exact Hd2]. }
  skip_chars.
  rewrite strstr_here by reflexivity.
  eexists. reflexivity.
Qed.

Lemma strstr_length : forall rank start len,
  exists rest,
    strstr (preamble_text rank start len) (str "length")
    = Some (str "length" ++ x20 :: fmt_llu len ++ x20 :: rest).
Proof.
  intros rank start len. unfold preamble_text.
  destruct (fmt_d_chars rank) as (d & ds & Hd & Hd1 & Hd2).
  destruct (fmt_llu_chars start) as (a & az & Ha & Ha1 & Ha2).
  pose proof (fmt_llx_chars 1 start) as Hx.
  eval_str. cbn [app].
  skip_chars.
  rewrite strstr_skip.
  2:{ rewrite Hd. apply (Forall_class_neq is_int_char); [reflexivity|].
      constructor; assumption. }
  skip_chars.
  rewrite strstr_cons_neq2 by reflexivity.
  skip_chars.
  rewrite strstr_skip.
  2:{ rewrite Ha. apply (Forall_class_neq isdigit); [reflexivity|].
      constructor; assumption. }
  skip_chars.
  rewrite strstr_skip.
  2:{ apply (Forall_class_neq is_hex_char); [reflexivity|exact Hx]. }
  skip_chars.
  rewrite strstr_here by reflexivity.
  eexists. reflexivity.
Qed.

Lemma scan_field_start : forall rank start len old,
  uint64 start ->
  scan_field (strstr (preamble_text rank start len) (str "start offset"))
    (str "start offset") old = Some start.
Proof.
  intros rank start len old Hs.
  destruct (strstr_start_offset rank start len) as (rest & ->).
  unfold scan_field. eval_str. cbn [app List.length skipn].
  rewrite scan_llu_fmt_llu by (try exact Hs; reflexivity). reflexivity.
Qed.

Lemma scan_field_length : forall rank start len old,
  uint64 len ->
  scan_field (strstr (preamble_text rank start len) (str "length"))
    (str "length") old = Some len.
Proof.
  intros rank start len old Hs.
  destruct (strstr_length rank start len) as (rest & ->).
  unfold scan_field. eval_str. cbn [app List.length skipn].
  rewrite scan_llu_fmt_llu by (try exact Hs; reflexivity). reflexivity.
Qed.

Lemma preamble_shape : forall rank start len,
  List.length (preamble rank start len) = 200%nat
  /\ exists tail,
       preamble rank start len = preamble_text rank start len ++ x00 :: tail.
Proof.
  intros rank start len. unfold preamble.
  pose proof (preamble_text_length rank start len) as Hl.
  split.
  - rewrite length_firstn, length_app, repeat_length. lia.
  - rewrite firstn_app, firstn_all2 by lia.
    destruct (200 - List.length (preamble_text rank start len))%nat
      as [|k] eqn:Hk; [lia|].
    change (repeat x00 200) with (x00 :: repeat x00 199).
    cbn [firstn]. eexists. reflexivity.
Qed.

Lemma c_str_preamble : forall rank start len,
  c_str (preamble rank start len) = Some (preamble_text rank start len).
Proof.
  intros rank start len.
  destruct (preamble_shape rank start len) as (_ & tail & ->).
  apply c_str_text. apply preamble_text_nonzero.
Qed.

(** The file [dump] writes when the data starts at or after byte 200. *)
Lemma dumped_file_shape : forall pre s bl,
  List.length pre = 200%nat -> (200 <= s)%nat ->
  firstn 200 (file_write pre s bl) = pre
  /\ (bl <> [] ->
      exists head, file_write pre s bl = head ++ bl
                   /\ List.length head = s).
Proof.
  intros pre s bl Hp Hs. unfold file_write.
  destruct bl as [|b bl].
  - split; [apply firstn_all2; lia|congruence].
  - assert (Hh : List.length
             (firstn s (pre ++ repeat x00 (s - List.length pre))) = s).
    { rewrite length_firstn, length_app, repeat_length. lia. }
    split.
    + rewrite firstn_app, Hh.
      replace (200 - s)%nat with 0%nat by lia.
      rewrite firstn_0, app_nil_r, firstn_firstn.
      replace (Nat.min 200 s) with 200%nat by lia.
      rewrite firstn_app, Hp, Nat.sub_diag, firstn_0, app_nil_r.
      apply firstn_all2. lia.
    + intros _. eexists. split; [|exact Hh].
      rewrite (skipn_all2 pre) by (cbn [List.length]; lia).
      rewrite app_nil_r. reflexivity.
Qed.

Section Chunks.

Variable S : Z.


(** The chunk loop ends within the fuel [undump] gives it. *)
Lemma undump_chunks_total :
  forall fuel f p fpos pos left,
    left <= Z.of_nat fuel * (1024 * 1024) ->
    exists p', undump_chunks fuel f S p fpos pos left = Some p'.
Proof.
  induction fuel as [|fuel IH]; intros f p fpos pos left Hf;
    cbn [undump_chunks].
  - assert (Hle : (0 <? left) = false) by (apply Z.ltb_ge; lia).
    rewrite Hle. eauto.
  - destruct (0 <? left) eqn:Hlt; [|eauto].
    apply Z.ltb_lt in Hlt. apply IH. lia.
Qed.

End Chunks.

(* ------------------------------------------------------------------ *)
(** ** Dump, then undump *)




(* ------------------------------------------------------------------ *)
(** ** Undump of a file without its fields *)

(** C7: undump does not check what [strstr] and [sscanf] return.  With
    the number missing, [start] keeps the value the stack happened to
    hold (4096 here) and the header built from it is written to object
    0; with the line missing, [sscanf] is handed NULL. *)
Theorem undump_without_start_offset :
  (exists p,
     undump ex_fmt 1 (Opened ex_file_no_value) ex_stack empty_pool = Undumped p
     /\ p 0 = Some (Header_encode ex_fmt (undump_header ex_fmt 1 4096 4)))
  /\ strstr (firstn 46 ex_file_no_field) (str "start offset") = None
  /\ undump ex_fmt 1 (Opened ex_file_no_field) ex_stack empty_pool = Undefined.
Proof.
  split; [|split].
  - eexists. split; vm_compute; reflexivity.
  - vm_compute. reflexivity.
  - vm_compute. reflexivity.
Qed.

(* ================================================================== *)
(** * Further properties of the code *)

(* ------------------------------------------------------------------ *)
(** ** Object names *)

Lemma string_of_list_byte_length : forall l,
  String.length (string_of_list_byte l) = List.length l.
Proof.
  induction l as [|b l IH]; [reflexivity|].
  unfold string_of_list_byte in *. cbn [map string_of_list_ascii String.length].
  rewrite IH. reflexivity.
Qed.

(** X1.  [obj_name] never truncates: whatever the rank and the object
    index, the name has between 10 and 33 characters, which with its
    NUL fit the 60 bytes of [header_name]. *)
Theorem obj_name_fits_buffer :
  forall (E : Type) (fmt : Format E) (cfg : Config) (offset : Z),
    (10 <= String.length (obj_name fmt cfg offset) <= 33)%nat.
Proof.
  intros E fmt cfg offset. unfold obj_name.
  rewrite string_of_list_byte_length, !length_app. cbn [List.length].
  unfold fmt_llx.
  pose proof (strip_zeros_length 1
                (digits 16 16 (wrap64 (MDS_INO_LOG_OFFSET fmt + rank cfg)))) as H1.
  pose proof (strip_zeros_length 8 (digits 16 16 offset)) as H2.
  rewrite digits_length in H1, H2. lia.
Qed.

(** A list is cut in one way only at the first occurrence of a
    separator. *)
Lemma split_at_separator :
  forall (sep : byte) a1 b1 a2 b2,
    Forall (fun c => Byte.eqb sep c = false) a1 ->
    Forall (fun c => Byte.eqb sep c = false) a2 ->
    a1 ++ sep :: b1 = a2 ++ sep :: b2 ->
    a1 = a2 /\ b1 = b2.
Proof.
  intros sep.
  assert (Hsep : Byte.eqb sep sep = true) by (apply Byte.byte_dec_lb; reflexivity).
  induction a1 as [|x a1 IH]; intros b1 a2 b2 H1 H2 Heq.
  - destruct a2 as [|y a2].
    + inversion Heq. auto.
    + inversion Heq; subst. apply Forall_inv in H2. congruence.
  - destruct a2 as [|y a2].
    + inversion Heq; subst. apply Forall_inv in H1. congruence.
    + inversion Heq; subst.
      apply Forall_inv_tail in H1. apply Forall_inv_tail in H2.
      destruct (IH b1 a2 b2 H1 H2) as [Ha Hb]; [assumption|].
      subst. auto.
Qed.

(** X2.  Object names identify their object: two names are equal only if
    the journal inodes ([MDS_INO_LOG_OFFSET + rank], as a [uint64_t])
    are equal and the object indices are. *)
Theorem obj_name_identifies_object :
  forall (E : Type) (fmt : Format E) (cfg1 cfg2 : Config) (a b : Z),
    uint64 a -> uint64 b ->
    obj_name fmt cfg1 a = obj_name fmt cfg2 b ->
    wrap64 (MDS_INO_LOG_OFFSET fmt + rank cfg1)
    = wrap64 (MDS_INO_LOG_OFFSET fmt + rank cfg2)
    /\ a = b.
Proof.
  intros E fmt cfg1 cfg2 a b Ha Hb H. unfold obj_name in H.
  apply (f_equal list_byte_of_string) in H.
  rewrite !list_byte_of_string_of_list_byte in H.
  cbn [app] in H.
  apply split_at_separator in H.
  - destruct H as [H1 H2]. split.
    + eapply fmt_llx_inj; [apply wrap64_range|apply wrap64_range|exact H1].
    + eapply fmt_llx_inj; eassumption.
  - apply (Forall_class_neq is_hex_char); [reflexivity|apply fmt_llx_chars].
  - apply (Forall_class_neq is_hex_char); [reflexivity|apply fmt_llx_chars].
Qed.

Lemma obj_name_identifies_object_witness :
  wrap64 (MDS_INO_LOG_OFFSET ex_fmt + rank ex_cfg)
  = wrap64 (MDS_INO_LOG_OFFSET ex_fmt + rank ex_cfg_bytewise)
  /\ 5 = 5.
Proof.
  apply (obj_name_identifies_object (list byte) ex_fmt ex_cfg ex_cfg_bytewise 5 5).
  - vm_compute. split; [discriminate|reflexivity].
  - vm_compute. split; [discriminate|reflexivity].
  - vm_compute. reflexivity.
Defined.

(* ------------------------------------------------------------------ *)
(** ** Entries at the head of the buffer *)

Section Entries.

Context {LogEvent : Type}.
Variable fmt : Format LogEvent.

Let JS := JournalScanner LogEvent.

(** What follows a complete entry does not change how it is read. *)
Lemma entry_prefix_facts :
  forall e X,
    blen e = 8 + 4 + decode_u32 (skipn 8 e) + 8 ->
    decode_u64 (e ++ X) = decode_u64 e
    /\ decode_u32 (skipn 8 (e ++ X)) = decode_u32 (skipn 8 e)
    /\ firstn (Z.to_nat (decode_u32 (skipn 8 e))) (skipn 12 (e ++ X))
       = firstn (Z.to_nat (decode_u32 (skipn 8 e))) (skipn 12 e)
    /\ skipn (Z.to_nat (8 + 4 + decode_u32 (skipn 8 e) + 8)) (e ++ X) = X.
Proof.
  intros e X He.
  pose proof (decode_u32_nonneg (skipn 8 e)) as Hsz.
  assert (Hlen : (20 <= List.length e)%nat) by (unfold blen in He; lia).
  split; [|split; [|split]].
  - unfold decode_u64. rewrite firstn_app.
    replace (8 - List.length e)%nat with 0%nat by lia.
    rewrite firstn_0, app_nil_r. reflexivity.
  - unfold decode_u32. rewrite skipn_app.
    replace (8 - List.length e)%nat with 0%nat by lia.
    rewrite skipn_O, firstn_app, length_skipn.
    replace (4 - (List.length e - 8))%nat with 0%nat by lia.
    rewrite firstn_0, app_nil_r. reflexivity.
  - rewrite skipn_app.
    replace (12 - List.length e)%nat with 0%nat by lia.
    rewrite skipn_O, firstn_app, length_skipn.
    replace (Z.to_nat (decode_u32 (skipn 8 e)) - (List.length e - 12))%nat
      with 0%nat by (unfold blen in He; lia).
    rewrite firstn_0, app_nil_r. reflexivity.
  - replace (Z.to_nat (8 + 4 + decode_u32 (skipn 8 e) + 8))
      with (List.length e) by (unfold blen in He; lia).
    rewrite skipn_app, skipn_all, Nat.sub_diag. reflexivity.
Qed.

(** One turn of the loop on a complete entry with a good sentinel. *)
Lemma parse_entries_entry :
  forall fuel (js : JS) off g gs e X,
    decode_u64 e = sentinel fmt ->
    blen e = 8 + 4 + decode_u32 (skipn 8 e) + 8 ->
    parse_entries fmt (S fuel) js
      {| read_offset := off; read_buf := e ++ X; gap := g; gap_start := gs |}
    = match LogEvent_decode fmt
              (firstn (Z.to_nat (decode_u32 (skipn 8 e))) (skipn 12 e)) with
      | Some le =>
          parse_entries fmt fuel (record_event off le js)
            {| read_offset := wrap64 (off + blen e); read_buf := X;
               gap := g; gap_start := gs |}
      | None =>
          parse_entries fmt fuel js
            {| read_offset := wrap64 (off + 1); read_buf := X;
               gap := true; gap_start := wrap64 (off + 1) |}
      end.
Proof.
  intros fuel js off g gs e X Hs He.
  destruct (entry_prefix_facts e X He) as (F1 & F2 & F3 & F4).
  pose proof (decode_u32_nonneg (skipn 8 e)) as Hsz.
  pose proof (blen_nonneg X) as HX.
  rewrite parse_entries_S. cbn [read_buf read_offset gap gap_start].
  rewrite F1, F2, F3, F4, Hs, Z.eqb_refl, blen_app. cbn [negb].
  assert (C1 : (8 + 4 <=? blen e + blen X) = true) by (apply Z.leb_le; lia).
  assert (C2 : (8 + 4 + decode_u32 (skipn 8 e) + 8 <=? blen e + blen X) = true)
    by (apply Z.leb_le; lia).
  rewrite C1, C2, <- He. reflexivity.
Qed.

(** With fewer than twelve bytes the loop leaves at once. *)
Lemma parse_entries_short :
  forall fuel (js : JS) lc,
    blen (read_buf lc) < 8 + 4 ->
    parse_entries fmt (S fuel) js lc = Some (js, lc).
Proof.
  intros fuel js lc H. rewrite parse_entries_S.
  assert (C : (8 + 4 <=? blen (read_buf lc)) = false) by (apply Z.leb_gt; lia).
  rewrite C. reflexivity.
Qed.

Lemma events_valid_record_entries :
  forall es off (js : JS),
    events_valid (record_entries off es js)
    = events_valid js ++ entry_offsets off (map fst es).
Proof.
  induction es as [|[e le] es IH]; intros off js; cbn [record_entries map fst entry_offsets].
  - rewrite app_nil_r. reflexivity.
  - rewrite IH. cbn [record_event events_valid]. rewrite <- app_assoc. reflexivity.
Qed.

Lemma parse_entries_more_fuel :
  forall fuel (js : JS) lc r,
    parse_entries fmt fuel js lc = Some r ->
    parse_entries fmt (S fuel) js lc = Some r.
Proof.
  induction fuel as [|fuel IH]; intros js lc r H; [discriminate|].
  rewrite parse_entries_S in H. rewrite parse_entries_S.
  repeat split_if_in H; try exact H.
  destruct (LogEvent_decode fmt _) as [le|]; apply IH; exact H.
Qed.

Lemma parse_entries_add_fuel :
  forall n fuel (js : JS) lc r,
    parse_entries fmt fuel js lc = Some r ->
    parse_entries fmt (n + fuel) js lc = Some r.
Proof.
  induction n as [|n IH]; intros fuel js lc r H; [exact H|].
  cbn [Nat.add]. apply parse_entries_more_fuel. apply IH. exact H.
Qed.

(** With enough fuel the result does not depend on the fuel. *)
Lemma parse_entries_fuel_irrelevant :
  forall f1 f2 (js : JS) lc r,
    parse_entries fmt f1 js lc = Some r ->
    (List.length (read_buf lc) < f2)%nat ->
    parse_entries fmt f2 js lc = Some r.
Proof.
  intros f1 f2 js lc r H Hf.
  destruct (parse_entries_total fmt f2 js lc Hf) as (js' & lc' & H2).
  destruct (Nat.le_ge_cases f1 f2) as [Hle|Hle].
  - replace f2 with ((f2 - f1) + f1)%nat by lia.
    apply parse_entries_add_fuel. exact H.
  - pose proof (parse_entries_add_fuel (f1 - f2) _ _ _ _ H2) as H3.
    replace (f1 - f2 + f2)%nat with f1 in H3 by lia. congruence.
Qed.


Lemma parse_entries_resume :
  forall f1 (js : JS) lc js1 lc1 bl f2 r,
    parse_entries fmt f1 js lc = Some (js1, lc1) ->
    gap lc1 = false ->
    parse_entries fmt f2 js1 (append_buf lc1 bl) = Some r ->
    parse_entries fmt (f1 + f2) js (append_buf lc bl) = Some r.
Proof.
  induction f1 as [|f1 IH]; intros js lc js1 lc1 bl f2 r H Hg H2;
    [discriminate|].
  rewrite parse_entries_S in H.
  destruct (8 + 4 <=? blen (read_buf lc)) eqn:C1.
  2:{ inversion H; subst. apply parse_entries_add_fuel. exact H2. }
  destruct (negb (decode_u64 (read_buf lc) =? sentinel fmt)) eqn:C2.
  { inversion H; subst. discriminate. }
  destruct (8 + 4 + decode_u32 (skipn 8 (read_buf lc)) + 8
            <=? blen (read_buf lc)) eqn:C3.
  2:{ inversion H; subst. apply parse_entries_add_fuel. exact H2. }
  apply Z.leb_le in C3.
  apply negb_false_iff in C2. apply Z.eqb_eq in C2.
  pose proof (decode_u32_nonneg (skipn 8 (read_buf lc))) as Hsz.
  set (sz := decode_u32 (skipn 8 (read_buf lc))) in *.
  set (n := Z.to_nat (8 + 4 + sz + 8)) in *.
  (* cut the buffer into the entry at its head and what follows *)
  assert (Hcut : read_buf lc = firstn n (read_buf lc) ++ skipn n (read_buf lc))
    by (symmetry; apply firstn_skipn).
  set (e := firstn n (read_buf lc)) in *.
  set (X := skipn n (read_buf lc)) in *.
  assert (Hle : List.length e = n).
  { unfold e. rewrite length_firstn. unfold blen in C3. lia. }
  assert (He8 : skipn 8 e = firstn (n - 8) (skipn 8 (read_buf lc))).
  { unfold e. apply skipn_firstn_comm. }
  assert (Hsz_e : decode_u32 (skipn 8 e) = sz).
  { unfold decode_u32, sz. rewrite He8, firstn_firstn.
    replace (Nat.min 4 (n - 8)) with 4%nat by lia. reflexivity. }
  assert (Hsent_e : decode_u64 e = sentinel fmt).
  { rewrite <- C2. unfold decode_u64, e. rewrite firstn_firstn.
    replace (Nat.min 8 n) with 8%nat by lia. reflexivity. }
  assert (Hblen_e : blen e = 8 + 4 + decode_u32 (skipn 8 e) + 8).
  { rewrite Hsz_e. unfold blen. rewrite Hle. lia. }
  assert (Hpay : firstn (Z.to_nat sz) (skipn 12 (read_buf lc))
                 = firstn (Z.to_nat (decode_u32 (skipn 8 e))) (skipn 12 e)).
  { rewrite Hsz_e. unfold e. rewrite skipn_firstn_comm, firstn_firstn.
    replace (Nat.min (Z.to_nat sz) (n - 12)) with (Z.to_nat sz) by lia.
    reflexivity. }
  assert (Hbe : blen e = 8 + 4 + sz + 8) by (rewrite Hblen_e, Hsz_e; reflexivity).
  cbn [Nat.add].
  unfold append_buf at 1. rewrite Hcut, <- app_assoc.
  rewrite parse_entries_entry by assumption.
  rewrite <- Hpay, Hbe.
  destruct (LogEvent_decode fmt _) as [le|].
  - apply (IH _ _ _ _ bl f2 r) in H; [|exact Hg|exact H2].
    exact H.
  - exfalso.
    apply parse_entries_keeps_gap in H; [|reflexivity]. congruence.
Qed.

End Entries.

(** X3.  A buffer that holds a run of well-formed entries followed by
    fewer than twelve bytes is parsed whole: every entry is recorded at
    the offset where it begins (the offset of the first plus the lengths
    of those before it), in order; the cursor ends behind the last
    entry, the residue stays in the buffer, and the gap state is left as
    it was. *)
Theorem clean_stream_parsed :
  forall (E : Type) (fmt : Format E) (es : list (list byte * E))
         (fuel : nat) (js : JournalScanner E)
         (off : Z) (g : bool) (gs : Z) (tail : list byte),
    Forall (fun p => good_entry fmt (fst p) (snd p)) es ->
    blen tail < 8 + 4 ->
    (List.length es < fuel)%nat ->
    parse_entries fmt fuel js
      {| read_offset := off; read_buf := List.concat (map fst es) ++ tail;
         gap := g; gap_start := gs |}
    = Some (record_entries off es js,
            {| read_offset := end_offset off (map fst es); read_buf := tail;
               gap := g; gap_start := gs |})
    /\ events_valid (record_entries off es js)
       = events_valid js ++ entry_offsets off (map fst es).
Proof.
  intros E fmt es fuel js off g gs tail Hes Htail Hfuel.
  split; [|apply events_valid_record_entries].
  revert fuel js off Hes Hfuel.
  induction es as [|[e le] es IH]; intros fuel js off Hes Hfuel.
  - destruct fuel as [|fuel]; [simpl in Hfuel; lia|].
    cbn [map List.concat app record_entries end_offset].
    apply parse_entries_short. exact Htail.
  - destruct fuel as [|fuel]; [simpl in Hfuel; lia|].
    inversion Hes as [|? ? Hg Hrest]; subst.
    destruct Hg as (Hs & He & Hd). cbn [fst snd] in *.
    cbn [map List.concat fst record_entries end_offset].
    rewrite <- app_assoc.
    rewrite parse_entries_entry by assumption.
    rewrite Hd. apply IH; [exact Hrest|].
    cbn [List.length] in Hfuel. lia.
Qed.

Lemma clean_stream_parsed_witness :
  parse_entries ex_fmt 3 (new_scanner (list byte))
    {| read_offset := 64;
       read_buf := List.concat (map fst ex_two_entries) ++ [];
       gap := false; gap_start := UINT64_MAX |}
  = Some (record_entries 64 ex_two_entries (new_scanner (list byte)),
          {| read_offset := end_offset 64 (map fst ex_two_entries);
             read_buf := []; gap := false; gap_start := UINT64_MAX |})
  /\ events_valid (record_entries 64 ex_two_entries (new_scanner (list byte)))
     = events_valid (new_scanner (list byte))
       ++ entry_offsets 64 (map fst ex_two_entries).
Proof.
  apply (clean_stream_parsed (list byte) ex_fmt ex_two_entries 3
           (new_scanner (list byte)) 64 false UINT64_MAX []).
  - repeat constructor.
  - vm_compute. reflexivity.
  - simpl. lia.
Defined.

(** X4.  An entry that is well framed but whose payload
    [LogEvent::decode] rejects is spliced off whole while [read_offset]
    goes up by one only: the entry behind it is recorded at [off + 1],
    not at the offset where it begins, and the gap flag is set with
    [gap_start = off + 1]. *)
Theorem decode_failure_shifts_offsets :
  forall (E : Type) (fmt : Format E) (fuel : nat) (js : JournalScanner E)
         (off : Z) (g : bool) (gs : Z)
         (bad e : list byte) (le : E) (tail : list byte),
    decode_u64 bad = sentinel fmt ->
    blen bad = 8 + 4 + decode_u32 (skipn 8 bad) + 8 ->
    LogEvent_decode fmt
      (firstn (Z.to_nat (decode_u32 (skipn 8 bad))) (skipn 12 bad)) = None ->
    good_entry fmt e le ->
    blen tail < 8 + 4 ->
    parse_entries fmt (S (S (S fuel))) js
      {| read_offset := off; read_buf := bad ++ e ++ tail;
         gap := g; gap_start := gs |}
    = Some (record_event (wrap64 (off + 1)) le js,
            {| read_offset := wrap64 (wrap64 (off + 1) + blen e);
               read_buf := tail;
               gap := true; gap_start := wrap64 (off + 1) |}).
Proof.
  intros E fmt fuel js off g gs bad e le tail Hs Hb Hd (Hes & Hee & Hed) Htail.
  rewrite parse_entries_entry by assumption. rewrite Hd.
  rewrite parse_entries_entry by assumption. rewrite Hed.
  apply parse_entries_short. exact Htail.
Qed.

Lemma decode_failure_shifts_offsets_witness :
  parse_entries ex_fmt 3 (new_scanner (list byte))
    {| read_offset := 64;
       read_buf := ex_bad_payload_entry ++ ex_entry [x01; x03] 86 ++ [];
       gap := false; gap_start := UINT64_MAX |}
  = Some (record_event (wrap64 (64 + 1)) [x01; x03] (new_scanner (list byte)),
          {| read_offset :=
               wrap64 (wrap64 (64 + 1) + blen (ex_entry [x01; x03] 86));
             read_buf := [];
             gap := true; gap_start := wrap64 (64 + 1) |}).
Proof.
  apply (decode_failure_shifts_offsets (list byte) ex_fmt 0
           (new_scanner (list byte)) 64 false UINT64_MAX ex_bad_payload_entry
           (ex_entry [x01; x03] 86) [x01; x03] []).
  - reflexivity.
  - reflexivity.
  - reflexivity.
  - repeat split.
  - vm_compute. reflexivity.
Defined.

(** X5.  Where an object ends does not matter to the parsing loop: if
    parsing what the buffer holds leaves [(js1, lc1)] outside the gap
    state, then parsing the buffer with the bytes of the next object
    appended gives, from the start, what parsing gives from
    [(js1, lc1)] with the same bytes appended. *)
Theorem object_boundary_is_invisible :
  forall (E : Type) (fmt : Format E) (js : JournalScanner E) (lc : Locals)
         (js1 : JournalScanner E) (lc1 : Locals) (bl : list byte),
    parse_entries fmt (S (List.length (read_buf lc))) js lc = Some (js1, lc1) ->
    gap lc1 = false ->
    parse_entries fmt (S (List.length (read_buf lc ++ bl))) js (append_buf lc bl)
    = parse_entries fmt (S (List.length (read_buf lc1 ++ bl))) js1
        (append_buf lc1 bl).
Proof.
  intros E fmt js lc js1 lc1 bl H Hg.
  destruct (parse_entries_total fmt (S (List.length (read_buf lc1 ++ bl))) js1
              (append_buf lc1 bl)) as (js2 & lc2 & H2).
  { cbn [append_buf read_buf]. lia. }
  rewrite H2.
  eapply parse_entries_fuel_irrelevant.
  - eapply parse_entries_resume; [exact H|exact Hg|exact H2].
  - cbn [append_buf read_buf]. lia.
Qed.

Lemma object_boundary_is_invisible_witness :
  parse_entries ex_fmt
    (S (List.length
          (firstn 30 (List.concat (map fst ex_two_entries))
           ++ skipn 30 (List.concat (map fst ex_two_entries)))))
    (new_scanner (list byte))
    (append_buf
       {| read_offset := 64;
          read_buf := firstn 30 (List.concat (map fst ex_two_entries));
          gap := false; gap_start := UINT64_MAX |}
       (skipn 30 (List.concat (map fst ex_two_entries))))
  = parse_entries ex_fmt
      (S (List.length
            (skipn 22 (firstn 30 (List.concat (map fst ex_two_entries)))
             ++ skipn 30 (List.concat (map fst ex_two_entries)))))
      (record_event 64 [x01; x02] (new_scanner (list byte)))
      (append_buf
         {| read_offset := 86;
            read_buf := skipn 22 (firstn 30 (List.concat (map fst ex_two_entries)));
            gap := false; gap_start := UINT64_MAX |}
         (skipn 30 (List.concat (map fst ex_two_entries)))).
Proof.
  apply (object_boundary_is_invisible (list byte) ex_fmt
           (new_scanner (list byte))
           {| read_offset := 64;
              read_buf := firstn 30 (List.concat (map fst ex_two_entries));
              gap := false; gap_start := UINT64_MAX |}
           (record_event 64 [x01; x02] (new_scanner (list byte)))
           {| read_offset := 86;
              read_buf := skipn 22 (firstn 30 (List.concat (map fst ex_two_entries)));
              gap := false; gap_start := UINT64_MAX |}
           (skipn 30 (List.concat (map fst ex_two_entries)))).
  - vm_compute. reflexivity.
  - reflexivity.
Defined.

(* ------------------------------------------------------------------ *)
(** ** The report of a finished scan *)

Section FinishedScan.

Context {LogEvent : Type}.
Variable fmt : Format LogEvent.
Variable cfg : Config.
Variable io : IoCtx.

Let JS := JournalScanner LogEvent.

Lemma scan_object_gap :
  forall i (js : JS) lc js' lc',
    scan_object fmt cfg io i js lc = Next js' lc' ->
    ranges_invalid js' = ranges_invalid js
    /\ ((rc (io (obj_name fmt cfg i)) < 0 /\ gap lc' = true
         /\ objects_missing js' = objects_missing js ++ [i])
        \/ (0 <= rc (io (obj_name fmt cfg i)) /\ gap lc = false
            /\ objects_missing js' = objects_missing js)).
Proof.
  intros i js lc js' lc' H. unfold scan_object in H.
  destruct (rc (io (obj_name fmt cfg i)) <? 0) eqn:Hrc.
  - apply Z.ltb_lt in Hrc. inversion H; subst. simpl. auto.
  - apply Z.ltb_ge in Hrc.
    destruct (gap lc) eqn:Hg; [discriminate|].
    destruct (parse_entries fmt _ _ _) as [[js2 lc2]|] eqn:Hp; [|discriminate].
    inversion H; subst.
    apply parse_entries_same_objects in Hp.
    destruct Hp as (_ & _ & _ & _ & Hm & Hr). simpl in *. auto.
Qed.

(** The object loop adds at most one range, open at its end, and adds
    one whenever it listed an object as missing or started in the gap
    state. *)
Lemma scan_objects_ranges :
  forall fuel i last (js : JS) lc r js',
    scan_objects fmt cfg fuel io i last js lc = Returned r js' ->
    exists (final_gap : bool) (g : Z) (M : list Z),
      ranges_invalid js'
      = ranges_invalid js ++ (if final_gap then [(g, UINT64_MAX)] else [])
      /\ objects_missing js' = objects_missing js ++ M
      /\ (gap lc = true \/ M <> [] -> final_gap = true).
Proof.
  induction fuel as [|fuel IH]; intros i last js lc r js' H;
    cbn [scan_objects] in H.
  - destruct (i <=? last); [discriminate|].
    unfold finish_scan in H. inversion H; subst.
    exists (gap lc), (gap_start lc), [].
    destruct (gap lc); simpl; rewrite ?app_nil_r;
      repeat split; intros [Hg|Hm]; congruence.
  - destruct (i <=? last).
    + destruct (scan_object fmt cfg io i js lc) as [js1 lc1|o] eqn:Hs.
      2:{ exfalso. eapply scan_object_stop; [exact Hs|exact H]. }
      apply IH in H. destruct H as (fg & g & M & Hr & Hm & Hgap).
      apply scan_object_gap in Hs.
      destruct Hs as (Hr1 & [(Hrc & Hg1 & Hm1)|(Hrc & Hg0 & Hm1)]).
      * exists fg, g, (i :: M). rewrite Hr, Hr1, Hm, Hm1, <- app_assoc.
        repeat split. intros _. apply Hgap. left. exact Hg1.
      * exists fg, g, M. rewrite Hr, Hr1, Hm, Hm1.
        repeat split. intros [Hg|HM]; [congruence|].
        apply Hgap. right. exact HM.
    + unfold finish_scan in H. inversion H; subst.
      exists (gap lc), (gap_start lc), [].
      destruct (gap lc); simpl; rewrite ?app_nil_r;
        repeat split; intros [Hg|Hm]; congruence.
Qed.

(** In the gap state the loop returns only if every read that is left
    fails. *)
Lemma scan_objects_in_gap :
  forall fuel i last (js : JS) lc r js',
    gap lc = true -> uint64 i -> last < UINT64_MAX ->
    scan_objects fmt cfg fuel io i last js lc = Returned r js' ->
    forall k, i <= k <= last -> rc (io (obj_name fmt cfg k)) < 0.
Proof.
  induction fuel as [|fuel IH]; intros i last js lc r js' Hg Hi Hlast H k Hk;
    cbn [scan_objects] in H.
  - assert (Hle : (i <=? last) = true) by (apply Z.leb_le; lia).
    rewrite Hle in H. discriminate.
  - assert (Hle : (i <=? last) = true) by (apply Z.leb_le; lia).
    rewrite Hle in H.
    destruct (scan_object fmt cfg io i js lc) as [js1 lc1|o] eqn:Hs.
    2:{ exfalso. eapply scan_object_stop; [exact Hs|exact H]. }
    apply scan_object_gap in Hs.
    destruct Hs as (_ & [(Hrc & Hg1 & _)|(_ & Hg0 & _)]); [|congruence].
    destruct (Z.eq_dec k i) as [->|Hne]; [exact Hrc|].
    assert (Hw : wrap64 (i + 1) = i + 1)
      by (apply wrap64_small; unfold uint64, UINT64_MAX in *; lia).
    rewrite Hw in H.
    eapply IH; [exact Hg1| |exact Hlast|exact H|lia].
    unfold uint64, UINT64_MAX in *. lia.
Qed.

(** After a read that failed, the loop returns only if every later read
    fails too. *)
Lemma scan_objects_failures_are_a_tail :
  forall fuel i last (js : JS) lc r js',
    uint64 i -> last < UINT64_MAX ->
    scan_objects fmt cfg fuel io i last js lc = Returned r js' ->
    forall a b, i <= a -> a < b <= last ->
      rc (io (obj_name fmt cfg a)) < 0 -> rc (io (obj_name fmt cfg b)) < 0.
Proof.
  induction fuel as [|fuel IH]; intros i last js lc r js' Hi Hlast H a b Ha Hb Hrc;
    cbn [scan_objects] in H.
  - assert (Hle : (i <=? last) = true) by (apply Z.leb_le; lia).
    rewrite Hle in H. discriminate.
  - assert (Hle : (i <=? last) = true) by (apply Z.leb_le; lia).
    rewrite Hle in H.
    destruct (scan_object fmt cfg io i js lc) as [js1 lc1|o] eqn:Hs.
    2:{ exfalso. eapply scan_object_stop; [exact Hs|exact H]. }
    assert (Hw : wrap64 (i + 1) = i + 1)
      by (apply wrap64_small; unfold uint64, UINT64_MAX in *; lia).
    rewrite Hw in H.
    assert (Hi1 : uint64 (i + 1)) by (unfold uint64, UINT64_MAX in *; lia).
    destruct (Z.eq_dec a i) as [->|Hne].
    + apply scan_object_gap in Hs.
      destruct Hs as (_ & [(_ & Hg1 & _)|(Hok & _ & _)]); [|lia].
      eapply scan_objects_in_gap; [exact Hg1|exact Hi1|exact Hlast|exact H|lia].
    + eapply IH; [exact Hi1|exact Hlast|exact H| | |exact Hrc]; lia.
Qed.

(** The object loop has three outcomes. *)
Lemma scan_objects_outcomes :
  forall fuel i last (js : JS) lc,
    scan_objects fmt cfg fuel io i last js lc = OutOfFuel
    \/ scan_objects fmt cfg fuel io i last js lc = Crashed AssertZero
    \/ exists js', scan_objects fmt cfg fuel io i last js lc = Returned 0 js'.
Proof.
  induction fuel as [|fuel IH]; intros i last js lc; cbn [scan_objects].
  - destruct (i <=? last); [auto|]. right. right. unfold finish_scan. eauto.
  - destruct (i <=? last).
    + destruct (scan_object fmt cfg io i js lc) as [js1 lc1|o] eqn:Hs.
      * apply IH.
      * apply scan_object_stop_is_assert in Hs. destruct Hs as (-> & _). auto.
    + right. right. unfold finish_scan. eauto.
Qed.

End FinishedScan.

Lemma scan_header_flags :
  forall (E : Type) (fmt : Format E) (cfg : Config) (io : IoCtx),
    let js1 := snd (scan_header fmt cfg io (new_scanner E)) in
    header_valid js1 = true -> header_present js1 = true.
Proof.
  intros E fmt cfg io. unfold scan_header.
  destruct (rc (io (header_name fmt cfg)) <? 0); [simpl; congruence|].
  destruct (Header_decode fmt _) as [h|h]; [|simpl; auto].
  destruct (negb (String.eqb (magic h) (CEPH_FS_ONDISK_MAGIC fmt)));
    [simpl; auto|].
  destruct (negb _); simpl; auto.
Qed.

Lemma scan_header_valid_inv :
  forall (E : Type) (fmt : Format E) (cfg : Config) (io : IoCtx),
    let js1 := snd (scan_header fmt cfg io (new_scanner E)) in
    header_valid js1 = true ->
    exists h,
      header js1 = Some h
      /\ 0 <= rc (io (header_name fmt cfg))
      /\ Header_decode fmt (data (io (header_name fmt cfg))) = Decoded h
      /\ magic h = CEPH_FS_ONDISK_MAGIC fmt
      /\ trimmed_pos h <= expire_pos h <= write_pos h.
Proof.
  intros E fmt cfg io. unfold scan_header.
  destruct (rc (io (header_name fmt cfg)) <? 0) eqn:Hrc;
    [simpl; congruence|].
  apply Z.ltb_ge in Hrc.
  destruct (Header_decode fmt _) as [h|h] eqn:Hd; [|simpl; congruence].
  destruct (String.eqb_spec (magic h) (CEPH_FS_ONDISK_MAGIC fmt)) as [Hm|Hm];
    cbn [negb]; [|simpl; congruence].
  destruct (trimmed_pos h <=? expire_pos h) eqn:H1;
    [|simpl; congruence].
  destruct (expire_pos h <=? write_pos h) eqn:H2;
    [|simpl; congruence].
  cbn [andb negb snd]. intros _.
  apply Z.leb_le in H1. apply Z.leb_le in H2.
  exists h. simpl. repeat split; auto.
Qed.

(** What [scan] returns is the fresh scanner (a start-up failure) or
    comes out of the object loop run on the scanner [scan_header]
    leaves. *)
Lemma scan_returned_cases :
  forall (E : Type) (fmt : Format E) (cfg : Config) (fuel : nat)
         (cl : Cluster) r (js' : JournalScanner E),
    scan fmt cfg fuel cl (new_scanner E) = Returned r js' ->
    js' = new_scanner E
    \/ exists h lc,
         header (snd (scan_header fmt cfg (io cl) (new_scanner E))) = Some h
         /\ object_size fmt cfg <> 0
         /\ gap lc = false
         /\ scan_objects fmt cfg fuel (io cl)
              (expire_pos h / object_size fmt cfg)
              (write_pos h / object_size fmt cfg)
              (snd (scan_header fmt cfg (io cl) (new_scanner E))) lc
            = Returned 0 js'.
Proof.
  intros E fmt cfg fuel cl r js' H.
  destruct (Z.lt_ge_cases r 0) as [Hneg|Hpos].
  - left. eapply scan_error_only_from_startup in H; [|exact Hneg]. tauto.
  - right.
    assert (Hscan : scan_events fmt cfg fuel (io cl)
                      (snd (scan_header fmt cfg (io cl) (new_scanner E)))
                    = Returned r js').
    { unfold scan in H |- *.
      destruct (rados_init cl <? 0) eqn:Hi.
      { inversion H; subst. apply Z.ltb_lt in Hi. lia. }
      destruct (pool_reverse_lookup cl <? 0) eqn:Hp.
      { inversion H; subst. apply Z.ltb_lt in Hp. lia. }
      destruct (ioctx_create cl =? 0) eqn:Hc; [|discriminate].
      apply Z.ltb_ge in Hi. apply Z.ltb_ge in Hp. apply Z.eqb_eq in Hc.
      rewrite <- (scan_is_scan_events fmt cfg fuel cl (new_scanner E)) by assumption.
      unfold scan. apply Z.ltb_ge in Hi. apply Z.ltb_ge in Hp.
      rewrite Hi, Hp, Hc. exact H. }
    pose proof (scan_events_returns_0 fmt cfg _ _ _ _ _ Hscan) as ->.
    unfold scan_events in Hscan.
    destruct (header _) as [h|] eqn:Hh; [|discriminate].
    destruct (object_size fmt cfg =? 0) eqn:Hz; [discriminate|].
    apply Z.eqb_neq in Hz.
    exists h. eexists. split; [reflexivity|]. split; [exact Hz|].
    split; [|exact Hscan]. reflexivity.
Qed.

Lemma is_healthy_fields :
  forall (E : Type) (js : JournalScanner E),
    is_healthy js = true <->
    (header_present js = true /\ header_valid js = true)
    /\ ranges_invalid js = [] /\ objects_missing js = [].
Proof.
  intros E js. unfold is_healthy. rewrite !andb_true_iff.
  destruct (ranges_invalid js), (objects_missing js); intuition congruence.
Qed.

(** X6.  A scan that returns lists at most one invalid range, and that
    range has no end: [ranges_invalid] is empty or is
    [[(g, UINT64_MAX)]]. *)
Theorem at_most_one_open_range :
  forall (E : Type) (fmt : Format E) (cfg : Config) (fuel : nat)
         (cl : Cluster) (r : Z) (js' : JournalScanner E),
    scan fmt cfg fuel cl (new_scanner E) = Returned r js' ->
    ranges_invalid js' = []
    \/ exists g, ranges_invalid js' = [(g, UINT64_MAX)].
Proof.
  intros E fmt cfg fuel cl r js' H.
  apply scan_returned_cases in H.
  destruct H as [->|(h & lc & _ & _ & _ & H)]; [left; reflexivity|].
  apply scan_objects_ranges in H.
  destruct H as (fg & g & M & Hr & _ & _).
  destruct (scan_header_keeps_lists E fmt cfg (io cl) (new_scanner E))
    as (_ & _ & Hr0 & _).
  rewrite Hr0 in Hr. simpl in Hr.
  destruct fg; [right; exists g; exact Hr|left; exact Hr].
Qed.

Lemma at_most_one_open_range_witness :
  ranges_invalid ex_report_tail_missing = []
  \/ exists g, ranges_invalid ex_report_tail_missing = [(g, UINT64_MAX)].
Proof.
  apply (at_most_one_open_range (list byte) ex_fmt ex_cfg 3
           ex_cluster_tail_missing 0 ex_report_tail_missing).
  vm_compute. reflexivity.
Defined.

(** X7.  After a scan that returns, a missing object always shows as an
    invalid range, and [is_healthy] holds exactly when the header is
    valid and no range is invalid: the tests of [header_present] and of
    [objects_missing] add nothing. *)
Theorem healthy_iff_valid_and_no_range :
  forall (E : Type) (fmt : Format E) (cfg : Config) (fuel : nat)
         (cl : Cluster) (r : Z) (js' : JournalScanner E),
    scan fmt cfg fuel cl (new_scanner E) = Returned r js' ->
    (objects_missing js' <> [] -> ranges_invalid js' <> [])
    /\ (is_healthy js' = true
        <-> header_valid js' = true /\ ranges_invalid js' = []).
Proof.
  intros E fmt cfg fuel cl r js' H.
  assert (Hmiss : objects_missing js' <> [] -> ranges_invalid js' <> []).
  { pose proof H as H0. apply scan_returned_cases in H0.
    destruct H0 as [->|(h & lc & _ & _ & _ & H0)]; [simpl; congruence|].
    apply scan_objects_ranges in H0.
    destruct H0 as (fg & g & M & Hr & Hm & Hgap).
    destruct (scan_header_keeps_lists E fmt cfg (io cl) (new_scanner E))
      as (_ & Hm0 & Hr0 & _).
    rewrite Hr0 in Hr. rewrite Hm0 in Hm. simpl in Hr, Hm.
    intros Hne. rewrite Hm in Hne.
    rewrite (Hgap (or_intror Hne)) in Hr. rewrite Hr. discriminate. }
  assert (Hpres : header_valid js' = true -> header_present js' = true).
  { pose proof H as H0. apply scan_returned_cases in H0.
    destruct H0 as [->|(h & lc & _ & _ & _ & H0)]; [simpl; congruence|].
    apply scan_objects_same_header in H0.
    destruct H0 as (_ & Hp & Hv). rewrite Hp, Hv.
    apply scan_header_flags. }
  split; [exact Hmiss|].
  rewrite is_healthy_fields.
  split.
  - tauto.
  - intros [Hv Hr]. repeat split; auto.
    destruct (objects_missing js') as [|m ms] eqn:Hm; [reflexivity|].
    exfalso. apply Hmiss; [discriminate|exact Hr].
Qed.

Lemma healthy_iff_valid_and_no_range_witness :
  (objects_missing ex_report_tail_missing <> [] ->
   ranges_invalid ex_report_tail_missing <> [])
  /\ (is_healthy ex_report_tail_missing = true
      <-> header_valid ex_report_tail_missing = true
          /\ ranges_invalid ex_report_tail_missing = []).
Proof.
  apply (healthy_iff_valid_and_no_range (list byte) ex_fmt ex_cfg 3
           ex_cluster_tail_missing 0 ex_report_tail_missing).
  vm_compute. reflexivity.
Defined.

(** X8.  In the report of a scan that returned 0 the missing objects are
    a tail of the scanned range: if index [a] is listed as missing, so
    is every index behind it up to the last, [write_pos / object_size].
    (An object that can be read behind a missing one stops the scan at
    [assert(0)].) *)
Theorem missing_objects_are_a_tail :
  forall (E : Type) (fmt : Format E) (cfg : Config) (fuel : nat)
         (cl : Cluster) (js' : JournalScanner E) (h : Header) (a b : Z),
    uint64 (object_size fmt cfg) ->
    header js' = Some h -> header_wf h ->
    scan fmt cfg fuel cl (new_scanner E) = Returned 0 js' ->
    In a (objects_missing js') ->
    a < b <= write_pos h / object_size fmt cfg ->
    In b (objects_missing js').
Proof.
  intros E fmt cfg fuel cl js' h a b HS Hh Hwf H Ha Hb.
  apply scan_returned_cases in H.
  destruct H as [->|(h1 & lc & Hh1 & Hz & _ & H)]; [simpl in Hh; discriminate|].
  pose proof (scan_objects_same_header fmt cfg _ _ _ _ _ _ _ _ H) as (Hhd & _).
  rewrite Hh1, Hh in Hhd. inversion Hhd; subst h1.
  destruct Hwf as (_ & He & Hw).
  set (S := object_size fmt cfg) in *.
  assert (HSpos : 0 < S) by (unfold uint64 in HS; lia).
  assert (Hlo : uint64 (expire_pos h / S)).
  { unfold uint64 in *. split; [apply Z.div_pos; lia|].
    apply Z.div_lt_upper_bound; nia. }
  assert (Hhi : write_pos h / S < UINT64_MAX).
  { destruct (Z.eq_dec (write_pos h / S) UINT64_MAX) as [Heq|Hne].
    - rewrite Heq in H. exfalso.
      eapply scan_objects_last_max; [exact Hlo|exact H].
    - unfold uint64, UINT64_MAX in *.
      assert (write_pos h / S < two64) by (apply Z.div_lt_upper_bound; nia).
      lia. }
  pose proof (scan_objects_failures_are_a_tail fmt cfg _ _ _ _ _ _ _ _ Hlo Hhi H)
    as Htail.
  apply scan_objects_lists in H; [|exact Hlo|exact Hhi].
  destruct H as (P & M & _ & Hm & HP & HM & Hall).
  destruct (scan_header_keeps_lists E fmt cfg (io cl) (new_scanner E))
    as (_ & Hm0 & _).
  rewrite Hm0 in Hm. simpl in Hm. rewrite Hm in *.
  apply HM in Ha. destruct Ha as [Har Harc].
  assert (Hbrc : rc (io cl (obj_name fmt cfg b)) < 0).
  { apply (Htail a b); [lia|lia|exact Harc]. }
  destruct (Hall b) as [Hp|Hmb]; [lia| |exact Hmb].
  apply HP in Hp. lia.
Qed.

Lemma missing_objects_are_a_tail_witness :
  In 3 (objects_missing ex_report_tail_missing).
Proof.
  apply (missing_objects_are_a_tail (list byte) ex_fmt ex_cfg 3
           ex_cluster_tail_missing ex_report_tail_missing
           (ex_header "ceph fs volume v011" 64 64 200) 2 3).
  - vm_compute. split; [discriminate|reflexivity].
  - reflexivity.
  - vm_compute. repeat split; discriminate.
  - vm_compute. reflexivity.
  - simpl. auto.
  - vm_compute. split; [reflexivity|discriminate].
Defined.

(** X9.  [header_valid] after a scan that returns means: the header
    object could be read, its bytes decoded without error to the header
    the report holds, the magic is [CEPH_FS_ONDISK_MAGIC] and
    [trimmed_pos <= expire_pos <= write_pos]; and [header_present] is
    set. *)
Theorem valid_header_is_well_formed :
  forall (E : Type) (fmt : Format E) (cfg : Config) (fuel : nat)
         (cl : Cluster) (r : Z) (js' : JournalScanner E),
    scan fmt cfg fuel cl (new_scanner E) = Returned r js' ->
    header_valid js' = true ->
    header_present js' = true
    /\ exists h,
         header js' = Some h
         /\ 0 <= rc (io cl (header_name fmt cfg))
         /\ Header_decode fmt (data (io cl (header_name fmt cfg))) = Decoded h
         /\ magic h = CEPH_FS_ONDISK_MAGIC fmt
         /\ trimmed_pos h <= expire_pos h <= write_pos h.
Proof.
  intros E fmt cfg fuel cl r js' H Hv.
  apply scan_returned_cases in H.
  destruct H as [->|(h & lc & _ & _ & _ & H)]; [simpl in Hv; discriminate|].
  apply scan_objects_same_header in H.
  destruct H as (Hh & Hp & Hv').
  rewrite Hv' in Hv. rewrite Hp, Hh.
  split; [apply scan_header_flags; exact Hv|].
  apply scan_header_valid_inv. exact Hv.
Qed.

Lemma valid_header_is_well_formed_witness :
  header_present ex_report_tail_missing = true
  /\ exists h,
       header ex_report_tail_missing = Some h
       /\ 0 <= rc (io ex_cluster_tail_missing (header_name ex_fmt ex_cfg))
       /\ Header_decode ex_fmt
            (data (io ex_cluster_tail_missing (header_name ex_fmt ex_cfg)))
          = Decoded h
       /\ magic h = CEPH_FS_ONDISK_MAGIC ex_fmt
       /\ trimmed_pos h <= expire_pos h <= write_pos h.
Proof.
  apply (valid_header_is_well_formed (list byte) ex_fmt ex_cfg 3
           ex_cluster_tail_missing 0 ex_report_tail_missing).
  - vm_compute. reflexivity.
  - reflexivity.
Defined.

(* ------------------------------------------------------------------ *)
(** ** The end of the object loop *)

(** X10.  The object loop ends when its last index is below
    [UINT64_MAX]: given more iterations than the last index is ahead of
    the first, [scan_events] has returned 0 or has stopped at
    [assert(0)]. *)
Theorem scan_events_ends_below_max :
  forall (E : Type) (fmt : Format E) (cfg : Config) (fuel : nat)
         (io : IoCtx) (js : JournalScanner E) (h : Header),
    header js = Some h ->
    uint64 (expire_pos h) ->
    0 < object_size fmt cfg ->
    write_pos h / object_size fmt cfg < UINT64_MAX ->
    write_pos h / object_size fmt cfg - expire_pos h / object_size fmt cfg
    < Z.of_nat fuel ->
    scan_events fmt cfg fuel io js = Crashed AssertZero
    \/ exists js', scan_events fmt cfg fuel io js = Returned 0 js'.
Proof.
  intros E fmt cfg fuel io js h Hh He HS Hmax Hfuel.
  unfold scan_events. rewrite Hh.
  assert (Hz : (object_size fmt cfg =? 0) = false) by (apply Z.eqb_neq; lia).
  rewrite Hz.
  apply scan_objects_enough_fuel; [|exact Hmax|exact Hfuel].
  unfold uint64 in *. split; [apply Z.div_pos; lia|].
  apply Z.div_lt_upper_bound; nia.
Qed.

Lemma scan_events_ends_below_max_witness :
  scan_events ex_fmt ex_cfg 3 (io ex_cluster_tail_missing)
    (ex_scanner_with 64 200) = Crashed AssertZero
  \/ exists js',
       scan_events ex_fmt ex_cfg 3 (io ex_cluster_tail_missing)
         (ex_scanner_with 64 200) = Returned 0 js'.
Proof.
  apply (scan_events_ends_below_max (list byte) ex_fmt ex_cfg 3
           (io ex_cluster_tail_missing) (ex_scanner_with 64 200)
           (ex_header "ceph fs volume v011" 64 64 200)).
  - reflexivity.
  - vm_compute. split; [discriminate|reflexivity].
  - reflexivity.
  - vm_compute. reflexivity.
  - vm_compute. reflexivity.
Defined.

(** X11.  With [write_pos / object_size = UINT64_MAX] the condition
    [obj_offset <= last] holds for every [uint64_t]: however many
    iterations are allowed, [scan_events] has not returned; it is still
    in the loop or has stopped at [assert(0)]. *)
Theorem object_loop_has_no_end_at_max :
  forall (E : Type) (fmt : Format E) (cfg : Config) (fuel : nat)
         (io : IoCtx) (js : JournalScanner E) (h : Header),
    header js = Some h ->
    uint64 (expire_pos h) ->
    0 < object_size fmt cfg ->
    write_pos h / object_size fmt cfg = UINT64_MAX ->
    scan_events fmt cfg fuel io js = OutOfFuel
    \/ scan_events fmt cfg fuel io js = Crashed AssertZero.
Proof.
  intros E fmt cfg fuel io js h Hh He HS Hmax.
  unfold scan_events. rewrite Hh.
  assert (Hz : (object_size fmt cfg =? 0) = false) by (apply Z.eqb_neq; lia).
  rewrite Hz, Hmax.
  match goal with |- ?x = _ \/ _ =>
    destruct (scan_objects_outcomes fmt cfg io fuel
                (expire_pos h / object_size fmt cfg) UINT64_MAX js
                {| read_offset := expire_pos h; read_buf := [];
                   gap := false; gap_start := UINT64_MAX |})
      as [Ho|[Ho|(js' & Ho)]]
  end; [left; exact Ho|right; exact Ho|].
  exfalso. eapply scan_objects_last_max; [|exact Ho].
  unfold uint64 in *. split; [apply Z.div_pos; lia|].
  apply Z.div_lt_upper_bound; nia.
Qed.

Lemma object_loop_has_no_end_at_max_witness :
  scan_events ex_fmt ex_cfg_bytewise 3 (ex_io [] (- ENOENT))
    (ex_scanner_with (UINT64_MAX - 1) UINT64_MAX) = OutOfFuel
  \/ scan_events ex_fmt ex_cfg_bytewise 3 (ex_io [] (- ENOENT))
       (ex_scanner_with (UINT64_MAX - 1) UINT64_MAX) = Crashed AssertZero.
Proof.
  apply (object_loop_has_no_end_at_max (list byte) ex_fmt ex_cfg_bytewise 3
           (ex_io [] (- ENOENT))
           (ex_scanner_with (UINT64_MAX - 1) UINT64_MAX)
           (ex_header "ceph fs volume v011"
              (UINT64_MAX - 1) (UINT64_MAX - 1) UINT64_MAX)).
  - reflexivity.
  - vm_compute. split; [discriminate|reflexivity].
  - reflexivity.
  - vm_compute. reflexivity.
Defined.

(* ------------------------------------------------------------------ *)
(** ** The dump file *)

(** X12.  [sprintf] in [dump] stays inside [buf]: for every rank, start
    and length the text has fewer than 200 characters, so the 200 bytes
    written to the file are the text, its NUL and padding, and read as a
    C string they give the text back. *)
Theorem sprintf_fits_buffer :
  forall rank start len : Z,
    (List.length (preamble_text rank start len) + 1 <= 148)%nat
    /\ List.length (preamble rank start len) = 200%nat
    /\ c_str (preamble rank start len) = Some (preamble_text rank start len).
Proof.
  intros rank start len.
  pose proof (preamble_text_length rank start len).
  destruct (preamble_shape rank start len) as (Hlen & _).
  split; [lia|]. split; [exact Hlen|]. apply c_str_preamble.
Qed.

(** X13.  A journal that starts at or behind byte 200 leaves the
    preamble alone, whether [lseek64] succeeds or not: the data is
    written at [start] or, after a failed seek, at 200.  The first 200
    bytes of the dump file are the preamble, and what [undump]'s
    [strstr] and [sscanf] read from them are [start] and the number of
    bytes read, whatever its locals held before. *)
Theorem dump_preamble_reads_back :
  forall (rank : Z) (j : Journal) (old_start old_len : Z),
    recover_result j = 0 ->
    200 <= get_read_pos j < two64 ->
    blen (journal_read j (get_read_pos j)
            (wrap64 (get_write_pos j - get_read_pos j))) < two64 ->
    exists f text,
      dump rank j true = Some f
      /\ firstn 200 f
         = preamble rank (get_read_pos j)
             (blen (journal_read j (get_read_pos j)
                      (wrap64 (get_write_pos j - get_read_pos j))))
      /\ c_str (firstn 200 f) = Some text
      /\ scan_field (strstr text (str "start offset")) (str "start offset")
           old_start = Some (get_read_pos j)
      /\ scan_field (strstr text (str "length")) (str "length") old_len
         = Some (blen (journal_read j (get_read_pos j)
                         (wrap64 (get_write_pos j - get_read_pos j)))).
Proof.
  intros rank j old_start old_len Hr Hs Hn.
  set (s := get_read_pos j) in *.
  set (bl := journal_read j s (wrap64 (get_write_pos j - s))) in *.
  set (pre := preamble rank s (blen bl)).
  assert (Hpre : List.length pre = 200%nat)
    by (apply (proj1 (preamble_shape rank s (blen bl)))).
  (* the file position after the seek, whether it succeeded or not *)
  assert (Hpos : lseek64 200 s = s \/ lseek64 200 s = 200).
  { unfold lseek64. destruct (s <? 2 ^ 63); auto. }
  assert (Hat : 200 <= lseek64 200 s) by (destruct Hpos as [->| ->]; lia).
  exists (file_write pre (Z.to_nat (lseek64 200 s)) bl),
         (preamble_text rank s (blen bl)).
  assert (Hgot : firstn 200 (file_write pre (Z.to_nat (lseek64 200 s)) bl) = pre).
  { apply dumped_file_shape; [exact Hpre|lia]. }
  split.
  { unfold dump. rewrite Hr. reflexivity. }
  split; [exact Hgot|].
  split; [rewrite Hgot; apply c_str_preamble|].
  pose proof (blen_nonneg bl).
  split.
  - apply scan_field_start. unfold uint64. lia.
  - apply scan_field_length. unfold uint64. lia.
Qed.

Lemma dump_preamble_reads_back_witness :
  exists f text,
    dump 0 (ex_journal 256 260 [x01; x02; x03; x04]) true = Some f
    /\ firstn 200 f
       = preamble 0 (get_read_pos (ex_journal 256 260 [x01; x02; x03; x04]))
           (blen (journal_read (ex_journal 256 260 [x01; x02; x03; x04])
                    (get_read_pos (ex_journal 256 260 [x01; x02; x03; x04]))
                    (wrap64
                       (get_write_pos (ex_journal 256 260 [x01; x02; x03; x04])
                        - get_read_pos (ex_journal 256 260 [x01; x02; x03; x04])))))
    /\ c_str (firstn 200 f) = Some text
    /\ scan_field (strstr text (str "start offset")) (str "start offset") 77
       = Some (get_read_pos (ex_journal 256 260 [x01; x02; x03; x04]))
    /\ scan_field (strstr text (str "length")) (str "length") 78
       = Some
           (blen (journal_read (ex_journal 256 260 [x01; x02; x03; x04])
                    (get_read_pos (ex_journal 256 260 [x01; x02; x03; x04]))
                    (wrap64
                       (get_write_pos (ex_journal 256 260 [x01; x02; x03; x04])
                        - get_read_pos (ex_journal 256 260 [x01; x02; x03; x04]))))).
Proof.
  apply (dump_preamble_reads_back 0 (ex_journal 256 260 [x01; x02; x03; x04])
           77 78).
  - reflexivity.
  - vm_compute. split; [discriminate|reflexivity].
  - vm_compute. reflexivity.
Defined.

(** X14.  A [start] of 2^63 or more is no [off64_t]: [lseek64] fails,
    its result is not looked at, and the data is written where the
    preamble ended.  The file is the preamble followed at once by the
    journal's bytes. *)
Theorem dump_beyond_off_t :
  forall (rank : Z) (j : Journal),
    recover_result j = 0 ->
    2 ^ 63 <= get_read_pos j ->
    dump rank j true
    = Some (preamble rank (get_read_pos j)
              (blen (journal_read j (get_read_pos j)
                       (wrap64 (get_write_pos j - get_read_pos j))))
            ++ journal_read j (get_read_pos j)
                 (wrap64 (get_write_pos j - get_read_pos j))).
Proof.
  intros rank j Hr Hs.
  unfold dump. rewrite Hr. cbn [Z.eqb negb]. cbv zeta.
  set (s := get_read_pos j) in *.
  set (bl := journal_read j s (wrap64 (get_write_pos j - s))).
  assert (Hseek : lseek64 200 s = 200).
  { unfold lseek64.
    assert (Hlt : (s <? 2 ^ 63) = false) by (apply Z.ltb_ge; lia).
    rewrite Hlt. reflexivity. }
  rewrite Hseek.
  set (pre := preamble rank s (blen bl)).
  assert (Hpre : List.length pre = 200%nat)
    by (apply (proj1 (preamble_shape rank s (blen bl)))).
  f_equal. unfold file_write.
  destruct bl as [|b bl']; [rewrite app_nil_r; reflexivity|].
  change (Z.to_nat 200) with 200%nat.
  rewrite (skipn_all2 pre) by (rewrite Hpre; lia).
  rewrite app_nil_r, Hpre.
  replace (200 - 200)%nat with 0%nat by lia.
  cbn [repeat]. rewrite app_nil_r, firstn_all2 by lia. reflexivity.
Qed.

Lemma dump_beyond_off_t_witness :
  dump 0 ex_journal_far true
  = Some (preamble 0 (get_read_pos ex_journal_far)
            (blen (journal_read ex_journal_far (get_read_pos ex_journal_far)
                     (wrap64 (get_write_pos ex_journal_far
                              - get_read_pos ex_journal_far))))
          ++ journal_read ex_journal_far (get_read_pos ex_journal_far)
               (wrap64 (get_write_pos ex_journal_far
                        - get_read_pos ex_journal_far))).
Proof.
  apply (dump_beyond_off_t 0 ex_journal_far).
  - reflexivity.
  - vm_compute. discriminate.
Defined.

(* ------------------------------------------------------------------ *)
(** ** Undump of a file with a preamble *)

Lemma firstn_split_at :
  forall (A : Type) (a b : nat) (l : list A),
    (a <= b)%nat ->
    firstn b l = firstn a l ++ firstn (b - a) (skipn a l).
Proof.
  intros A a b l Hab.
  rewrite <- (firstn_skipn a (firstn b l)) at 1.
  rewrite firstn_firstn, skipn_firstn_comm.
  replace (Nat.min a b) with a by lia. reflexivity.
Qed.

Section ChunksInsideFile.

Variable S : Z.

(** While the range lies inside the file every chunk is read whole, and
    the loop writes what one [Filer] write of the range writes. *)
Lemma undump_chunks_one_write :
  forall fuel f p fpos pos left,
    0 <= pos -> 0 <= left -> pos + left <= blen f -> blen f < 2 ^ 63 ->
    left <= Z.of_nat fuel * (1024 * 1024) ->
    undump_chunks fuel f S p fpos pos left
    = Some (filer_write S p pos
              (file_read f (Z.to_nat pos) (Z.to_nat left))).
Proof.
  induction fuel as [|fuel IH];
    intros f p fpos pos left Hpos Hleft Hin Hmax Hfuel.
  - assert (left = 0) by lia. subst left. reflexivity.
  - cbn [undump_chunks].
    destruct (0 <? left) eqn:Hl.
    2:{ apply Z.ltb_ge in Hl. assert (left = 0) by lia. subst left.
        reflexivity. }
    apply Z.ltb_lt in Hl.
    assert (Hseek : lseek64 fpos pos = pos).
    { unfold lseek64.
      assert (Hlt : (pos <? 2 ^ 63) = true) by (apply Z.ltb_lt; lia).
      rewrite Hlt. reflexivity. }
    rewrite Hseek.
    set (l := Z.min left (1024 * 1024)).
    assert (Hlr : 0 < l <= left) by (unfold l; lia).
    assert (Hw : wrap64 (pos + l) = pos + l).
    { apply wrap64_small. unfold two64. lia. }
    rewrite Hw.
    rewrite IH; [|lia|lia|lia|exact Hmax|unfold l; lia].
    f_equal.
    unfold file_read.
    rewrite (firstn_split_at byte (Z.to_nat l) (Z.to_nat left)) by lia.
    rewrite filer_write_app.
    rewrite skipn_skipn.
    replace (Z.to_nat l + Z.to_nat pos)%nat with (Z.to_nat (pos + l)) by lia.
    replace (Z.to_nat left - Z.to_nat l)%nat with (Z.to_nat (left - l)) by lia.
    assert (Hfull : blen (firstn (Z.to_nat l) (skipn (Z.to_nat pos) f)) = l).
    { unfold blen in *. rewrite length_firstn, length_skipn. lia. }
    rewrite Hfull. reflexivity.
Qed.

End ChunksInsideFile.

Lemma firstn_200_length :
  forall (f : File) rank start len,
    firstn 200 f = preamble rank start len ->
    List.length (firstn 200 f) = 200%nat.
Proof.
  intros f rank start len H. rewrite H.
  apply (proj1 (preamble_shape rank start len)).
Qed.

(** X15.  On a file whose first 200 bytes are a preamble that announces
    [start] and [len], and that holds the range [[start, start + len)]
    (a file has fewer than 2^63 bytes, and a seek inside it succeeds),
    [undump] does not depend on what the stack held: it writes the
    header built from [start] and [len] to object 0 and then, chunk by
    chunk, what one [Filer] write at [start] of the [len] bytes the file
    holds from [start] writes. *)
Theorem undump_is_header_and_one_write :
  forall (E : Type) (fmt : Format E) (metadata_pool rank start len : Z)
         (f : File) (stk : Stack) (p : Pool),
    0 <= start -> 0 <= len ->
    start + len <= blen f -> blen f < 2 ^ 63 ->
    firstn 200 f = preamble rank start len ->
    undump fmt metadata_pool (Opened f) stk p
    = Undumped
        (filer_write (fl_object_size (g_default_file_layout fmt))
           (write_full p 0
              (Header_encode fmt (undump_header fmt metadata_pool start len)))
           start (file_read f (Z.to_nat start) (Z.to_nat len)))
    /\ blen (file_read f (Z.to_nat start) (Z.to_nat len)) = len.
Proof.
  intros E fmt mp rank start len f stk p Hs Hl Hin Hmax Hf.
  assert (U1 : uint64 start) by (unfold uint64, two64; lia).
  assert (U2 : uint64 len) by (unfold uint64, two64; lia).
  pose proof (firstn_200_length f rank start len Hf) as H200.
  split.
  2:{ unfold file_read, blen in *. rewrite length_firstn, length_skipn. lia. }
  unfold undump.
  cbv zeta.
  rewrite (skipn_all2 (firstn 200 (buf_uninit stk)))
    by (rewrite H200, length_firstn; lia).
  rewrite app_nil_r, Hf, c_str_preamble.
  rewrite scan_field_start by exact U1.
  rewrite scan_field_length by exact U2.
  cbn [layout undump_header fl_object_size].
  rewrite undump_chunks_one_write; [reflexivity|lia|lia|lia|lia|].
  pose proof (Z.mul_div_le len (1024 * 1024) ltac:(lia)).
  pose proof (Z.mod_pos_bound len (1024 * 1024) ltac:(lia)).
  pose proof (Z.div_mod len (1024 * 1024) ltac:(lia)).
  pose proof (Z.div_pos len (1024 * 1024) ltac:(lia) ltac:(lia)).
  rewrite Nat2Z.inj_succ, Z2Nat.id by lia. lia.
Qed.

Lemma undump_is_header_and_one_write_witness :
  undump ex_fmt 1 (Opened ex_file_with_preamble) ex_stack empty_pool
  = Undumped
      (filer_write (fl_object_size (g_default_file_layout ex_fmt))
         (write_full empty_pool 0
            (Header_encode ex_fmt (undump_header ex_fmt 1 256 4)))
         256 (file_read ex_file_with_preamble (Z.to_nat 256) (Z.to_nat 4)))
  /\ blen (file_read ex_file_with_preamble (Z.to_nat 256) (Z.to_nat 4)) = 4.
Proof.
  apply (undump_is_header_and_one_write (list byte) ex_fmt 1 0 256 4
           ex_file_with_preamble ex_stack empty_pool).
  - lia.
  - lia.
  - vm_compute. discriminate.
  - vm_compute. reflexivity.
  - vm_compute. reflexivity.
Defined.

(** X16.  The header [undump] writes, read back by [scan_header] through
    a codec that decodes what it encodes: it is found valid exactly when
    [start + len] does not wrap around 2^64. *)
Theorem undump_header_accepted_by_scanner :
  forall (E : Type) (fmt : Format E) (cfg : Config) (metadata_pool : Z)
         (start len : Z) (io : IoCtx),
    uint64 start -> uint64 len ->
    Header_decode fmt
      (Header_encode fmt (undump_header fmt metadata_pool start len))
    = Decoded (undump_header fmt metadata_pool start len) ->
    0 <= rc (io (header_name fmt cfg)) ->
    data (io (header_name fmt cfg))
    = Header_encode fmt (undump_header fmt metadata_pool start len) ->
    header_valid (snd (scan_header fmt cfg io (new_scanner E)))
    = (start + len <? two64).
Proof.
  intros E fmt cfg mp start len io Hs Hl Hcodec Hrc Hdata.
  unfold scan_header. cbv zeta.
  assert (Hrcb : (rc (io (header_name fmt cfg)) <? 0) = false)
    by (apply Z.ltb_ge; exact Hrc).
  rewrite Hrcb, Hdata, Hcodec.
  cbn [magic undump_header trimmed_pos expire_pos write_pos].
  rewrite String.eqb_refl. cbn [negb].
  rewrite Z.leb_refl. cbn [andb].
  unfold uint64 in *.
  destruct (start + len <? two64) eqn:Hw.
  - apply Z.ltb_lt in Hw.
    rewrite wrap64_small by lia.
    assert (Hle : (start <=? start + len) = true) by (apply Z.leb_le; lia).
    rewrite Hle. reflexivity.
  - apply Z.ltb_ge in Hw.
    assert (Hwrap : wrap64 (start + len) = start + len - two64).
    { unfold wrap64. symmetry.
      apply (Z.mod_unique (start + len) two64 1); lia. }
    rewrite Hwrap.
    assert (Hle : (start <=? start + len - two64) = false)
      by (apply Z.leb_gt; lia).
    rewrite Hle. reflexivity.
Qed.

Lemma undump_header_accepted_by_scanner_witness :
  header_valid
    (snd (scan_header ex_fmt ex_cfg (ex_io_undumped 256 4)
            (new_scanner (list byte))))
  = (256 + 4 <? two64).
Proof.
  apply (undump_header_accepted_by_scanner (list byte) ex_fmt ex_cfg 1 256 4
           (ex_io_undumped 256 4)).
  - vm_compute. split; [discriminate|reflexivity].
  - vm_compute. split; [discriminate|reflexivity].
  - vm_compute. reflexivity.
  - vm_compute. discriminate.
  - vm_compute. reflexivity.
Defined.

(* ------------------------------------------------------------------ *)
(** ** Dump, then undump, beyond 2^63 *)

Section ChunksWithoutSeek.

Variable S : Z.

(** With stream offsets that are no [off64_t] every [lseek64] fails and
    the loop reads the file in sequence from where its position is. *)
Lemma undump_chunks_sequential :
  forall fuel head rest p fpos pos,
    List.length head = Z.to_nat fpos -> 0 <= fpos ->
    2 ^ 63 <= pos -> pos + blen rest < two64 ->
    blen rest <= Z.of_nat fuel * (1024 * 1024) ->
    undump_chunks fuel (head ++ rest) S p fpos pos (blen rest)
    = Some (filer_write S p pos rest).
Proof.
  induction fuel as [|fuel IH]; intros head rest p fpos pos Hh Hfpos Hpos Hend Hf;
    cbn [undump_chunks].
  - pose proof (blen_nonneg rest).
    assert (Hr : rest = []).
    { destruct rest; [reflexivity|].
      unfold blen in *. cbn [List.length] in *. lia. }
    subst rest. reflexivity.
  - destruct (0 <? blen rest) eqn:Hlt.
    2:{ apply Z.ltb_ge in Hlt. pose proof (blen_nonneg rest).
        destruct rest; [reflexivity|].
        unfold blen in *. cbn [List.length] in *. lia. }
    apply Z.ltb_lt in Hlt.
    assert (Hseek : lseek64 fpos pos = fpos).
    { unfold lseek64.
      assert (Hb : (pos <? 2 ^ 63) = false) by (apply Z.ltb_ge; lia).
      rewrite Hb. reflexivity. }
    rewrite Hseek.
    set (l := Z.min (blen rest) (1024 * 1024)).
    assert (Hl : 0 < l <= blen rest) by (unfold l; lia).
    assert (Hj : file_read (head ++ rest) (Z.to_nat fpos) (Z.to_nat l)
                 = firstn (Z.to_nat l) rest).
    { unfold file_read. rewrite skipn_app, <- Hh, skipn_all, Nat.sub_diag.
      reflexivity. }
    rewrite Hj.
    assert (Hw : wrap64 (pos + l) = pos + l).
    { apply wrap64_small. lia. }
    rewrite Hw.
    assert (Hjl : blen (firstn (Z.to_nat l) rest) = l).
    { unfold blen in *. rewrite length_firstn. lia. }
    assert (Hrl : blen (skipn (Z.to_nat l) rest) = blen rest - l).
    { unfold blen in *. rewrite length_skipn. lia. }
    rewrite <- Hrl.
    rewrite <- (firstn_skipn (Z.to_nat l) rest) at 1.
    rewrite app_assoc.
    rewrite IH.
    + rewrite <- (firstn_skipn (Z.to_nat l) rest) at 3.
      rewrite filer_write_app, Hjl. reflexivity.
    + rewrite length_app, Hh. unfold blen. lia.
    + unfold blen. lia.
    + lia.
    + rewrite Hrl. lia.
    + rewrite Hrl. unfold l. lia.
Qed.

End ChunksWithoutSeek.

(** X20.  For a journal range that starts at 2^63 or above no [lseek64]
    of either function succeeds: [dump] writes the data right behind
    the preamble, and [undump] reads it in sequence from there.  The two
    failures cancel: the bytes are restored at their stream offsets and
    the header written holds the journal's positions. *)
Theorem round_trip_beyond_off_t :
  forall (E : Type) (fmt : Format E) (metadata_pool rank : Z)
         (j : Journal) (stk : Stack) (s e : Z),
    recover_result j = 0 ->
    get_read_pos j = s -> get_write_pos j = e ->
    blen (journal_read j s (e - s)) = e - s ->
    2 ^ 63 <= s ->
    0 < fl_object_size (g_default_file_layout fmt) <= s ->
    s <= e < two64 ->
    Header_decode fmt
      (Header_encode fmt (undump_header fmt metadata_pool s (e - s)))
    = Decoded (undump_header fmt metadata_pool s (e - s)) ->
    exists f p h,
      dump rank j true = Some f
      /\ f = preamble rank s (e - s) ++ journal_read j s (e - s)
      /\ undump fmt metadata_pool (Opened f) stk empty_pool = Undumped p
      /\ filer_read (fl_object_size (g_default_file_layout fmt)) p s
           (Z.to_nat (e - s)) = journal_read j s (e - s)
      /\ option_map (Header_decode fmt) (p 0) = Some (Decoded h)
      /\ expire_pos h = s /\ write_pos h = e.
Proof.
  intros E fmt mp rank j stk s e Hrec Hs He Hbl Hs63 HS Hse Hcodec.
  set (S := fl_object_size (g_default_file_layout fmt)) in *.
  set (bl := journal_read j s (e - s)) in *.
  set (h := undump_header fmt mp s (e - s)) in *.
  assert (Hlen : wrap64 (e - s) = e - s)
    by (apply wrap64_small; unfold two64 in *; lia).
  assert (Hseek : lseek64 200 s = 200).
  { unfold lseek64.
    assert (Hb : (s <? 2 ^ 63) = false) by (apply Z.ltb_ge; lia).
    rewrite Hb. reflexivity. }
  set (pre := preamble rank s (e - s)).
  destruct (preamble_shape rank s (e - s)) as (Hplen & _). fold pre in Hplen.
  set (f := pre ++ bl).
  assert (Hdump : dump rank j true = Some f).
  { unfold dump. rewrite Hrec, Hs, He, Hlen, Hseek. cbn [Z.eqb negb].
    cbv zeta. fold bl. rewrite Hbl. fold pre.
    f_equal. unfold file_write, f.
    destruct bl as [|b bl']; [rewrite app_nil_r; reflexivity|].
    change (Z.to_nat 200) with 200%nat.
    rewrite (skipn_all2 pre) by (rewrite Hplen; cbn [List.length]; lia).
    rewrite app_nil_r, Hplen.
    replace (200 - 200)%nat with 0%nat by lia.
    cbn [repeat]. rewrite app_nil_r, firstn_all2 by lia. reflexivity. }
  assert (Hgot : firstn 200 f = pre).
  { unfold f. rewrite firstn_app, Hplen.
    replace (200 - 200)%nat with 0%nat by lia.
    rewrite firstn_O, app_nil_r. apply firstn_all2. lia. }
  assert (Hchunks :
    undump_chunks (Datatypes.S (Z.to_nat ((e - s) / (1024 * 1024)))) f S
      (write_full empty_pool 0 (Header_encode fmt h)) 200 s (e - s)
    = Some (filer_write S (write_full empty_pool 0 (Header_encode fmt h)) s bl)).
  { unfold f. rewrite <- Hbl.
    apply undump_chunks_sequential.
    - rewrite Hplen. reflexivity.
    - lia.
    - exact Hs63.
    - rewrite Hbl. lia.
    - rewrite Hbl. rewrite Nat2Z.inj_succ, Z2Nat.id
        by (apply Z.div_pos; lia).
      pose proof (Z.mod_pos_bound (e - s) (1024 * 1024) ltac:(lia)).
      pose proof (Z.div_mod (e - s) (1024 * 1024) ltac:(lia)).
      lia. }
  exists f, (filer_write S (write_full empty_pool 0 (Header_encode fmt h)) s bl), h.
  split; [exact Hdump|]. split; [reflexivity|]. split.
  { unfold undump. cbv zeta.
    rewrite Hgot, Hplen.
    rewrite (skipn_all2 (firstn 200 (buf_uninit stk)))
      by (rewrite length_firstn; lia).
    rewrite app_nil_r. unfold pre. rewrite c_str_preamble.
    rewrite scan_field_start by (unfold uint64; lia).
    rewrite scan_field_length by (unfold uint64; lia).
    fold h. fold pre.
    change (fl_object_size (layout h)) with S.
    unfold blen at 1. rewrite Hplen. change (Z.of_nat 200) with 200.
    rewrite Hchunks. reflexivity. }
  split.
  { replace (Z.to_nat (e - s)) with (List.length bl)
      by (unfold blen in Hbl; lia).
    apply filer_read_write; lia. }
  split.
  { rewrite filer_write_object_0 by lia.
    unfold write_full. cbn [Z.eqb option_map]. rewrite Hcodec. reflexivity. }
  split; [reflexivity|].
  unfold h, undump_header. cbn [write_pos].
  replace (s + (e - s)) with e by ring. apply wrap64_small. lia.
Qed.

Lemma round_trip_beyond_off_t_witness :
  exists f p h,
    dump 0 ex_journal_far true = Some f
    /\ f = preamble 0 (2 ^ 63) (2 ^ 63 + 2 - 2 ^ 63)
           ++ journal_read ex_journal_far (2 ^ 63) (2 ^ 63 + 2 - 2 ^ 63)
    /\ undump ex_fmt 1 (Opened f) ex_stack empty_pool = Undumped p
    /\ filer_read (fl_object_size (g_default_file_layout ex_fmt)) p (2 ^ 63)
         (Z.to_nat (2 ^ 63 + 2 - 2 ^ 63))
       = journal_read ex_journal_far (2 ^ 63) (2 ^ 63 + 2 - 2 ^ 63)
    /\ option_map (Header_decode ex_fmt) (p 0) = Some (Decoded h)
    /\ expire_pos h = 2 ^ 63 /\ write_pos h = 2 ^ 63 + 2.
Proof.
  apply (round_trip_beyond_off_t (list byte) ex_fmt 1 0 ex_journal_far
           ex_stack (2 ^ 63) (2 ^ 63 + 2)).
  - reflexivity.
  - reflexivity.
  - reflexivity.
  - vm_compute. reflexivity.
  - lia.
  - vm_compute. split; [reflexivity|discriminate].
  - vm_compute. split; [discriminate|reflexivity].
  - vm_compute. reflexivity.
Defined.

(* ------------------------------------------------------------------ *)
(** ** The entry points of the tool *)

Lemma scan_return_code :
  forall (E : Type) (fmt : Format E) (cfg : Config) (fuel : nat)
         (cl : Cluster) (js : JournalScanner E) r js',
    scan fmt cfg fuel cl js = Returned r js' ->
    r = 0 \/ (r < 0 /\ (r = rados_init cl \/ r = pool_reverse_lookup cl)).
Proof.
  intros E fmt cfg fuel cl js r js' H.
  destruct (Z.lt_ge_cases r 0) as [Hneg|Hpos].
  - right. split; [exact Hneg|].
    eapply scan_error_only_from_startup; eassumption.
  - left. unfold scan in H.
    destruct (rados_init cl <? 0) eqn:Hi.
    { inversion H; subst. apply Z.ltb_lt in Hi. lia. }
    destruct (pool_reverse_lookup cl <? 0) eqn:Hp.
    { inversion H; subst. apply Z.ltb_lt in Hp. lia. }
    destruct (negb (ioctx_create cl =? 0)); [discriminate|].
    destruct (scan_header fmt cfg (io cl) js) as [r1 js1].
    destruct (r1 <? 0) eqn:Hr1.
    { inversion H; subst. apply Z.ltb_lt in Hr1. lia. }
    destruct (scan_events fmt cfg fuel (io cl) js1) as [r2 js2| |];
      try discriminate.
    destruct (r2 <? 0) eqn:Hr2; inversion H; subst.
    + apply Z.ltb_lt in Hr2. lia.
    + reflexivity.
Qed.

Section ToolFacts.

Context {LogEvent : Type}.
Variable fmt : Format LogEvent.
Variable env : ToolEnv LogEvent.
Variable fuel : nat.
Variable cl : Cluster.

Let code_ok (r : Z) : Prop :=
  r = 0 \/ r = - EINVAL
  \/ (r < 0 /\ (r = rados_init cl \/ r = pool_reverse_lookup cl)).

Let quiet (r : Z) (files : list (string * list byte)) (lines : list string)
  : Prop := r <> 0 -> files = [] /\ lines = [].

Lemma journal_inspect_exit :
  forall rank_ r files lines,
    journal_inspect fmt env fuel cl rank_ = Exit r files lines ->
    code_ok r /\ quiet r files lines.
Proof.
  intros rank_ r files lines H. unfold journal_inspect in H.
  destruct (scan fmt _ fuel cl _) as [r1 js1| |] eqn:Hs; try discriminate.
  apply scan_return_code in Hs.
  destruct (negb (r1 =? 0)) eqn:Hz; inversion H; subst; unfold code_ok, quiet.
  - split; [tauto|auto].
  - split; [auto|]. intros Hne. congruence.
Qed.

Lemma main_journal_exit :
  forall rank_ argv r files lines,
    main_journal fmt env fuel cl rank_ argv = Exit r files lines ->
    code_ok r /\ quiet r files lines.
Proof.
  intros rank_ argv r files lines H. unfold main_journal in H.
  destruct argv as [|command rest]; [discriminate|].
  destruct (String.eqb command "inspect").
  - eapply journal_inspect_exit; exact H.
  - inversion H; subst. unfold code_ok, quiet. auto.
Qed.

Lemma main_event_exit :
  forall rank_ argv r files lines,
    main_event fmt env fuel cl rank_ argv = Exit r files lines ->
    code_ok r /\ quiet r files lines.
Proof.
  intros rank_ argv r files lines H. unfold main_event in H.
  destruct argv as [|command [|output_verb rest]]; try discriminate.
  destruct (String.eqb command "get").
  2:{ inversion H; subst. unfold code_ok, quiet. auto. }
  destruct (scan fmt _ fuel cl _) as [r1 js1| |] eqn:Hs; try discriminate.
  apply scan_return_code in Hs.
  destruct (negb (r1 =? 0)) eqn:Hz.
  { inversion H; subst. unfold code_ok, quiet. split; [tauto|auto]. }
  destruct (String.eqb output_verb "binary").
  { inversion H; subst. unfold code_ok, quiet. split; [auto|congruence]. }
  destruct (String.eqb output_verb "summary").
  { inversion H; subst. unfold code_ok, quiet. split; [auto|congruence]. }
  inversion H; subst. unfold code_ok, quiet. auto.
Qed.

End ToolFacts.

(** X17.  The value [main] returns is 0, [-EINVAL], or the negative code
    of [rados.init_with_context] or of [pool_reverse_lookup]: the state
    of the journal never shows in it.  When it is not 0, no file was
    written and no line logged. *)
Theorem main_exit_code :
  forall (E : Type) (fmt : Format E) (env : ToolEnv E) (fuel : nat)
         (cl : Cluster) (rank0 : Z) (argv : list string)
         (r : Z) (files : list (string * list byte)) (lines : list string),
    main fmt env fuel cl rank0 argv = Exit r files lines ->
    (r = 0 \/ r = - EINVAL
     \/ (r < 0 /\ (r = rados_init cl \/ r = pool_reverse_lookup cl)))
    /\ (r <> 0 -> files = [] /\ lines = []).
Proof.
  intros E fmt env fuel cl rank0 argv r files lines H. unfold main in H.
  destruct (List.length argv <? 3)%nat.
  { inversion H; subst. auto. }
  destruct (parse_rank env rank0 argv) as [rank_ argv'].
  destruct argv' as [|mode rest].
  { inversion H; subst. auto. }
  destruct (String.eqb mode "journal").
  { eapply main_journal_exit; exact H. }
  destruct (String.eqb mode "event").
  { eapply main_event_exit; exact H. }
  inversion H; subst. auto.
Qed.

Lemma main_exit_code_witness :
  (0 = 0 \/ 0 = - EINVAL
   \/ (0 < 0 /\ (0 = rados_init ex_cluster_bad_magic
                 \/ 0 = pool_reverse_lookup ex_cluster_bad_magic)))
  /\ (0 <> 0 ->
      @nil (string * list byte) = []
      /\ ["Journal scanned, healthy=0"%string] = []).
Proof.
  apply (main_exit_code (list byte) ex_fmt ex_env 3 ex_cluster_bad_magic 0
           ["journal"; "inspect"; "now"]%string 0 []
           ["Journal scanned, healthy=0"%string]).
  vm_compute. reflexivity.
Defined.

(** X18.  [main] reads past the end of its arguments exactly when, with
    at least three arguments given, what is left behind the rank option
    is [journal] alone, [event] alone, or [event] and one more word:
    [main_journal] takes [argv[0]] of an empty vector, and [main_event]
    reports a missing output verb and reads it all the same. *)
Theorem main_undefined_iff :
  forall (E : Type) (fmt : Format E) (env : ToolEnv E) (fuel : nat)
         (cl : Cluster) (rank0 : Z) (argv : list string),
    main fmt env fuel cl rank0 argv = ToolUndefined
    <-> (3 <= List.length argv)%nat
        /\ (snd (parse_rank env rank0 argv) = ["journal"%string]
            \/ snd (parse_rank env rank0 argv) = ["event"%string]
            \/ exists c, snd (parse_rank env rank0 argv) = ["event"%string; c]).
Proof.
  intros E fmt env fuel cl rank0 argv. unfold main.
  destruct (List.length argv <? 3)%nat eqn:Hlen.
  { apply Nat.ltb_lt in Hlen. split; [discriminate|]. intros [Hl _]. lia. }
  apply Nat.ltb_ge in Hlen.
  destruct (parse_rank env rank0 argv) as [rank_ argv']. cbn [snd].
  destruct argv' as [|mode rest].
  { split; [discriminate|].
    intros [_ [Hc|[Hc|[c Hc]]]]; discriminate. }
  destruct (String.eqb_spec mode "journal") as [->|Hj].
  { unfold main_journal. destruct rest as [|command rest'].
    - split; auto.
    - split.
      + intros H. exfalso.
        destruct (String.eqb command "inspect"); [|discriminate].
        unfold journal_inspect in H.
        destruct (scan fmt _ fuel cl _) as [r1 js1| |]; try discriminate.
        destruct (negb (r1 =? 0)); discriminate.
      + intros [_ [Hc|[Hc|[c Hc]]]]; discriminate. }
  destruct (String.eqb_spec mode "event") as [->|He].
  { unfold main_event. destruct rest as [|command [|output_verb rest']].
    - split; auto.
    - split; [|reflexivity]. intros _. split; [exact Hlen|]. eauto.
    - split.
      + intros H. exfalso.
        destruct (String.eqb command "get"); [|discriminate].
        destruct (scan fmt _ fuel cl _) as [r1 js1| |]; try discriminate.
        destruct (negb (r1 =? 0)); [discriminate|].
        destruct (String.eqb output_verb "binary"); [discriminate|].
        destruct (String.eqb output_verb "summary"); discriminate.
      + intros [_ [Hc|[Hc|[c Hc]]]]; discriminate. }
  split; [discriminate|].
  intros [_ [Hc|[Hc|[c Hc]]]]; inversion Hc; congruence.
Qed.

(* ------------------------------------------------------------------ *)
(** ** Binary output *)

Section KeysInRange.

Context {LogEvent : Type}.
Variable fmt : Format LogEvent.
Variable cfg : Config.
Variable io : IoCtx.

Let JS := JournalScanner LogEvent.

Lemma parse_entries_keys_in_range :
  forall fuel (js : JS) lc js' lc',
    uint64 (read_offset lc) -> Forall uint64 (keys (events js)) ->
    parse_entries fmt fuel js lc = Some (js', lc') ->
    uint64 (read_offset lc') /\ Forall uint64 (keys (events js')).
Proof.
  induction fuel as [|fuel IH]; intros js lc js' lc' Ho Hk H; [discriminate|].
  rewrite parse_entries_S in H.
  repeat split_if_in H; try (inversion H; subst; auto; fail).
  destruct (LogEvent_decode fmt _) as [le|].
  - apply IH in H; [exact H| |].
    + cbn [read_offset]. apply wrap64_range.
    + cbn [record_event events]. apply map_assign_keys_Forall; assumption.
  - apply IH in H; [exact H| |exact Hk].
    cbn [read_offset]. apply wrap64_range.
Qed.

Lemma scan_object_keys_in_range :
  forall i (js : JS) lc js' lc',
    uint64 (read_offset lc) -> Forall uint64 (keys (events js)) ->
    scan_object fmt cfg io i js lc = Next js' lc' ->
    uint64 (read_offset lc') /\ Forall uint64 (keys (events js')).
Proof.
  intros i js lc js' lc' Ho Hk H. unfold scan_object in H.
  repeat split_if_in H; try discriminate.
  - inversion H; subst. auto.
  - destruct (parse_entries fmt _ _ _) as [[js2 lc2]|] eqn:Hp; [|discriminate].
    inversion H; subst.
    eapply parse_entries_keys_in_range; [| |exact Hp]; assumption.
Qed.

Lemma scan_objects_keys_in_range :
  forall fuel i last (js : JS) lc r js',
    uint64 (read_offset lc) -> Forall uint64 (keys (events js)) ->
    scan_objects fmt cfg fuel io i last js lc = Returned r js' ->
    Forall uint64 (keys (events js')).
Proof.
  induction fuel as [|fuel IH]; intros i last js lc r js' Ho Hk H;
    cbn [scan_objects] in H.
  - destruct (i <=? last); [discriminate|].
    unfold finish_scan in H. inversion H; subst. destruct (gap lc); exact Hk.
  - destruct (i <=? last).
    + destruct (scan_object fmt cfg io i js lc) as [js1 lc1|o] eqn:Hs.
      * apply scan_object_keys_in_range in Hs; [|exact Ho|exact Hk].
        destruct Hs as [Ho1 Hk1].
        eapply IH; [exact Ho1|exact Hk1|exact H].
      * exfalso. eapply scan_object_stop; [exact Hs|exact H].
    + unfold finish_scan in H. inversion H; subst. destruct (gap lc); exact Hk.
Qed.

End KeysInRange.

(** The keys of the events of a finished scan: strictly ascending, and
    64-bit offsets when [expire_pos] is one. *)
Lemma scan_keys :
  forall (E : Type) (fmt : Format E) (cfg : Config) (fuel : nat)
         (cl : Cluster) (js' : JournalScanner E),
    (forall h,
       header (snd (scan_header fmt cfg (io cl) (new_scanner E))) = Some h ->
       uint64 (expire_pos h)) ->
    scan fmt cfg fuel cl (new_scanner E) = Returned 0 js' ->
    StronglySorted Z.lt (keys (events js'))
    /\ Forall uint64 (keys (events js')).
Proof.
  intros E fmt cfg fuel cl js' Hh H.
  apply scan_returned_0 in H.
  destruct (scan_header_keeps_lists E fmt cfg (io cl) (new_scanner E))
    as (_ & _ & _ & _ & Hm0).
  set (js1 := snd (scan_header fmt cfg (io cl) (new_scanner E))) in *.
  simpl in Hm0.
  unfold scan_events in H.
  destruct (header js1) as [h|] eqn:Hhd; [|discriminate].
  destruct (object_size fmt cfg =? 0); [discriminate|].
  split.
  - eapply (scan_objects_events_preserved fmt cfg (io cl)
              (fun m => StronglySorted Z.lt (keys m))); [|exact H|].
    + intros k v m. apply map_assign_sorted.
    + rewrite Hm0. constructor.
  - eapply scan_objects_keys_in_range; [| |exact H].
    + cbn [read_offset]. apply Hh. reflexivity.
    + rewrite Hm0. constructor.
Qed.

Lemma list_byte_of_string_append :
  forall a b : string,
    list_byte_of_string (String.append a b)
    = list_byte_of_string a ++ list_byte_of_string b.
Proof.
  induction a as [|c a IH]; intros b; [reflexivity|].
  unfold list_byte_of_string in *.
  cbn [String.append list_ascii_of_string map app].
  rewrite IH. reflexivity.
Qed.

Lemma bin_path_inj :
  forall (E : Type) (env : ToolEnv E) (a b : Z) (la lb : E),
    uint64 a -> uint64 b ->
    bin_path env a la = bin_path env b lb -> a = b.
Proof.
  intros E env a b la lb Ha Hb H. unfold bin_path, hex_key in H.
  apply (f_equal list_byte_of_string) in H.
  rewrite !list_byte_of_string_append in H.
  rewrite !list_byte_of_string_of_list_byte in H.
  apply app_inv_head in H.
  rewrite <- !app_assoc in H. apply app_inv_head in H.
  change (list_byte_of_string "_") with [x5f] in H.
  cbn [app] in H.
  apply split_at_separator in H.
  - destruct H as [H _]. eapply fmt_llx_inj; eassumption.
  - apply (Forall_class_neq is_hex_char); [reflexivity|apply fmt_llx_chars].
  - apply (Forall_class_neq is_hex_char); [reflexivity|apply fmt_llx_chars].
Qed.

Lemma bin_paths_NoDup :
  forall (E : Type) (env : ToolEnv E) (m : EventMap E),
    StronglySorted Z.lt (keys m) -> Forall uint64 (keys m) ->
    NoDup (map fst (map (bin_file env) m)).
Proof.
  intros E env. induction m as [|[k v] m IH]; intros Hs Hu; simpl.
  - constructor.
  - inversion Hs as [|? ? Hs' Hlt]; subst. inversion Hu as [|? ? Hk Hu']; subst.
    constructor; [|apply IH; assumption].
    intros Hin. rewrite map_map in Hin. apply in_map_iff in Hin.
    destruct Hin as ([k' v'] & Heq & Hin'). cbn [bin_file fst snd] in Heq.
    assert (Hk'in : In k' (keys m)).
    { unfold keys. apply in_map_iff. exists (k', v'). auto. }
    assert (Hk' : uint64 k') by (eapply Forall_forall in Hu'; eauto).
    apply bin_path_inj in Heq; [|exact Hk'|exact Hk].
    eapply Forall_forall in Hlt; [|exact Hk'in]. simpl in Hlt. lia.
Qed.

(** X19.  Binary output writes each event to a file of its own: the
    paths [dump/0x<offset>_<type>.bin] of one run of [main_event] are
    pairwise distinct, whatever the type strings are (the [expire_pos]
    of the header read being a 64-bit value). *)
Theorem binary_output_paths_distinct :
  forall (E : Type) (fmt : Format E) (env : ToolEnv E) (fuel : nat)
         (cl : Cluster) (rank_ : Z) (argv : list string)
         (r : Z) (files : list (string * list byte)) (lines : list string),
    (forall h,
       header (snd (scan_header fmt (scanner_config env rank_) (io cl)
                      (new_scanner E))) = Some h ->
       uint64 (expire_pos h)) ->
    main_event fmt env fuel cl rank_ argv = Exit r files lines ->
    NoDup (map fst files).
Proof.
  intros E fmt env fuel cl rank_ argv r files lines Hh H.
  unfold main_event in H.
  destruct argv as [|command [|output_verb rest]]; try discriminate.
  destruct (String.eqb command "get").
  2:{ inversion H; subst. constructor. }
  destruct (scan fmt _ fuel cl _) as [r1 js1| |] eqn:Hs; try discriminate.
  destruct (r1 =? 0) eqn:Hz; cbn [negb] in H.
  2:{ inversion H; subst. constructor. }
  apply Z.eqb_eq in Hz. subst r1.
  apply scan_keys in Hs; [|exact Hh]. destruct Hs as [Hsorted Hrange].
  destruct (String.eqb output_verb "binary").
  { inversion H; subst. apply bin_paths_NoDup; assumption. }
  destruct (String.eqb output_verb "summary"); inversion H; subst; constructor.
Qed.

Lemma binary_output_paths_distinct_witness :
  NoDup (map fst [("dump/0x40_UPDATE.bin"%string, [x01; x02]);
                  ("dump/0x56_UPDATE.bin"%string, [x01; x03])]).
Proof.
  apply (binary_output_paths_distinct (list byte) ex_fmt ex_env 1
           ex_cluster_lagging_header 0 ["get"; "binary"]%string 0
           [("dump/0x40_UPDATE.bin"%string, [x01; x02]);
            ("dump/0x56_UPDATE.bin"%string, [x01; x03])] []).
  - intros h Hh. vm_compute in Hh. inversion Hh; subst.
    vm_compute. split; [discriminate|reflexivity].
  - vm_compute. reflexivity.
Defined.
